(** * Shape creator: mesh, snowflake and star-convex engines

    A shallow embedding of [shape_creator/app.py].  Grid coordinates and node
    indices are Python integers, modelled as [Z]; the sentinel [-1] that the
    source uses for "not found" is kept as it is.  Python lists are Rocq lists,
    tuples are pairs.  A call that can raise returns [option]; [None] stands
    for the raised exception. *)

From Stdlib Require Import ZArith List Lia Bool Arith Permutation Relations.
Import ListNotations.
Open Scope Z_scope.

(** ** Python list primitives *)

Module Py.

(** [l[i]]: a negative subscript counts from the end, anything outside
    [-len .. len-1] raises IndexError. *)
Definition getitem {A : Type} (l : list A) (i : Z) : option A :=
  let n := Z.of_nat (length l) in
  if (0 <=? i) && (i <? n) then nth_error l (Z.to_nat i)
  else if (- n <=? i) && (i <? 0) then nth_error l (Z.to_nat (i + n))
  else None.

(** Removal of the element at position [k]. *)
Fixpoint drop_at {A : Type} (k : nat) (l : list A) {struct l} : list A :=
  match l, k with
  | [], _ => []
  | _ :: t, O => t
  | h :: t, S k' => h :: drop_at k' t
  end.

(** [del l[i]], with the same subscript rules as [getitem]. *)
Definition delitem {A : Type} (l : list A) (i : Z) : option (list A) :=
  let n := Z.of_nat (length l) in
  if (0 <=? i) && (i <? n) then Some (drop_at (Z.to_nat i) l)
  else if (- n <=? i) && (i <? 0) then Some (drop_at (Z.to_nat (i + n)) l)
  else None.

(** [l.remove(x)] when [x] is known to occur: the first equal element goes. *)
Fixpoint remove_first {A : Type} (eqb : A -> A -> bool) (x : A) (l : list A) : list A :=
  match l with
  | [] => []
  | h :: t => if eqb h x then t else h :: remove_first eqb x t
  end.

(** [x in l]. *)
Definition mem {A : Type} (eqb : A -> A -> bool) (x : A) (l : list A) : bool :=
  existsb (fun h => eqb h x) l.

End Py.

(** ** Grid geometry *)

Definition point : Type := Z * Z.
Definition edge_t : Type := Z * Z.
Definition face_t : Type := Z * Z * Z.

Definition point_eqb (p q : point) : bool :=
  (fst p =? fst q) && (snd p =? snd q).

Definition DIR_VECS : list point :=
  [(1, 0); (0, 1); (-1, 1); (-1, 0); (0, -1); (1, -1)].

(** [rotate_grid_point(x, y, rot)] *)
Definition rotate_grid_point (x y rot : Z) : option point :=
  match Py.getitem DIR_VECS rot, Py.getitem DIR_VECS ((rot + 1) mod 6) with
  | Some vec_x, Some vec_y =>
      let x1 := fst vec_x * x in
      let y1 := snd vec_x * x in
      let x2 := fst vec_y * y in
      let y2 := snd vec_y * y in
      Some (x1 + x2, y1 + y2)
  | _, _ => None
  end.

(** One counterclockwise turn of 60 degrees on the lattice. *)
Definition rot60 (p : point) : point := (- snd p, fst p + snd p).

(** ** Mesh: class [Shape]

    The colour attributes and the cache [nodes_tf] of embedded (floating
    point) positions play no part in the mesh algorithms and are left out. *)

Record Shape : Type := mkShape {
  pos : point;
  nodes : list point;
  edges : list edge_t;
  faces : list face_t
}.

(** Tuple equality [e == edge]. *)
Definition edge_eqb (e1 e2 : edge_t) : bool :=
  (fst e1 =? fst e2) && (snd e1 =? snd e2).

Definition face_eqb (f1 f2 : face_t) : bool :=
  let '(a, b, c) := f1 in
  let '(a', b', c') := f2 in
  (a =? a') && (b =? b') && (c =? c').

(** The test of [contains_edge]: equal in either orientation. *)
Definition same_edge (e edge : edge_t) : bool :=
  (fst e =? fst edge) && (snd e =? snd edge) || (fst e =? snd edge) && (snd e =? fst edge).

Definition tuple3 (f : face_t) : list Z :=
  let '(a, b, c) := f in [a; b; c].

(** [set(l1) == set(l2)] *)
Definition set_eqb (l1 l2 : list Z) : bool :=
  forallb (fun x => Py.mem Z.eqb x l2) l1 && forallb (fun x => Py.mem Z.eqb x l1) l2.

(** The test of [contains_face]: [set(f) == set(face)]. *)
Definition same_face (f face : face_t) : bool :=
  set_eqb (tuple3 f) (tuple3 face).

Definition contains_edge_in (es : list edge_t) (edge : edge_t) : bool :=
  existsb (fun e => same_edge e edge) es.

Definition contains_face_in (fs : list face_t) (face : face_t) : bool :=
  existsb (fun f => same_face f face) fs.

Definition contains_edge (s : Shape) (edge : edge_t) : bool :=
  contains_edge_in (edges s) edge.

Definition contains_face (s : Shape) (face : face_t) : bool :=
  contains_face_in (faces s) face.

(** The scan [i = 0; j = -1; for node in nodes: if node == p: j = i; i += 1]
    that the mutators use to look a coordinate up: it has no [break], so it
    ends with the last position holding [p]. *)
Fixpoint scan_nodes (p : point) (l : list point) (i j : Z) : Z :=
  match l with
  | [] => j
  | node :: l' => scan_nodes p l' (i + 1) (if point_eqb node p then i else j)
  end.

Definition find_node (s : Shape) (p : point) : Z :=
  scan_nodes p (nodes s) 0 (-1).

(** First position of [p] from counter [i] on, [-1] when absent:
    [nodes.index(p)] with the ValueError caught, and the searches that
    [break] at the first hit. *)
Fixpoint index_from (p : point) (l : list point) (i : Z) : Z :=
  match l with
  | [] => -1
  | node :: l' => if point_eqb node p then i else index_from p l' (i + 1)
  end.

Definition to_local (s : Shape) (p : point) : point :=
  (fst p - fst (pos s), snd p - snd (pos s)).

(** [add_edge(edge)] *)
Definition add_edge (s : Shape) (edge : point * point) : Shape :=
  let p1 := to_local s (fst edge) in
  let p2 := to_local s (snd edge) in
  let j1 := find_node s p1 in
  let j2 := find_node s p2 in
  if (j1 =? -1) && (j2 =? -1) then s
  else if negb (j1 =? -1) && negb (j2 =? -1) then
    if contains_edge s (j1, j2) then s
    else mkShape (pos s) (nodes s) (edges s ++ [(j1, j2)]) (faces s)
  else
    let new_idx := Z.of_nat (length (nodes s)) in
    let p := if j1 =? -1 then p1 else p2 in
    mkShape (pos s) (nodes s ++ [p])
            (edges s ++ [(if negb (j1 =? -1) then j1 else j2, new_idx)])
            (faces s).

(** One round of [if js[i] == -1: ...append(points[i]); js[i] = new_idx]. *)
Definition add_missing_node (ns : list point) (j : Z) (p : point) : list point * Z :=
  if j =? -1 then (ns ++ [p], Z.of_nat (length ns)) else (ns, j).

Definition add_edge_if_new (es : list edge_t) (e : edge_t) : list edge_t :=
  if contains_edge_in es e then es else es ++ [e].

(** [add_face(face)] *)
Definition add_face (s : Shape) (face : point * point * point) : Shape :=
  let '(q1, q2, q3) := face in
  let p1 := to_local s q1 in
  let p2 := to_local s q2 in
  let p3 := to_local s q3 in
  let j1 := find_node s p1 in
  let j2 := find_node s p2 in
  let j3 := find_node s p3 in
  let n_cont := length (filter (fun j => negb (j =? -1)) [j1; j2; j3]) in
  if (n_cont =? 0)%nat then s
  else
    let '(ns, j1, j2, j3) :=
      if (n_cont <? 3)%nat then
        let '(ns1, k1) := add_missing_node (nodes s) j1 p1 in
        let '(ns2, k2) := add_missing_node ns1 j2 p2 in
        let '(ns3, k3) := add_missing_node ns2 j3 p3 in
        (ns3, k1, k2, k3)
      else (nodes s, j1, j2, j3) in
    let es := fold_left add_edge_if_new [(j1, j2); (j1, j3); (j2, j3)] (edges s) in
    let fs := if contains_face s (j1, j2, j3) then faces s
              else faces s ++ [(j1, j2, j3)] in
    mkShape (pos s) ns es fs.

(** *** Connectivity test *)

Record bfs_state : Type := mkBfs {
  queue : list Z;
  visited : list Z;
  target_nodes : list Z
}.

(** [target_nodes.remove(n)] guarded by [if n in target_nodes]. *)
Definition discard_target (n : Z) (targets : list Z) : list Z :=
  if Py.mem Z.eqb n targets then Py.remove_first Z.eqb n targets else targets.

(** Body of [for i in range(len(self.edges))] for the edge [e] at index [i],
    while the node [n] is being expanded. *)
Definition bfs_visit (n : Z) (excluded_nodes excluded_edges : list Z)
    (st : bfs_state) (ie : Z * edge_t) : bfs_state :=
  let '(i, e) := ie in
  if Py.mem Z.eqb i excluded_edges then st
  else
    let nbr := if fst e =? n then snd e else if snd e =? n then fst e else -1 in
    if negb (Py.mem Z.eqb nbr excluded_nodes) && negb (Py.mem Z.eqb nbr (visited st)) then
      mkBfs (queue st ++ [nbr]) (nbr :: visited st) (discard_target nbr (target_nodes st))
    else st.

(** The list paired with its subscripts, as [range(len(l))] walks it. *)
Fixpoint enumerate_from {A : Type} (i : Z) (l : list A) : list (Z * A) :=
  match l with
  | [] => []
  | x :: l' => (i, x) :: enumerate_from (i + 1) l'
  end.

Definition enumerate {A : Type} (l : list A) : list (Z * A) := enumerate_from 0 l.

(** [while len(target_nodes) > 0 and len(queue) > 0]; [fuel] bounds the
    number of rounds. *)
Fixpoint bfs_loop (fuel : nat) (es : list edge_t) (excluded_nodes excluded_edges : list Z)
    (st : bfs_state) : bfs_state :=
  match fuel with
  | O => st
  | S fuel' =>
      match target_nodes st, queue st with
      | _ :: _, n :: q =>
          bfs_loop fuel' es excluded_nodes excluded_edges
            (fold_left (bfs_visit n excluded_nodes excluded_edges) (enumerate es)
                       (mkBfs q (visited st) (target_nodes st)))
      | _, _ => st
      end
  end.

(** Every value the search can enqueue is the start node, [-1] or an end
    point of an edge, and each is enqueued once: this many rounds empty the
    queue (lemma [bfs_loop_finished]). *)
Definition bfs_fuel (es : list edge_t) : nat := (2 * length es + 3)%nat.

(** [_nodes_connected(n1, target_nodes, excluded_nodes, excluded_edges)].
    The result is Python's [None] (here the outer [None]) when no target is
    left after discarding [n1], else a boolean. *)
Definition _nodes_connected (s : Shape) (n1 : Z) (targets excluded_nodes excluded_edges : list Z)
    : option bool :=
  let targets := discard_target n1 targets in
  if (length targets =? 0)%nat then None
  else
    let st := bfs_loop (bfs_fuel (edges s)) (edges s) excluded_nodes excluded_edges
                       (mkBfs [n1] [n1] targets) in
    Some (length (target_nodes st) =? 0)%nat.

(** Truth value of a Python result that is [None], [True] or [False]. *)
Definition truthy (r : option bool) : bool :=
  match r with Some b => b | None => false end.

(** *** Removal *)

(** [_remove_node_direct(idx)] *)
Definition shift_index (idx a : Z) : Z := if a >=? idx then a - 1 else a.

Definition shift_edge (idx : Z) (e : edge_t) : edge_t :=
  (shift_index idx (fst e), shift_index idx (snd e)).

Definition shift_face (idx : Z) (f : face_t) : face_t :=
  let '(a, b, c) := f in (shift_index idx a, shift_index idx b, shift_index idx c).

Definition _remove_node_direct (s : Shape) (idx : Z) : option Shape :=
  let es := map (shift_edge idx) (edges s) in
  let fs := map (shift_face idx) (faces s) in
  match Py.delitem (nodes s) idx with
  | Some ns => Some (mkShape (pos s) ns es fs)
  | None => None
  end.

(** [i in edge], [i in face] *)
Definition in_edge (i : Z) (e : edge_t) : bool := (i =? fst e) || (i =? snd e).

Definition in_face (i : Z) (f : face_t) : bool :=
  let '(a, b, c) := f in (i =? a) || (i =? b) || (i =? c).

(** The collecting loops of [remove_node]: positions of the incident edges
    with the neighbour across each, and positions of the incident faces. *)
Fixpoint collect_edges (i : Z) (es : list edge_t) (j : Z) : list Z * list Z :=
  match es with
  | [] => ([], [])
  | e :: es' =>
      let '(js, nbrs) := collect_edges i es' (j + 1) in
      if in_edge i e
      then (j :: js, (if i =? fst e then snd e else fst e) :: nbrs)
      else (js, nbrs)
  end.

Fixpoint collect_faces (i : Z) (fs : list face_t) (j : Z) : list Z :=
  match fs with
  | [] => []
  | f :: fs' =>
      if in_face i f then j :: collect_faces i fs' (j + 1)
      else collect_faces i fs' (j + 1)
  end.

(** [[l[j] for j in js]] *)
Fixpoint select {A : Type} (l : list A) (js : list Z) : option (list A) :=
  match js with
  | [] => Some []
  | j :: js' =>
      match Py.getitem l j, select l js' with
      | Some x, Some xs => Some (x :: xs)
      | _, _ => None
      end
  end.

(** [l.remove(x)]: ValueError when [x] does not occur. *)
Definition list_remove {A : Type} (eqb : A -> A -> bool) (x : A) (l : list A) : option (list A) :=
  if Py.mem eqb x l then Some (Py.remove_first eqb x l) else None.

(** [for x in xs: l.remove(x)] *)
Fixpoint remove_all {A : Type} (eqb : A -> A -> bool) (xs l : list A) : option (list A) :=
  match xs with
  | [] => Some l
  | x :: xs' =>
      match list_remove eqb x l with
      | Some l' => remove_all eqb xs' l'
      | None => None
      end
  end.

(** [remove_node(node)] *)
Definition remove_node (s : Shape) (node : point) : option Shape :=
  let node := to_local s node in
  let i := index_from node (nodes s) 0 in
  if i =? -1 then Some s
  else if point_eqb node (0, 0) then Some s
  else
    let '(edge_ids, nbrs) := collect_edges i (edges s) 0 in
    let face_ids := collect_faces i (faces s) 0 in
    if (1 <? length nbrs)%nat &&
       negb (truthy (_nodes_connected s (hd 0 nbrs) (tl nbrs) [i] edge_ids))
    then Some s
    else
      match select (edges s) edge_ids, select (faces s) face_ids with
      | Some evals, Some fvals =>
          match remove_all edge_eqb evals (edges s), remove_all face_eqb fvals (faces s) with
          | Some es, Some fs => _remove_node_direct (mkShape (pos s) (nodes s) es fs) i
          | _, _ => None
          end
      | _, _ => None
      end.

(** The search for the edge's position in [remove_edge], with its [break]. *)
Fixpoint edge_index_from (j1 j2 : Z) (es : list edge_t) (i : Z) : Z :=
  match es with
  | [] => -1
  | e :: es' =>
      if edge_eqb e (j1, j2) || edge_eqb e (j2, j1) then i
      else edge_index_from j1 j2 es' (i + 1)
  end.

(** [remove_edge(edge)] *)
Definition remove_edge (s : Shape) (edge : point * point) : option Shape :=
  let p1 := to_local s (fst edge) in
  let p2 := to_local s (snd edge) in
  let j1 := find_node s p1 in
  let j2 := find_node s p2 in
  if (j1 =? -1) || (j2 =? -1) then Some s
  else
    let edge_idx := edge_index_from j1 j2 (edges s) 0 in
    if edge_idx =? -1 then Some s
    else if truthy (_nodes_connected s j1 [j2] [] [edge_idx]) then
      let incident_faces := filter (fun f => in_face j1 f && in_face j2 f) (faces s) in
      match remove_all face_eqb incident_faces (faces s), Py.delitem (edges s) edge_idx with
      | Some fs, Some es => Some (mkShape (pos s) (nodes s) es fs)
      | _, _ => None
      end
    else Some s.

(** The closing loop of [remove_face]: the first face with the same node set
    is handed to [faces.remove]. *)
Fixpoint first_same_face (face : face_t) (fs : list face_t) : option face_t :=
  match fs with
  | [] => None
  | f :: fs' => if same_face f face then Some f else first_same_face face fs'
  end.

(** [remove_face(face)] *)
Definition remove_face (s : Shape) (face : point * point * point) : option Shape :=
  let '(q1, q2, q3) := face in
  let p1 := to_local s q1 in
  let p2 := to_local s q2 in
  let p3 := to_local s q3 in
  let j1 := find_node s p1 in
  let j2 := find_node s p2 in
  let j3 := find_node s p3 in
  let n_cont := length (filter (fun j => negb (j =? -1)) [j1; j2; j3]) in
  if (n_cont <? 3)%nat || negb (contains_face s (j1, j2, j3)) then Some s
  else
    match first_same_face (j1, j2, j3) (faces s) with
    | Some f =>
        match list_remove face_eqb f (faces s) with
        | Some fs => Some (mkShape (pos s) (nodes s) (edges s) fs)
        | None => None
        end
    | None => Some s
    end.

(** *** Merging *)

(** A Python [dict] with integer keys and values, as the list of its items. *)
Definition dict : Type := list (Z * Z).

Fixpoint dict_get (d : dict) (k : Z) : option Z :=
  match d with
  | [] => None
  | (k', v) :: d' => if k' =? k then Some v else dict_get d' k
  end.

Definition dict_has (d : dict) (k : Z) : bool :=
  match dict_get d k with Some _ => true | None => false end.

Record merge_maps : Type := mkMaps {
  shared_dict : dict;
  new_dict : dict;
  new_nodes : list point;
  next_idx : Z
}.

(** Body of the node loop of [merge_with] for [other]'s node [node] at
    position [i]; [ours] is [self.nodes], which the loop does not touch. *)
Definition merge_node (ours : list point) (m : merge_maps) (inode : Z * point) : merge_maps :=
  let '(i, node) := inode in
  let j := index_from node ours 0 in
  if negb (j =? -1) then
    mkMaps (shared_dict m ++ [(i, j)]) (new_dict m) (new_nodes m) (next_idx m)
  else
    mkMaps (shared_dict m) (new_dict m ++ [(i, next_idx m)])
           (new_nodes m ++ [node]) (next_idx m + 1).

(** [shared_dict[a] if a in shared_dict else new_dict[a]]: KeyError when [a]
    is in neither. *)
Definition translate (m : merge_maps) (a : Z) : option Z :=
  if dict_has (shared_dict m) a then dict_get (shared_dict m) a
  else dict_get (new_dict m) a.

(** Body of [for edge in edges]. *)
Definition merge_edge (ours : list edge_t) (m : merge_maps)
    (acc : option (list edge_t)) (e : edge_t) : option (list edge_t) :=
  match acc with
  | None => None
  | Some new_edges =>
      let a_shared := dict_has (shared_dict m) (fst e) in
      let b_shared := dict_has (shared_dict m) (snd e) in
      match translate m (fst e), translate m (snd e) with
      | Some an, Some bn =>
          let have_edge := a_shared && b_shared && contains_edge_in ours (an, bn) in
          if have_edge then Some new_edges else Some (new_edges ++ [(an, bn)])
      | _, _ => None
      end
  end.

(** Body of [for face in faces]. *)
Definition merge_face (ours : list face_t) (m : merge_maps)
    (acc : option (list face_t)) (f : face_t) : option (list face_t) :=
  match acc with
  | None => None
  | Some new_faces =>
      let '(a, b, c) := f in
      let sa := dict_has (shared_dict m) a in
      let sb := dict_has (shared_dict m) b in
      let sc := dict_has (shared_dict m) c in
      match translate m a, translate m b, translate m c with
      | Some an, Some bn, Some cn =>
          let have_face := sa && sb && sc && contains_face_in ours (an, bn, cn) in
          if have_face then Some new_faces else Some (new_faces ++ [(an, bn, cn)])
      | _, _, _ => None
      end
  end.

(** [merge_with(other)] *)
Definition merge_with (s other : Shape) : option Shape :=
  let d := (fst (pos other) - fst (pos s), snd (pos other) - snd (pos s)) in
  let theirs := map (fun n : point => (fst n + fst d, snd n + snd d)) (nodes other) in
  let m := fold_left (merge_node (nodes s)) (enumerate theirs)
                     (mkMaps [] [] [] (Z.of_nat (length (nodes s)))) in
  match fold_left (merge_edge (edges s) m) (edges other) (Some []),
        fold_left (merge_face (faces s) m) (faces other) (Some []) with
  | Some new_edges, Some new_faces =>
      Some (mkShape (pos s) (nodes s ++ new_nodes m) (edges s ++ new_edges)
                    (faces s ++ new_faces))
  | _, _ => None
  end.

(** *** Editing sessions *)

Inductive mesh_op : Type :=
| AddEdge (e : point * point)
| AddFace (f : point * point * point)
| RemoveNode (n : point)
| RemoveEdge (e : point * point)
| RemoveFace (f : point * point * point)
| MergeWith (other : Shape).

Definition apply_op (s : Shape) (op : mesh_op) : option Shape :=
  match op with
  | AddEdge e => Some (add_edge s e)
  | AddFace f => Some (add_face s f)
  | RemoveNode n => remove_node s n
  | RemoveEdge e => remove_edge s e
  | RemoveFace f => remove_face s f
  | MergeWith other => merge_with s other
  end.

Fixpoint apply_ops (s : Shape) (ops : list mesh_op) : option Shape :=
  match ops with
  | [] => Some s
  | op :: ops' =>
      match apply_op s op with
      | Some s' => apply_ops s' ops'
      | None => None
      end
  end.

(** *** The data-model invariant *)

Definition valid_index (s : Shape) (a : Z) : Prop :=
  0 <= a < Z.of_nat (length (nodes s)).

(** No two entries of the list are related by [same]. *)
Fixpoint pairwise_distinct {A : Type} (same : A -> A -> bool) (l : list A) : Prop :=
  match l with
  | [] => True
  | x :: l' => (forall y, In y l' -> same x y = false) /\ pairwise_distinct same l'
  end.

Record mesh_inv (s : Shape) : Prop := mkMeshInv {
  inv_nodes_unique : NoDup (nodes s);
  inv_origin : nth_error (nodes s) 0 = Some (0, 0);
  inv_edges_valid : forall e, In e (edges s) -> valid_index s (fst e) /\ valid_index s (snd e);
  inv_edges_unique : pairwise_distinct same_edge (edges s);
  inv_faces_unique : pairwise_distinct same_face (faces s);
  inv_faces_edges : forall a b c, In (a, b, c) (faces s) ->
      contains_edge s (a, b) = true /\ contains_edge s (a, c) = true /\
      contains_edge s (b, c) = true
}.

(** The three coordinates of a picked face are different grid points. *)
Definition distinct_corners (f : point * point * point) : Prop :=
  let '(p1, p2, p3) := f in p1 <> p2 /\ p1 <> p3 /\ p2 <> p3.

Definition op_ok (op : mesh_op) : Prop :=
  match op with
  | AddFace f => distinct_corners f
  | MergeWith other => mesh_inv other
  | _ => True
  end.

(** ** Star-convex shapes: class [StarConvex]

    A [StarConvex] is a [Shape] with a list of constituents; the growth
    operations only touch the mesh. *)

(** [_get_node_idx(node)] *)
Definition _get_node_idx (s : Shape) (node : point) : Z :=
  index_from node (nodes s) 0.

(** The sector test at the head of [add_node_convex]. *)
Definition sector_of (x y : Z) : Z :=
  if (x >? 0) && (y >=? 0) then 0
  else if (x <=? 0) && (y >? 0) && (x + y >? 0) then 1
  else if (x <=? 0) && (y >? 0) && (x + y <=? 0) then 2
  else if (y <=? 0) && (x <? 0) then 3
  else if (x >=? 0) && (y <? 0) && (x + y <? 0) then 4
  else 5.

(** [range(n)] *)
Definition range (n : Z) : list Z := map Z.of_nat (seq 0 (Z.to_nat n)).

Definition vadd (p q : point) : point := (fst p + fst q, snd p + snd q).
Definition vsub (p q : point) : point := (fst p - fst q, snd p - snd q).
Definition scale (k : Z) (v : point) : point := (k * fst v, k * snd v).

(** Body of the inner loop of [add_node_convex] at the grid point [node],
    reached with the counters [ix] and [iy]. *)
Definition convex_cell (dir1_vec dir2_vec : point) (dist2 ix iy : Z)
    (s : Shape) (node : point) : Shape :=
  let idx := _get_node_idx s node in
  let s := if idx =? -1
           then mkShape (pos s) (nodes s ++ [node]) (edges s) (faces s) else s in
  (* edge to the previous node *)
  let nbr_down := vsub node dir2_vec in
  let nbr_down_idx := if iy >? 0 then _get_node_idx s nbr_down else -1 in
  let s := if (iy >? 0) && negb (nbr_down_idx =? -1)
           then add_edge s (nbr_down, node) else s in
  (* edge to the left node *)
  let nbr_left := vsub node dir1_vec in
  let nbr_left_idx := if ix >? 0 then _get_node_idx s nbr_left else -1 in
  let s := if (ix >? 0) && negb (nbr_left_idx =? -1)
           then add_edge s (nbr_left, node) else s in
  (* edge to the left upper neighbour *)
  let nbr_up := vadd nbr_left dir2_vec in
  let nbr_up_idx := if (ix >? 0) && (iy <? dist2 - 1)
                    then _get_node_idx s nbr_up else -1 in
  let s := if (ix >? 0) && (iy <? dist2 - 1) && negb (nbr_up_idx =? -1)
           then add_edge s (nbr_up, node) else s in
  (* faces *)
  let s := if negb (nbr_down_idx =? -1) && negb (nbr_left_idx =? -1)
           then add_face s (nbr_left, nbr_down, node) else s in
  let s := if negb (nbr_left_idx =? -1) && negb (nbr_up_idx =? -1)
           then add_face s (nbr_left, node, nbr_up) else s in
  s.

(** [for iy in range(dist2)], with the running point [(x, y)]. *)
Fixpoint convex_column (dir1_vec dir2_vec : point) (dist2 ix : Z) (iys : list Z)
    (s : Shape) (xy : point) : Shape :=
  match iys with
  | [] => s
  | iy :: iys' =>
      convex_column dir1_vec dir2_vec dist2 ix iys'
        (convex_cell dir1_vec dir2_vec dist2 ix iy s xy) (vadd xy dir2_vec)
  end.

(** [for ix in range(dist1)] *)
Definition convex_fill (dir1_vec dir2_vec : point) (dist1 dist2 : Z) (s : Shape) : Shape :=
  fold_left (fun s ix =>
               convex_column dir1_vec dir2_vec dist2 ix (range dist2) s
                 (ix * fst dir1_vec, ix * snd dir1_vec))
            (range dist1) s.

(** [add_node_convex(node)] *)
Definition add_node_convex (s : Shape) (node : point) : option Shape :=
  let x := fst node - fst (pos s) in
  let y := snd node - snd (pos s) in
  if Py.mem point_eqb (x, y) (nodes s) then Some s
  else
    let sector := sector_of x y in
    match rotate_grid_point x y ((6 - sector) mod 6),
          Py.getitem DIR_VECS sector,
          Py.getitem DIR_VECS ((sector + 1) mod 6) with
    | Some (xr, yr), Some dir1_vec, Some dir2_vec =>
        Some (convex_fill dir1_vec dir2_vec (xr + 1) (yr + 1) s)
    | _, _, _ => None
    end.

(** [add_edge_convex(edge)] *)
Definition add_edge_convex (s : Shape) (edge : point * point) : option Shape :=
  match add_node_convex s (fst edge) with
  | None => None
  | Some s1 =>
      match add_node_convex s1 (snd edge) with
      | None => None
      | Some s2 =>
          let n1 := _get_node_idx s2 (fst edge) in
          let n2 := _get_node_idx s2 (snd edge) in
          if contains_edge s2 (n1, n2) then Some s2
          else
            let vec := vsub (snd edge) (fst edge) in
            match rotate_grid_point (fst vec) (snd vec) 1,
                  rotate_grid_point (fst vec) (snd vec) 5 with
            | Some lvec, Some rvec =>
                let left_pt := vadd (fst edge) lvec in
                let right_pt := vadd (fst edge) rvec in
                let idx := _get_node_idx s2 left_pt in
                let idx := if idx =? -1 then _get_node_idx s2 right_pt else idx in
                Some (mkShape (pos s2) (nodes s2) (edges s2 ++ [(n1, n2)])
                              (faces s2 ++ [(n1, n2, idx)]))
            | _, _ => None
            end
      end
  end.

(** [add_face_convex(face)] *)
Definition add_face_convex (s : Shape) (face : point * point * point) : option Shape :=
  let '(p0, p1, p2) := face in
  match add_edge_convex s (p0, p1) with
  | None => None
  | Some s1 =>
      match add_edge_convex s1 (p0, p2) with
      | None => None
      | Some s2 => add_edge_convex s2 (p1, p2)
      end
  end.

(** ** Python objects in a store

    [gen_shifted_shape] works on copies of the receiver's lists and updates
    them in place, so it is modelled over a store of mutable objects: a
    reference is a position in the store, a fresh object goes to the end.  A
    computation returns the store it leaves and its value, or [None] when it
    raises. *)

Definition ref : Type := nat.

Inductive obj : Type :=
| OPoints (l : list point)                     (* a list of grid points *)
| OEdges (l : list edge_t)                     (* a list of index pairs *)
| OFaces (l : list face_t)                     (* a list of index triples *)
| OInts (l : list Z)                           (* a list of integers: arms, node indices *)
| OAttach (l : list (Z * Z * ref))             (* a list of child attachments *)
| ORefs (l : list ref)                         (* a list or set of objects *)
| OShape (p : point) (nodes_r edges_r faces_r : ref)
| OSnowflake (p : point) (nodes_r edges_r faces_r arms_r children_r parents_r : ref).

Definition heap : Type := list obj.

Definition M (A : Type) : Type := heap -> heap * option A.

Definition ret {A : Type} (a : A) : M A := fun h => (h, Some a).

Definition raise {A : Type} : M A := fun h => (h, None).

Definition bind {A B : Type} (c : M A) (k : A -> M B) : M B :=
  fun h => match c h with
           | (h', Some a) => k a h'
           | (h', None) => (h', None)
           end.

Declare Scope heap_scope.
Delimit Scope heap_scope with heap.
Notation "x <- c ;; k" := (bind c (fun x => k))
  (at level 61, c at next level, right associativity) : heap_scope.
Notation "c ;;; k" := (bind c (fun _ => k))
  (at level 61, right associativity) : heap_scope.
Open Scope heap_scope.

(** A value that Python computes without touching the store, or an
    exception. *)
Definition lift {A : Type} (o : option A) : M A :=
  match o with Some a => ret a | None => raise end.

Definition alloc (o : obj) : M ref := fun h => (h ++ [o], Some (length h)).

Definition read (r : ref) : M obj :=
  fun h => match nth_error h r with
           | Some o => (h, Some o)
           | None => (h, None)
           end.

Fixpoint set_nth {A : Type} (k : nat) (x : A) (l : list A) {struct l} : list A :=
  match l, k with
  | [], _ => []
  | _ :: t, O => x :: t
  | h :: t, S k' => h :: set_nth k' x t
  end.

Definition write (r : ref) (o : obj) : M unit :=
  fun h => if (r <? length h)%nat then (set_nth r o h, Some tt) else (h, None).

(** Typed access to list objects. *)
Definition read_points (r : ref) : M (list point) :=
  o <- read r ;; match o with OPoints l => ret l | _ => raise end.

Definition read_edges (r : ref) : M (list edge_t) :=
  o <- read r ;; match o with OEdges l => ret l | _ => raise end.

Definition read_faces (r : ref) : M (list face_t) :=
  o <- read r ;; match o with OFaces l => ret l | _ => raise end.

Definition read_ints (r : ref) : M (list Z) :=
  o <- read r ;; match o with OInts l => ret l | _ => raise end.

(** [l.copy()] *)
Definition copy_points (r : ref) : M ref := l <- read_points r ;; alloc (OPoints l).
Definition copy_edges (r : ref) : M ref := l <- read_edges r ;; alloc (OEdges l).
Definition copy_faces (r : ref) : M ref := l <- read_faces r ;; alloc (OFaces l).

(** [l.append(x)] *)
Definition append_point (r : ref) (p : point) : M unit :=
  l <- read_points r ;; write r (OPoints (l ++ [p])).

Definition append_edge (r : ref) (e : edge_t) : M unit :=
  l <- read_edges r ;; write r (OEdges (l ++ [e])).

Definition append_face (r : ref) (f : face_t) : M unit :=
  l <- read_faces r ;; write r (OFaces (l ++ [f])).

Definition append_int (r : ref) (i : Z) : M unit :=
  l <- read_ints r ;; write r (OInts (l ++ [i])).

(** [l[i] = p] for a subscript in [range(len(l))]. *)
Definition setitem_point (r : ref) (i : Z) (p : point) : M unit :=
  l <- read_points r ;;
  if (0 <=? i) && (i <? Z.of_nat (length l))
  then write r (OPoints (set_nth (Z.to_nat i) p l))
  else raise.

(** [for x in xs: body], threading a local variable. *)
Fixpoint for_each {A S : Type} (xs : list A) (body : S -> A -> M S) (acc : S) : M S :=
  match xs with
  | [] => ret acc
  | x :: xs' => acc' <- body acc x ;; for_each xs' body acc'
  end.

(** ** [Snowflake.gen_shifted_shape] *)

(** [DIR_VECS.index(v)]: ValueError when [v] is no direction vector. *)
Definition dir_index (v : point) : option Z :=
  let i := index_from v DIR_VECS 0 in
  if i =? -1 then None else Some i.

(** The attributes [self.nodes], [self.edges] and [self.faces]. *)
Definition attr_nodes (self : ref) : M ref :=
  o <- read self ;;
  match o with
  | OShape _ nr _ _ => ret nr
  | OSnowflake _ nr _ _ _ _ _ => ret nr
  | _ => raise
  end.

Definition attr_edges (self : ref) : M ref :=
  o <- read self ;;
  match o with
  | OShape _ _ er _ => ret er
  | OSnowflake _ _ er _ _ _ _ => ret er
  | _ => raise
  end.

Definition attr_faces (self : ref) : M ref :=
  o <- read self ;;
  match o with
  | OShape _ _ _ fr => ret fr
  | OSnowflake _ _ _ fr _ _ _ => ret fr
  | _ => raise
  end.

(** Body of the rotation loop: node [i] is replaced by its rotated image. *)
Definition rotate_node (nodes : ref) (rot : Z) (_ : unit) (i : Z) : M unit :=
  l <- read_points nodes ;;
  p <- lift (Py.getitem l i) ;;
  q <- lift (rotate_grid_point (fst p) (snd p) rot) ;;
  setitem_point nodes i q.

(** Body of the first loop: node [i] is shifted by [vec]; [n] is the index
    the next new node will get. *)
Definition shift_node (self nodes shift_nodes shifted_nodes shifted_edges : ref)
    (vec : point) (n : Z) (i : Z) : M Z :=
  l <- read_points nodes ;;
  node <- lift (Py.getitem l i) ;;
  let shifted := vadd node vec in
  let j := index_from shifted l 0 in
  if j =? -1 then
    append_int shift_nodes i ;;;
    append_point shifted_nodes shifted ;;;
    append_edge shifted_edges (i, n) ;;;
    ret (n + 1)
  else
    er <- attr_edges self ;;
    es <- read_edges er ;;
    if contains_edge_in es (i, j) then ret n
    else append_edge shifted_edges (i, j) ;;; ret n.

(** Body of the second loop, for one edge of the copied edge list. *)
Definition span_edge (nodes all_nodes edges shifted_edges add_edges faces add_faces : ref)
    (vec : point) (shift_dir : Z) (_ : unit) (edge : edge_t) : M unit :=
  ns <- read_points nodes ;;
  n1 <- lift (Py.getitem ns (fst edge)) ;;
  n2 <- lift (Py.getitem ns (snd edge)) ;;
  direction <- lift (dir_index (vsub n2 n1)) ;;
  if (direction =? shift_dir) || ((direction + 3) mod 6 =? shift_dir) then ret tt
  else
    let n1s := vadd n1 vec in
    let n2s := vadd n2 vec in
    an <- read_points all_nodes ;;
    let i := scan_nodes n1s an 0 (-1) in
    let j := scan_nodes n2s an 0 (-1) in
    es <- read_edges edges ;;
    ses <- read_edges shifted_edges ;;
    aes <- read_edges add_edges ;;
    let edge_exists :=
      (i <? Z.of_nat (length an)) && (j <? Z.of_nat (length an)) &&
      existsb (fun e => edge_eqb e (i, j) || edge_eqb e (j, i)) (es ++ ses ++ aes) in
    (if edge_exists then ret tt else append_edge add_edges (i, j)) ;;;
    let e1 := vsub n2s n1 in
    let '(diag, f1, f2) :=
      if Py.mem point_eqb e1 DIR_VECS
      then ((fst edge, j), (fst edge, j, snd edge), (fst edge, j, i))
      else ((snd edge, i), (snd edge, i, fst edge), (snd edge, i, j)) in
    aes' <- read_edges add_edges ;;
    let have_edge :=
      existsb (fun e => edge_eqb e diag || edge_eqb (snd e, fst e) diag) (es ++ aes') in
    (if have_edge then ret tt else append_edge add_edges diag) ;;;
    fs <- read_faces faces ;;
    afs <- read_faces add_faces ;;
    let have_f1 := have_edge && existsb (fun f => same_face f f1) (fs ++ afs) in
    let have_f2 := have_edge && existsb (fun f => same_face f f2) (fs ++ afs) in
    (if have_f1 then ret tt else append_face add_faces f1) ;;;
    (if have_f2 then ret tt else append_face add_faces f2).

(** [gen_shifted_shape(pos, rot, shift_dir)]; the result is the new [Shape]
    object. *)
Definition gen_shifted_shape_h (self : ref) (pos : point) (rot shift_dir : Z) : M ref :=
  nr <- attr_nodes self ;;
  nodes <- copy_points nr ;;
  er <- attr_edges self ;;
  edges <- copy_edges er ;;
  fr <- attr_faces self ;;
  faces <- copy_faces fr ;;
  (if rot >? 0
   then l <- read_points nodes ;;
        for_each (range (Z.of_nat (length l))) (rotate_node nodes rot) tt
   else ret tt) ;;;
  vec <- lift (Py.getitem DIR_VECS shift_dir) ;;
  shift_nodes <- alloc (OInts []) ;;
  shifted_nodes <- alloc (OPoints []) ;;
  shifted_edges <- alloc (OEdges []) ;;
  l <- read_points nodes ;;
  for_each (range (Z.of_nat (length l)))
           (shift_node self nodes shift_nodes shifted_nodes shifted_edges vec)
           (Z.of_nat (length l)) ;;;
  ns <- read_points nodes ;;
  sns <- read_points shifted_nodes ;;
  all_nodes <- alloc (OPoints (ns ++ sns)) ;;
  add_edges <- alloc (OEdges []) ;;
  add_faces <- alloc (OFaces []) ;;
  es <- read_edges edges ;;
  for_each es (span_edge nodes all_nodes edges shifted_edges add_edges faces add_faces
                         vec shift_dir) tt ;;;
  es <- read_edges edges ;;
  ses <- read_edges shifted_edges ;;
  aes <- read_edges add_edges ;;
  new_edges <- alloc (OEdges (es ++ ses ++ aes)) ;;
  fs <- read_faces faces ;;
  afs <- read_faces add_faces ;;
  new_faces <- alloc (OFaces (fs ++ afs)) ;;
  alloc (OShape pos all_nodes new_edges new_faces).

(** The mesh a [Shape] object stands for. *)
Definition load_shape (r : ref) : M Shape :=
  o <- read r ;;
  match o with
  | OShape p nr er fr =>
      ns <- read_points nr ;; es <- read_edges er ;; fs <- read_faces fr ;;
      ret (mkShape p ns es fs)
  | OSnowflake p nr er fr _ _ _ =>
      ns <- read_points nr ;; es <- read_edges er ;; fs <- read_faces fr ;;
      ret (mkShape p ns es fs)
  | _ => raise
  end.

(** A store that holds one snowflake with the mesh [s] and nothing else; the
    snowflake is the object at position 6. *)
Definition store_of (s : Shape) : heap :=
  [OPoints (nodes s); OEdges (edges s); OFaces (faces s);
   OInts [0; 0; 0; 0; 0; 0]; ORefs []; ORefs [];
   OSnowflake (pos s) 0%nat 1%nat 2%nat 3%nat 4%nat 5%nat].

(** [gen_shifted_shape] as a function from the receiver's mesh to the mesh of
    the shape it returns. *)
Definition gen_shifted_shape (s : Shape) (pos : point) (rot shift_dir : Z) : option Shape :=
  snd ((r <- gen_shifted_shape_h 6%nat pos rot shift_dir ;; load_shape r) (store_of s)).

(** ** Snowflakes: class [Snowflake]

    Snowflakes refer to each other (children, parents, child candidate), so
    they live in an arena addressed by object identity.  A method that can
    raise, or whose loop the model has to bound, ends in an [outcome]. *)

Inductive outcome (A : Type) : Type :=
| Returned (a : A)      (* the call returns [a] *)
| Raised                (* the call raises *)
| Diverged.             (* the bound on a loop of the model is used up *)

Arguments Returned {A} a.
Arguments Raised {A}.
Arguments Diverged {A}.

Definition obind {A B : Type} (o : outcome A) (k : A -> outcome B) : outcome B :=
  match o with
  | Returned a => k a
  | Raised => Raised
  | Diverged => Diverged
  end.

Definition of_option {A : Type} (o : option A) : outcome A :=
  match o with Some a => Returned a | None => Raised end.

(** A Python list that always has six entries, one per direction. *)
Record six (A : Type) : Type := mkSix {
  dir0 : A; dir1 : A; dir2 : A; dir3 : A; dir4 : A; dir5 : A
}.

Arguments mkSix {A}.
Arguments dir0 {A}.
Arguments dir1 {A}.
Arguments dir2 {A}.
Arguments dir3 {A}.
Arguments dir4 {A}.
Arguments dir5 {A}.

Definition six_list {A : Type} (s : six A) : list A :=
  [dir0 s; dir1 s; dir2 s; dir3 s; dir4 s; dir5 s].

(** [s[d]] *)
Definition six_get {A : Type} (s : six A) (d : Z) : option A :=
  Py.getitem (six_list s) d.

(** [s[d] = x] *)
Definition six_set {A : Type} (s : six A) (d : Z) (x : A) : option (six A) :=
  let d' := if d <? 0 then d + 6 else d in
  if d' =? 0 then Some (mkSix x (dir1 s) (dir2 s) (dir3 s) (dir4 s) (dir5 s))
  else if d' =? 1 then Some (mkSix (dir0 s) x (dir2 s) (dir3 s) (dir4 s) (dir5 s))
  else if d' =? 2 then Some (mkSix (dir0 s) (dir1 s) x (dir3 s) (dir4 s) (dir5 s))
  else if d' =? 3 then Some (mkSix (dir0 s) (dir1 s) (dir2 s) x (dir4 s) (dir5 s))
  else if d' =? 4 then Some (mkSix (dir0 s) (dir1 s) (dir2 s) (dir3 s) x (dir5 s))
  else if d' =? 5 then Some (mkSix (dir0 s) (dir1 s) (dir2 s) (dir3 s) (dir4 s) x)
  else None.

Definition sfid : Type := nat.

(** A child attachment [(distance, rotation, child)]. *)
Definition attachment : Type := Z * Z * sfid.

Record Snowflake : Type := mkSnowflake {
  sf_shape : Shape;
  selected : bool;
  selected_edge : option Z;
  selected_edge_start : Z;
  selected_edge_dir : Z;
  child_candidate : option sfid;
  child_rot : Z;
  preview_shape : option Shape;
  arms : six Z;
  children : six (list attachment);
  parents : list sfid
}.

Definition arena : Type := sfid -> Snowflake.

Definition upd (a : arena) (x : sfid) (sf : Snowflake) : arena :=
  fun y => if Nat.eqb y x then sf else a y.

Definition with_shape (sf : Snowflake) (s : Shape) : Snowflake :=
  mkSnowflake s (selected sf) (selected_edge sf) (selected_edge_start sf)
    (selected_edge_dir sf) (child_candidate sf) (child_rot sf) (preview_shape sf)
    (arms sf) (children sf) (parents sf).

Definition with_arms (sf : Snowflake) (ar : six Z) : Snowflake :=
  mkSnowflake (sf_shape sf) (selected sf) (selected_edge sf) (selected_edge_start sf)
    (selected_edge_dir sf) (child_candidate sf) (child_rot sf) (preview_shape sf)
    ar (children sf) (parents sf).

Definition with_children (sf : Snowflake) (ch : six (list attachment)) : Snowflake :=
  mkSnowflake (sf_shape sf) (selected sf) (selected_edge sf) (selected_edge_start sf)
    (selected_edge_dir sf) (child_candidate sf) (child_rot sf) (preview_shape sf)
    (arms sf) ch (parents sf).

Definition with_parents (sf : Snowflake) (ps : list sfid) : Snowflake :=
  mkSnowflake (sf_shape sf) (selected sf) (selected_edge sf) (selected_edge_start sf)
    (selected_edge_dir sf) (child_candidate sf) (child_rot sf) (preview_shape sf)
    (arms sf) (children sf) ps.

Definition with_candidate (sf : Snowflake) (c : option sfid) (rot : Z)
    (preview : option Shape) : Snowflake :=
  mkSnowflake (sf_shape sf) (selected sf) (selected_edge sf) (selected_edge_start sf)
    (selected_edge_dir sf) c rot preview (arms sf) (children sf) (parents sf).

Definition with_edge_selection (sf : Snowflake) (e : option Z) (start dir : Z) : Snowflake :=
  mkSnowflake (sf_shape sf) (selected sf) e start dir (child_candidate sf) (child_rot sf)
    (preview_shape sf) (arms sf) (children sf) (parents sf).

(** *** Sets of snowflakes *)

Definition sf_mem (x : sfid) (l : list sfid) : bool :=
  if in_dec Nat.eq_dec x l then true else false.

Definition sf_add (x : sfid) (l : list sfid) : list sfid :=
  if sf_mem x l then l else l ++ [x].

Definition sf_union (l l' : list sfid) : list sfid :=
  fold_left (fun acc x => sf_add x acc) l' l.

Definition sf_remove (x : sfid) (l : list sfid) : list sfid :=
  filter (fun y => negb (Nat.eqb y x)) l.

(** [get_children()] *)
Definition get_children (sf : Snowflake) : list sfid :=
  fold_left (fun acc (atts : list attachment) =>
               fold_left (fun acc (c : attachment) => sf_add (snd c) acc) atts acc)
            (six_list (children sf)) [].

(** [get_parents()] *)
Definition get_parents (sf : Snowflake) : list sfid := parents sf.

(** [get_children_recursive()]; [depth] is the number of nested calls that
    the interpreter's recursion limit leaves room for. *)
Fixpoint get_children_recursive (depth : nat) (a : arena) (x : sfid) : option (list sfid) :=
  match depth with
  | O => None
  | S depth' =>
      fold_left (fun acc c =>
                   match acc, get_children_recursive depth' a c with
                   | Some s, Some d => Some (sf_union s d)
                   | _, _ => None
                   end)
                (get_children (a x)) (Some (get_children (a x)))
  end.

(** [get_parents_recursive()] *)
Fixpoint get_parents_recursive (depth : nat) (a : arena) (x : sfid) : option (list sfid) :=
  match depth with
  | O => None
  | S depth' =>
      fold_left (fun acc p =>
                   match acc, get_parents_recursive depth' a p with
                   | Some s, Some d => Some (sf_union s d)
                   | _, _ => None
                   end)
                (get_parents (a x)) (Some (get_parents (a x)))
  end.

(** *** The dependency tree *)

Record dt_child : Type := mkDtChild {
  childIdx : Z;
  direction : Z;
  distance : Z;
  rotation : Z
}.

Record dt_entry : Type := mkDtEntry {
  dt_arms : six Z;
  dt_children : list dt_child
}.

Section Iteration.

(** The order in which a [for] loop walks a set is not fixed by the
    language: it is a parameter, and can be any enumeration of the set. *)
Variable iter_order : list sfid -> list sfid.

(** The [for child in all_children] loop of one round: the first snowflake
    in iteration order all of whose transitive children are in [top_order];
    [None] when there is none. *)
Fixpoint find_ready (depth : nat) (a : arena) (top_order cands : list sfid)
    : outcome (option sfid) :=
  match cands with
  | [] => Returned None
  | c :: cands' =>
      match get_children_recursive depth a c with
      | None => Raised
      | Some d =>
          if forallb (fun x => sf_mem x top_order) d then Returned (Some c)
          else find_ready depth a top_order cands'
      end
  end.

(** [while len(all_children) > 0]; the result is Python's [None] when a
    round finds no snowflake to append.  Every round takes one snowflake out
    of [all_children], so [rounds] need not exceed its size. *)
Fixpoint top_sort (rounds depth : nat) (a : arena) (all_children top_order : list sfid)
    : outcome (option (list sfid)) :=
  match all_children with
  | [] => Returned (Some top_order)
  | _ :: _ =>
      match rounds with
      | O => Diverged
      | S rounds' =>
          match find_ready depth a top_order (iter_order all_children) with
          | Returned (Some child) =>
              top_sort rounds' depth a (sf_remove child all_children) (top_order ++ [child])
          | Returned None => Returned None
          | Raised => Raised
          | Diverged => Diverged
          end
      end
  end.

(** [top_order.index(c)] *)
Fixpoint sf_index (c : sfid) (l : list sfid) (i : Z) : option Z :=
  match l with
  | [] => None
  | x :: l' => if Nat.eqb x c then Some i else sf_index c l' (i + 1)
  end.

(** The references to the children attached in direction [i]. *)
Fixpoint child_refs (top_order : list sfid) (i : Z) (atts : list attachment)
    : option (list dt_child) :=
  match atts with
  | [] => Some []
  | (dist, rot, c) :: atts' =>
      match sf_index c top_order 0, child_refs top_order i atts' with
      | Some k, Some rest => Some (mkDtChild k i dist rot :: rest)
      | _, _ => None
      end
  end.

Fixpoint child_refs_all (top_order : list sfid) (i : Z) (dirs : list (list attachment))
    : option (list dt_child) :=
  match dirs with
  | [] => Some []
  | atts :: dirs' =>
      match child_refs top_order i atts, child_refs_all top_order (i + 1) dirs' with
      | Some here, Some rest => Some (here ++ rest)
      | _, _ => None
      end
  end.

Definition dt_entry_of (a : arena) (top_order : list sfid) (child : sfid) : option dt_entry :=
  match child_refs_all top_order 0 (six_list (children (a child))) with
  | Some refs => Some (mkDtEntry (arms (a child)) refs)
  | None => None
  end.

Fixpoint dt_entries (a : arena) (top_order rest : list sfid) : option (list dt_entry) :=
  match rest with
  | [] => Some []
  | child :: rest' =>
      match dt_entry_of a top_order child, dt_entries a top_order rest' with
      | Some e, Some es => Some (e :: es)
      | _, _ => None
      end
  end.

(** The topological ordering that [gen_dependency_tree] builds. *)
Definition top_order_of (depth : nat) (a : arena) (self : sfid)
    : outcome (option (list sfid)) :=
  match get_children_recursive depth a self with
  | None => Raised
  | Some d =>
      let all_children := sf_add self d in
      top_sort (length all_children) depth a all_children []
  end.

(** [gen_dependency_tree()] *)
Definition gen_dependency_tree (depth : nat) (a : arena) (self : sfid)
    : outcome (option (list dt_entry)) :=
  match top_order_of depth a self with
  | Returned (Some top_order) =>
      match dt_entries a top_order top_order with
      | Some dt => Returned (Some dt)
      | None => Raised
      end
  | Returned None => Returned None
  | Raised => Raised
  | Diverged => Diverged
  end.

End Iteration.

(** *** Arms and shape re-derivation *)

(** [_test_node_arm(node, is_global)] *)
Definition _test_node_arm (sf : Snowflake) (node : point) (is_global : bool) : Z * Z :=
  let node := if is_global then to_local (sf_shape sf) node else node in
  if snd node =? 0 then
    ((if fst node >=? 0 then 0 else 3), Z.abs (fst node))
  else if fst node =? 0 then
    ((if snd node >=? 0 then 1 else 4), Z.abs (snd node))
  else if fst node + snd node =? 0 then
    ((if snd node >=? 0 then 2 else 5), Z.abs (fst node))
  else (-1, -1).

(** The [while True] loop of [_update_arms] for one direction: [rounds]
    bounds the walk, which ends at the first missing node or edge. *)
Fixpoint arm_walk (rounds : nat) (s : Shape) (vec : point) (dist prev_idx : Z) : outcome Z :=
  match rounds with
  | O => Diverged
  | S rounds' =>
      let next_node := scale (dist + 1) vec in
      let next_idx := index_from next_node (nodes s) 0 in
      if next_idx =? -1 then Returned dist
      else if negb (contains_edge s (prev_idx, next_idx)) then Returned dist
      else arm_walk rounds' s vec (dist + 1) next_idx
  end.

(** [_update_arms()]: the walk in a direction passes distinct nodes, so it
    takes at most one round per node and one more to stop. *)
Definition _update_arms (sf : Snowflake) : outcome Snowflake :=
  let s := sf_shape sf in
  let walk (d : Z) : outcome Z :=
    obind (of_option (Py.getitem DIR_VECS d))
          (fun vec => arm_walk (S (length (nodes s))) s vec 0 0) in
  obind (walk 0) (fun a0 =>
  obind (walk 1) (fun a1 =>
  obind (walk 2) (fun a2 =>
  obind (walk 3) (fun a3 =>
  obind (walk 4) (fun a4 =>
  obind (walk 5) (fun a5 =>
  Returned (with_arms sf (mkSix a0 a1 a2 a3 a4 a5)))))))).

(** The chain of one arm in [recalculate_shape]: nodes at the distances
    [dists] along [vec], each joined to its predecessor. *)
Fixpoint arm_chain (vec : point) (dists : list Z) (s : Shape) : Shape :=
  match dists with
  | [] => s
  | dist :: dists' =>
      let idx := Z.of_nat (length (nodes s)) in
      let prev_idx := if dist =? 1 then 0 else idx - 1 in
      arm_chain vec dists'
        (mkShape (pos s) (nodes s ++ [scale dist vec]) (edges s ++ [(prev_idx, idx)])
                 (faces s))
  end.

(** [range(lo, hi)] *)
Definition range_from (lo hi : Z) : list Z :=
  map (fun k => lo + Z.of_nat k) (seq 0 (Z.to_nat (hi - lo))).

Definition arms_shape (p : point) (ar : six Z) : option Shape :=
  let step (acc : option Shape) (d_len : Z * Z) : option Shape :=
    match acc, Py.getitem DIR_VECS (fst d_len) with
    | Some s, Some vec => Some (arm_chain vec (range_from 1 (snd d_len + 1)) s)
    | _, _ => None
    end in
  fold_left step (enumerate (six_list ar)) (Some (mkShape p [(0, 0)] [] [])).

(** Body of the merging loop of [recalculate_shape] for one attachment in
    direction [d]. *)
Definition merge_child (self : sfid) (d : Z) (acc : outcome arena) (att : attachment)
    : outcome arena :=
  obind acc (fun a =>
  let '(dist, rot, child) := att in
  let sf := a self in
  obind (of_option (Py.getitem DIR_VECS d)) (fun vec =>
  let p := vadd (pos (sf_shape sf)) (scale dist vec) in
  obind (of_option (gen_shifted_shape (sf_shape (a child)) p rot d)) (fun shape =>
  obind (of_option (merge_with (sf_shape sf) shape)) (fun merged =>
  obind (_update_arms (with_shape sf merged)) (fun sf' =>
  Returned (upd a self sf')))))).

(** [recalculate_shape()] *)
Definition recalculate_shape (a : arena) (self : sfid) : outcome arena :=
  let sf := a self in
  obind (of_option (arms_shape (pos (sf_shape sf)) (arms sf))) (fun s0 =>
  let a0 := upd a self (with_shape sf s0) in
  fold_left (fun acc (d_atts : Z * list attachment) =>
               fold_left (merge_child self (fst d_atts)) (snd d_atts) acc)
            (enumerate (six_list (children sf))) (Returned a0)).

Section Propagation.

Variable iter_order : list sfid -> list sfid.

(** The [for p in parents] loop of one round of
    [recalculate_parent_shapes]: it leaves [p] at the first parent without a
    transitive child among [parents], or at the last parent walked. *)
Fixpoint pick_parent (depth : nat) (a : arena) (parents_left cands : list sfid)
    (last : option sfid) : outcome (option sfid) :=
  match cands with
  | [] => Returned last
  | p :: cands' =>
      match get_children_recursive depth a p with
      | None => Raised
      | Some d =>
          if existsb (fun c => sf_mem c parents_left) d
          then pick_parent depth a parents_left cands' (Some p)
          else Returned (Some p)
      end
  end.

Fixpoint recalculate_parents_loop (rounds depth : nat) (a : arena) (ps : list sfid)
    : outcome arena :=
  match ps with
  | [] => Returned a
  | _ :: _ =>
      match rounds with
      | O => Diverged
      | S rounds' =>
          obind (pick_parent depth a ps (iter_order ps) None) (fun picked =>
          match picked with
          | None => Raised
          | Some p =>
              obind (recalculate_shape a p) (fun a' =>
              recalculate_parents_loop rounds' depth a' (sf_remove p ps))
          end)
      end
  end.

(** [recalculate_parent_shapes()] *)
Definition recalculate_parent_shapes (depth : nat) (a : arena) (self : sfid) : outcome arena :=
  obind (of_option (get_parents_recursive depth a self)) (fun ps =>
  recalculate_parents_loop (length ps) depth a ps).

(** *** Clicks *)

(** [_gen_child_preview()] *)
Definition _gen_child_preview (a : arena) (self : sfid) : outcome arena :=
  let sf := a self in
  match selected_edge sf, child_candidate sf with
  | Some e, Some cand =>
      obind (of_option (Py.getitem (edges (sf_shape sf)) e)) (fun edge =>
      obind (of_option (Py.getitem [fst edge; snd edge] (selected_edge_start sf)))
            (fun start_idx =>
      obind (of_option (Py.getitem (nodes (sf_shape sf)) start_idx)) (fun start_node =>
      obind (of_option
               (gen_shifted_shape (sf_shape (a cand))
                  (vadd (pos (sf_shape sf)) start_node) (child_rot sf)
                  (selected_edge_dir sf))) (fun shape =>
      Returned (upd a self (with_candidate sf (Some cand) (child_rot sf) (Some shape)))))))
  | _, _ => Raised
  end.

(** The chain the first case of [_node_click] appends to an arm. *)
Fixpoint extend_arm (vec : point) (ks : list Z) (s : Shape) (prev_idx : Z) : Shape :=
  match ks with
  | [] => s
  | i :: ks' =>
      let new_idx := Z.of_nat (length (nodes s)) in
      extend_arm vec ks'
        (mkShape (pos s) (nodes s ++ [scale i vec]) (edges s ++ [(prev_idx, new_idx)])
                 (faces s))
        new_idx
  end.

(** The [for sf in snowflakes] loop of [_node_click]. *)
Fixpoint click_snowflakes (depth : nat) (a : arena) (self : sfid) (node : point)
    (sfs : list sfid) : outcome (arena * bool) :=
  match sfs with
  | [] => Returned (a, false)
  | sf :: sfs' =>
      if Nat.eqb sf self then click_snowflakes depth a self node sfs'
      else if point_eqb node (pos (sf_shape (a sf))) then
        match get_children_recursive depth a sf with
        | None => Raised
        | Some d =>
            if sf_mem self d then Returned (a, false)
            else
              obind (_gen_child_preview
                       (upd a self (with_candidate (a self) (Some sf) 0
                                                   (preview_shape (a self)))) self)
                    (fun a' => Returned (a', true))
        end
      else click_snowflakes depth a self node sfs'
  end.

(** The test [direction != -1 and dist > self.arms[direction]] at the head
    of [_node_click]. *)
Definition extends_arm (sf : Snowflake) (node : point) : option bool :=
  let '(dir, dist) := _test_node_arm sf node true in
  if negb (dir =? -1)
  then match six_get (arms sf) dir with
       | Some len => Some (dist >? len)
       | None => None
       end
  else Some false.

(** [_node_click(node, snowflakes)]: the arena after the click and the
    flag the method returns. *)
Definition _node_click (depth : nat) (a : arena) (self : sfid) (node : point)
    (snowflakes : list sfid) : outcome (arena * bool) :=
  let sf := a self in
  let '(dir, dist) := _test_node_arm sf node true in
  match extends_arm sf node with
  | None => Raised
  | Some true =>
      obind (of_option (six_get (arms sf) dir)) (fun d =>
      obind (of_option (Py.getitem DIR_VECS dir)) (fun vec =>
      let start := scale d vec in
      let prev_idx := index_from start (nodes (sf_shape sf)) 0 in
      if prev_idx =? -1 then Raised
      else
        let s := extend_arm vec (range_from (d + 1) (dist + 1)) (sf_shape sf) prev_idx in
        obind (of_option (six_set (arms sf) dir dist)) (fun ar =>
        obind (recalculate_parent_shapes depth (upd a self (with_arms (with_shape sf s) ar)) self)
              (fun a' => Returned (a', true)))))
  | Some false =>
      match selected_edge sf with
      | Some _ => click_snowflakes depth a self node snowflakes
      | None => Returned (a, false)
      end
  end.

(** Equality of attachment tuples; snowflakes compare by identity. *)
Definition attachment_eqb (c d : attachment) : bool :=
  (fst (fst c) =? fst (fst d)) && (snd (fst c) =? snd (fst d)) && Nat.eqb (snd c) (snd d).

(** [deselect_edge()], which ends in [deselect_child()]. *)
Definition deselect_edge (sf : Snowflake) : Snowflake :=
  with_candidate (with_edge_selection sf None 0 0) None 0 None.

(** The registration of the child in [handle_confirm]: the attachment goes
    to the end of [children[dir]] and the receiver into the parents of the
    child, unless the attachment is there already. *)
Definition register_child (a : arena) (self : sfid) (dir : Z) (child : attachment)
    : outcome arena :=
  obind (of_option (six_get (children (a self)) dir)) (fun atts =>
  if existsb (fun c => attachment_eqb c child) atts then Returned a
  else
    obind (of_option (six_set (children (a self)) dir (atts ++ [child]))) (fun ch =>
    let a1 := upd a self (with_children (a self) ch) in
    let cand := snd child in
    Returned (upd a1 cand (with_parents (a1 cand) (sf_add self (parents (a1 cand))))))).

(** [handle_confirm()] *)
Definition handle_confirm (depth : nat) (a : arena) (self : sfid) : outcome arena :=
  let sf := a self in
  match selected sf, selected_edge sf, child_candidate sf with
  | true, Some e, Some cand =>
      obind (of_option (preview_shape sf)) (fun preview =>
      obind (of_option (merge_with (sf_shape sf) preview)) (fun merged =>
      obind (of_option (Py.getitem (edges merged) e)) (fun edge =>
      obind (of_option (Py.getitem [fst edge; snd edge] (1 - selected_edge_start sf)))
            (fun idx =>
      obind (of_option (Py.getitem (nodes merged) idx)) (fun node =>
      let '(dir, dist) := _test_node_arm sf node false in
      let a1 := upd a self (with_shape sf merged) in
      obind (register_child a1 self dir (dist - 1, child_rot sf, cand)) (fun a2 =>
      let a3 := upd a2 self (deselect_edge (a2 self)) in
      obind (_update_arms (a3 self)) (fun sf' =>
      recalculate_parent_shapes depth (upd a3 self sf') self)))))))
  | _, _, _ => Returned a
  end.

End Propagation.

(** ** Constituents of a star-convex shape and serialization *)

Record constituent : Type := mkConstituent {
  shapeType : Z;
  directionW : Z;
  directionH : Z;
  c_a : Z;
  c_d : Z;
  c_c : Z;
  c_a2 : Z;
  c_a3 : Z
}.

Definition TRIANGLE : Z := 0.
Definition PARALLELOGRAM : Z := 1.
Definition TRAPEZOID : Z := 2.
Definition PENTAGON : Z := 3.

(** [_construct_constituent(sector, angles, distances)] *)
Definition _construct_constituent (sector : Z) (angles distances : list Z)
    : option constituent :=
  let dir_w := sector * 2 in
  let dir_h := ((sector + 1) mod 6) * 2 in
  match Py.getitem angles 0 with
  | None => None
  | Some a0 =>
      if a0 =? 1 then
        match Py.getitem angles 1 with
        | None => None
        | Some a1 =>
            if a1 =? 1 then
              match Py.getitem distances 0 with
              | Some d0 => Some (mkConstituent TRIANGLE dir_w dir_h d0 0 0 0 0)
              | None => None
              end
            else
              match Py.getitem distances 0, Py.getitem distances 1 with
              | Some d0, Some d1 => Some (mkConstituent TRAPEZOID dir_w dir_h d0 d1 0 0 0)
              | _, _ => None
              end
        end
      else
        match Py.getitem angles 1 with
        | None => None
        | Some a1 =>
            if a1 =? 1 then
              match Py.getitem distances 0, Py.getitem distances 1 with
              | Some d0, Some d1 =>
                  Some (mkConstituent PARALLELOGRAM dir_w dir_h d0 d1 0 0 0)
              | _, _ => None
              end
            else
              match Py.getitem angles 2 with
              | None => None
              | Some a2 =>
                  if a2 =? 1 then
                    match Py.getitem distances 0, Py.getitem distances 1 with
                    | Some d0, Some d1 =>
                        Some (mkConstituent TRAPEZOID dir_h dir_w (d0 + d1) d0 0 0 0)
                    | _, _ => None
                    end
                  else
                    match Py.getitem distances 0, Py.getitem distances 1,
                          Py.getitem distances 2 with
                    | Some d0, Some d1, Some d2 =>
                        Some (mkConstituent PENTAGON dir_w dir_h d0 (d1 + d2) d1
                                            (d0 + d1) (d0 + 1))
                    | _, _, _ => None
                    end
              end
        end
  end.

(** The state of the first [while True] loop of [gen_constituents]. *)
Record axis_state : Type := mkAxis {
  ax_node : point;
  ax_idx : Z;
  ax_last_edge_idx : Z;
  ax_last_edge_found : bool;
  ax_top1 : point;
  ax_top2 : point
}.

(** The walk along the first direction of the sector. *)
Fixpoint axis_walk (rounds : nat) (s : Shape) (vec1 : point) (st : axis_state)
    : outcome axis_state :=
  match rounds with
  | O => Diverged
  | S rounds' =>
      let node := vadd (ax_node st) vec1 in
      let node_idx := _get_node_idx s node in
      if node_idx =? -1 then Returned st
      else
        let idx := ax_idx st + 1 in
        let idx_top_1 := _get_node_idx s (ax_top1 st) in
        let idx_top_2 := _get_node_idx s (ax_top2 st) in
        let '(last_idx, found) :=
          if negb (ax_last_edge_found st) then
            if negb (idx_top_1 =? -1) && contains_edge s (node_idx, idx_top_1)
            then (idx, false)
            else if negb (idx_top_2 =? -1) && contains_edge s (node_idx, idx_top_2)
            then (idx, false)
            else (ax_last_edge_idx st, true)
          else (ax_last_edge_idx st, true) in
        axis_walk rounds' s vec1
          (mkAxis node idx last_idx found (ax_top2 st) (vadd (ax_top2 st) vec1))
  end.

(** The state of the boundary traversal. *)
Record walk_state : Type := mkWalk {
  w_direction : Z;
  w_node : point;
  w_nbrs : list point;
  w_angles : list Z;
  w_distances : list Z;
  w_dist : Z;
  w_constituents : list constituent
}.

(** The traversal loop; it returns the constituents it has collected. *)
Fixpoint boundary_walk (rounds : nat) (s : Shape) (sector : Z) (directions : list point)
    (st : walk_state) : outcome (list constituent) :=
  match rounds with
  | O => Diverged
  | S rounds' =>
      match Py.getitem directions (w_direction st) with
      | None => Raised
      | Some dir_vec =>
          let new_node := vadd (w_node st) dir_vec in
          let new_idx := _get_node_idx s new_node in
          let dist := w_dist st + 1 in
          match rotate_grid_point (fst new_node) (snd new_node) ((6 - sector) mod 6) with
          | None => Raised
          | Some (rx, ry) =>
              if rx <=? 0 then
                if negb (w_direction st =? 2) then
                  match _construct_constituent sector (w_angles st ++ [1])
                                               (w_distances st ++ [dist]) with
                  | Some c => Returned (w_constituents st ++ [c])
                  | None => Raised
                  end
                else Returned (w_constituents st)
              else
                let new_nbrs := map (fun n => vadd n dir_vec) (w_nbrs st) in
                let new_nbr_idxs := map (_get_node_idx s) new_nbrs in
                let num_nbrs :=
                  Z.of_nat (length (filter (fun i => negb (i =? -1) &&
                                                     contains_edge s (new_idx, i))
                                           new_nbr_idxs)) in
                let continue_with (d : Z) (angles distances : list Z) (dist : Z)
                                  (cs : list constituent) :=
                  boundary_walk rounds' s sector directions
                    (mkWalk d new_node new_nbrs angles distances dist cs) in
                if (w_direction st =? 0) && (num_nbrs <? 3) then
                  if num_nbrs =? 2 then
                    continue_with 1 (w_angles st ++ [0]) (w_distances st ++ [dist]) 0
                                  (w_constituents st)
                  else
                    match _construct_constituent sector (w_angles st ++ [1])
                                                 (w_distances st ++ [dist]) with
                    | Some c => continue_with 2 [] [] 0 (w_constituents st ++ [c])
                    | None => Raised
                    end
                else if (w_direction st =? 1) && negb (num_nbrs =? 2) then
                  match _construct_constituent sector (w_angles st ++ [0])
                                               (w_distances st ++ [dist]) with
                  | Some c =>
                      if num_nbrs <? 2 then
                        continue_with 2 [] [] 0 (w_constituents st ++ [c])
                      else
                        continue_with 0 [0] [rx] ry (w_constituents st ++ [c])
                  | None => Raised
                  end
                else if (w_direction st =? 2) && (num_nbrs >? 1) then
                  if num_nbrs =? 2 then
                    continue_with 1 (w_angles st ++ [0; 0]) (w_distances st ++ [rx; ry]) 0
                                  (w_constituents st)
                  else
                    continue_with 0 (w_angles st ++ [0]) (w_distances st ++ [rx]) ry
                                  (w_constituents st)
                else
                  continue_with (w_direction st) (w_angles st) (w_distances st) dist
                                (w_constituents st)
          end
      end
  end.

(** The first edge the traversal follows from the start node: direction and
    angle, or [None] when the [ValueError] is raised. *)
Definition initial_direction (s : Shape) (node : point) (vec2 vec3 : point)
    : option (Z * Z) :=
  let node_idx := _get_node_idx s node in
  let idx0 := _get_node_idx s (vadd node vec2) in
  let idx1 := _get_node_idx s (vadd node vec3) in
  if negb (idx0 =? -1) && contains_edge s (node_idx, idx0) then Some (0, 0)
  else if negb (idx1 =? -1) && contains_edge s (node_idx, idx1) then Some (1, 1)
  else None.

(** Body of [for sector in range(6)]; [cs] are the constituents so far. *)
Definition sector_constituents (rounds : nat) (s : Shape) (cs : list constituent)
    (sector : Z) : outcome (list constituent) :=
  match Py.getitem DIR_VECS sector, Py.getitem DIR_VECS ((sector + 1) mod 6),
        Py.getitem DIR_VECS ((sector + 2) mod 6), Py.getitem DIR_VECS ((sector + 3) mod 6) with
  | Some vec1, Some vec2, Some vec3, Some vec4 =>
      obind (axis_walk (S (length (nodes s))) s vec1
                       (mkAxis (0, 0) 0 0 false vec2 (vadd vec1 vec2))) (fun ax =>
      let idx := ax_idx ax in
      let last_edge_idx := ax_last_edge_idx ax in
      let node := scale idx vec1 in
      let node_idx := _get_node_idx s node in
      let cs :=
        if idx >? last_edge_idx then
          let nbr_bot_1 := vsub node vec2 in
          let nbr_bot_2 := vadd nbr_bot_1 vec1 in
          let idx_bot_1 := _get_node_idx s nbr_bot_1 in
          let idx_bot_2 := _get_node_idx s nbr_bot_2 in
          if ((idx_bot_1 =? -1) || negb (contains_edge s (node_idx, idx_bot_1))) &&
             ((idx_bot_2 =? -1) || negb (contains_edge s (node_idx, idx_bot_2)))
          then cs ++ [mkConstituent 1 (sector * 2) (((sector + 1) mod 6) * 2) idx 0 0 0 0]
          else cs
        else cs in
      let idx := last_edge_idx in
      let node := scale idx vec1 in
      if idx =? 0 then Returned cs
      else
        match initial_direction s node vec2 vec3 with
        | None => Raised
        | Some (direction, angle) =>
            boundary_walk rounds s sector [vec2; vec3; vec4]
              (mkWalk direction node [vadd node vec2; vadd node vec3; vadd node vec4]
                      [angle] [idx] 0 cs)
        end)
  | _, _, _, _ => Raised
  end.

(** [gen_constituents()]; [rounds] bounds each boundary traversal. *)
Definition gen_constituents (rounds : nat) (s : Shape) : outcome (list constituent) :=
  fold_left (fun acc sector => obind acc (fun cs => sector_constituents rounds s cs sector))
            (range 6) (Returned []).

(** *** Documents *)

Record document : Type := mkDocument {
  doc_nodes : list point;
  doc_edges : list edge_t;
  doc_faces : list face_t;
  doc_constituents : list constituent;
  doc_dependencyTree : option (list dt_entry)   (* [None] is JSON's [null] *)
}.

(** [Shape.to_json()] *)
Definition Shape_to_json (s : Shape) : outcome document :=
  Returned (mkDocument (nodes s) (edges s) (faces s) [] (Some [])).

(** [StarConvex.to_json()] *)
Definition StarConvex_to_json (rounds : nat) (s : Shape) : outcome document :=
  obind (gen_constituents rounds s) (fun cs =>
  Returned (mkDocument (nodes s) (edges s) (faces s) cs (Some []))).

(** [Snowflake.to_json()] *)
Definition Snowflake_to_json (iter_order : list sfid -> list sfid) (depth : nat)
    (a : arena) (self : sfid) : outcome document :=
  obind (gen_dependency_tree iter_order depth a self) (fun dtree =>
  let s := sf_shape (a self) in
  Returned (mkDocument (nodes s) (edges s) (faces s) [] dtree)).

(** ** Notions used to state facts about [merge_with] *)

(** Where [merge_with] sends index [a] of the other mesh ([-1] when the
    lookup raises). *)
Definition image (m : merge_maps) (a : Z) : Z :=
  match translate m a with Some v => v | None => -1 end.

Definition image_edge (m : merge_maps) (e : edge_t) : edge_t :=
  (image m (fst e), image m (snd e)).

Definition image_face (m : merge_maps) (f : face_t) : face_t :=
  let '(a, b, c) := f in (image m a, image m b, image m c).

(** The flags [have_edge] and [have_face] of the two copying loops. *)
Definition have_edge (ours : list edge_t) (m : merge_maps) (e : edge_t) : bool :=
  dict_has (shared_dict m) (fst e) && dict_has (shared_dict m) (snd e) &&
  contains_edge_in ours (image_edge m e).

Definition have_face (ours : list face_t) (m : merge_maps) (f : face_t) : bool :=
  let '(a, b, c) := f in
  dict_has (shared_dict m) a && dict_has (shared_dict m) b && dict_has (shared_dict m) c &&
  contains_face_in ours (image_face m f).

(** The node loop of [merge_with] run over the node list [theirs]. *)
Definition merge_nodes (ours theirs : list point) : merge_maps :=
  fold_left (merge_node ours) (enumerate theirs)
            (mkMaps [] [] [] (Z.of_nat (length ours))).

(** The other mesh's nodes in the coordinates of [s], and the maps the node
    loop builds for them. *)
Definition rebased_nodes (s other : Shape) : list point :=
  map (fun n : point => (fst n + (fst (pos other) - fst (pos s)),
                         snd n + (snd (pos other) - snd (pos s)))) (nodes other).

Definition maps_of (s other : Shape) : merge_maps :=
  merge_nodes (nodes s) (rebased_nodes s other).

Definition absent (ours : list point) (p : point) : bool :=
  index_from p ours 0 =? -1.

(** Every index stored in an edge or a face refers to a node. *)
Definition indices_closed (s : Shape) : Prop :=
  (forall e, In e (edges s) -> valid_index s (fst e) /\ valid_index s (snd e)) /\
  (forall a b c, In (a, b, c) (faces s) ->
     valid_index s a /\ valid_index s b /\ valid_index s c).

(** ** Connectivity of a mesh without a node or without an edge *)

(** The edge [e] joins the nodes [a] and [b]. *)
Definition joins (e : edge_t) (a b : Z) : Prop :=
  (fst e = a /\ snd e = b) \/ (snd e = a /\ fst e = b).

(** One step of the search: along an edge whose position is not excluded,
    to a node that is not excluded. *)
Definition bfs_link (es : list edge_t) (excluded_nodes excluded_edges : list Z)
    (a b : Z) : Prop :=
  exists i e, In (i, e) (enumerate es) /\ ~ In i excluded_edges /\
              joins e a b /\ ~ In b excluded_nodes.

(** [a] and [b] are neighbours in the mesh from which node [i] and every
    edge at [i] have been taken away. *)
Definition linked_without_node (s : Shape) (i : Z) (a b : Z) : Prop :=
  exists e, In e (edges s) /\ in_edge i e = false /\ joins e a b.

(** [a] and [b] are neighbours in the mesh from which the edge at position
    [k] of the edge list has been taken away. *)
Definition linked_without_edge (s : Shape) (k : Z) (a b : Z) : Prop :=
  exists j e, nth_error (edges s) j = Some e /\ Z.of_nat j <> k /\ joins e a b.

(** Connected by a path of such steps. *)
Definition connected (link : Z -> Z -> Prop) : Z -> Z -> Prop :=
  clos_refl_trans Z link.

(** The neighbours of node [i] and the positions of the edges at [i], as
    [remove_node] collects them. *)
Definition neighbours (s : Shape) (i : Z) : list Z :=
  snd (collect_edges i (edges s) 0).

Definition incident_edge_ids (s : Shape) (i : Z) : list Z :=
  fst (collect_edges i (edges s) 0).

(** The values the search can meet: the start node, the sentinel and the end
    points of the edges. *)
Definition bfs_universe (n1 : Z) (es : list edge_t) : list Z :=
  n1 :: -1 :: flat_map (fun e : edge_t => [fst e; snd e]) es.

(** What the search maintains for the targets [t0] it started with. *)
Record bfs_inv (es : list edge_t) (exn exe : list Z) (n1 : Z) (t0 : list Z)
    (st : bfs_state) : Prop := mkBfsInv {
  bfs_visited_reached :
    forall v, In v (visited st) -> v = -1 \/ connected (bfs_link es exn exe) n1 v;
  bfs_queue_visited : forall q, In q (queue st) -> In q (visited st);
  bfs_targets_left :
    forall t, In t t0 ->
      In t (target_nodes st) \/ t = -1 \/ connected (bfs_link es exn exe) n1 t
}.

(** What bounds the number of rounds: visited values are distinct members of
    the universe, and each round takes one of them from the queue. *)
Record bfs_count (n1 : Z) (es : list edge_t) (popped : nat) (st : bfs_state) : Prop :=
  mkBfsCount {
  bfs_visited_unique : NoDup (visited st);
  bfs_visited_known : incl (visited st) (bfs_universe n1 es);
  bfs_balance : length (visited st) = (popped + length (queue st))%nat
}.

(** ** The star-convexity invariant *)

Definition has_node (s : Shape) (p : point) : bool :=
  Py.mem point_eqb p (nodes s).

(** The mesh holds an edge between the grid points [p] and [q]. *)
Definition has_edge_at (s : Shape) (p q : point) : bool :=
  let i := _get_node_idx s p in
  let j := _get_node_idx s q in
  negb (i =? -1) && negb (j =? -1) && contains_edge s (i, j).

(** The mesh holds the triangle with corners [p], [q] and [r]. *)
Definition has_face_at (s : Shape) (p q r : point) : bool :=
  let i := _get_node_idx s p in
  let j := _get_node_idx s q in
  let k := _get_node_idx s r in
  negb (i =? -1) && negb (j =? -1) && negb (k =? -1) && contains_face s (i, j, k).

(** The grid point [ix * dir1 + iy * dir2] of a sector parallelogram with
    extents [d1] and [d2] is present, with its edges to the neighbours below,
    to the left and to the upper left inside the parallelogram and with the
    two triangles of the unit cells these edges close. *)
Definition cell_filled (s : Shape) (dir1 dir2 : point) (d1 d2 ix iy : Z) : bool :=
  let node := vadd (scale ix dir1) (scale iy dir2) in
  let down := vsub node dir2 in
  let left := vsub node dir1 in
  let up := vadd left dir2 in
  has_node s node &&
  (if iy >? 0 then has_edge_at s down node else true) &&
  (if ix >? 0 then has_edge_at s left node else true) &&
  (if (ix >? 0) && (iy <? d2)
   then has_edge_at s up node && has_face_at s left node up else true) &&
  (if (ix >? 0) && (iy >? 0) then has_face_at s left down node else true).

(** The origin-anchored sector parallelogram of the grid point [p] is
    entirely in the mesh. *)
Definition parallelogram_filled (s : Shape) (p : point) : bool :=
  let sector := sector_of (fst p) (snd p) in
  match rotate_grid_point (fst p) (snd p) ((6 - sector) mod 6),
        Py.getitem DIR_VECS sector,
        Py.getitem DIR_VECS ((sector + 1) mod 6) with
  | Some (d1, d2), Some dir1, Some dir2 =>
      forallb (fun ix =>
                 forallb (fun iy => cell_filled s dir1 dir2 d1 d2 ix iy)
                         (range (d2 + 1)))
              (range (d1 + 1))
  | _, _, _ => false
  end.

(** Star-convexity: every node has its parallelogram in the mesh. *)
Definition star_convex (s : Shape) : bool :=
  forallb (parallelogram_filled s) (nodes s).

(** ** The child relation between snowflakes *)

(** [c] is attached to [p] as a child. *)
Definition child_of (a : arena) (p c : sfid) : Prop :=
  In c (get_children (a p)).

(** [d] is a transitive child of [p]. *)
Inductive descends (a : arena) : sfid -> sfid -> Prop :=
| desc_child (p c : sfid) : child_of a p c -> descends a p c
| desc_step (p c d : sfid) : child_of a p c -> descends a c d -> descends a p d.

(** No infinite chain of children starts at [x]; in particular no snowflake
    reachable from [x] is its own transitive child. *)
Definition acyclic_below (a : arena) (x : sfid) : Prop :=
  Acc (fun c p => child_of a p c) x.

(** The attachments of a snowflake with the direction they are stored under,
    in the order of the two nested loops over [children]. *)
Fixpoint attachments_from (i : Z) (dirs : list (list attachment)) : list (Z * attachment) :=
  match dirs with
  | [] => []
  | atts :: dirs' => map (pair i) atts ++ attachments_from (i + 1) dirs'
  end.

Definition attachments (sf : Snowflake) : list (Z * attachment) :=
  attachments_from 0 (six_list (children sf)).

(** The reference [r] describes the attachment [att] and points at the
    position of the attached child in [top]. *)
Definition ref_ok (top : list sfid) (att : Z * attachment) (r : dt_child) : Prop :=
  direction r = fst att /\
  distance r = fst (fst (snd att)) /\
  rotation r = snd (fst (snd att)) /\
  exists k : nat, childIdx r = Z.of_nat k /\ nth_error top k = Some (snd (snd att)).

(** The entry [e] describes the snowflake [p]. *)
Definition entry_ok (a : arena) (top : list sfid) (p : sfid) (e : dt_entry) : Prop :=
  dt_arms e = arms (a p) /\ Forall2 (ref_ok top) (attachments (a p)) (dt_children e).

(** Every member of [top] comes after all of its transitive children. *)
Definition children_first (a : arena) (top : list sfid) : Prop :=
  forall (i : nat) (p c : sfid),
    nth_error top i = Some p -> descends a p c ->
    exists j : nat, (j < i)%nat /\ nth_error top j = Some c.

(** The state of the sorting loop of [gen_dependency_tree]. *)
Record sort_inv (a : arena) (all remaining top : list sfid) : Prop := mkSortInv {
  si_remaining : NoDup remaining;
  si_top : NoDup top;
  si_apart : forall y, In y remaining -> ~ In y top;
  si_all : forall y, In y all <-> In y remaining \/ In y top;
  si_order : children_first a top
}.

(** The loop of [get_children_recursive] over the children [cs]. *)
Definition union_children (depth : nat) (a : arena) (cs : list sfid)
    (acc : option (list sfid)) : option (list sfid) :=
  fold_left (fun acc c =>
               match acc, get_children_recursive depth a c with
               | Some s, Some d => Some (sf_union s d)
               | _, _ => None
               end) cs acc.

(** No snowflake is its own transitive child. *)
Definition no_cycle (a : arena) : Prop :=
  forall y, ~ descends a y y.

(** The attachments of every snowflake are in [a'] what they are in [a]. *)
Definition same_children (a a' : arena) : Prop :=
  forall y, children (a' y) = children (a y).

(** All transitive children of [c] are in [top]. *)
Definition ready (a : arena) (top : list sfid) (c : sfid) : Prop :=
  forall d, descends a c d -> In d top.

(** ** The start of the boundary traversal *)

(** The state of the first loop of [gen_constituents] after [ax_idx] steps:
    the running points are where the loop has moved them, and a start point
    recorded for the traversal has an edge to follow. *)
Record axis_inv (s : Shape) (vec1 vec2 vec3 : point) (st : axis_state) : Prop := mkAxisInv {
  ai_node : ax_node st = scale (ax_idx st) vec1;
  ai_top1 : ax_top1 st = vadd (scale (ax_idx st) vec1) vec2;
  ai_top2 : ax_top2 st = vadd (scale (ax_idx st + 1) vec1) vec2;
  ai_start : ax_last_edge_idx st = 0 \/
             initial_direction s (scale (ax_last_edge_idx st) vec1) vec2 vec3 <> None
}.

(** *** Example arenas *)

Definition empty_snowflake (p : point) : Snowflake :=
  mkSnowflake (mkShape p [(0, 0)] [] []) false None 0 0 None 0 None
              (mkSix 0 0 0 0 0 0) (mkSix [] [] [] [] [] []) [].

(** Snowflake 0 at the origin with the arm 8 and snowflake 1 attached at
    distance 4 with rotation 1; snowflake 1 at (-3,-2) with the arm 4. *)
Definition example_arena : arena :=
  fun i =>
    match i with
    | 0%nat => with_children (with_arms (empty_snowflake (0, 0)) (mkSix 8 0 0 0 0 0))
                             (mkSix [(4, 1, 1%nat)] [] [] [] [] [])
    | 1%nat => with_parents (with_arms (empty_snowflake (-3, -2)) (mkSix 4 0 0 0 0 0)) [0%nat]
    | _ => empty_snowflake (100, 100)
    end.

(** The same with snowflake 0 attached to snowflake 1 as well. *)
Definition cyclic_arena : arena :=
  fun i =>
    match i with
    | 1%nat => with_children (example_arena 1%nat) (mkSix [] [(0, 0, 0%nat)] [] [] [] [])
    | _ => example_arena i
    end.

(** Snowflake 0 at the origin with the arm 1, selected, with its one edge
    selected; snowflake 1 at (5,5). *)
Definition selection_arena : arena :=
  fun i =>
    match i with
    | 0%nat => mkSnowflake (mkShape (0, 0) [(0, 0); (1, 0)] [(0, 1)] []) true (Some 0) 0 0
                           None 0 None (mkSix 1 0 0 0 0 0) (mkSix [] [] [] [] [] []) []
    | 1%nat => empty_snowflake (5, 5)
    | _ => empty_snowflake (100, 100)
    end.

(** One triangle at the origin. *)
Definition triangle_shape : Shape :=
  mkShape (0, 0) [(0, 0); (1, 0); (0, 1)] [(0, 1); (0, 2); (1, 2)] [(0, 1, 2)].

(** ** Store discipline of [gen_shifted_shape] *)

(** The computation [c], run in a store with at least [n0] objects, leaves
    the first [n0] objects as they are and takes none away, also when it
    raises; a value it returns satisfies [Q]. *)
Definition preserves {A : Type} (n0 : nat) (c : M A) (Q : A -> Prop) : Prop :=
  forall h : heap, (n0 <= length h)%nat ->
    firstn n0 (fst (c h)) = firstn n0 h /\
    (length h <= length (fst (c h)))%nat /\
    forall a, snd (c h) = Some a -> Q a.

(** The store [h] holds at [self] a snowflake whose mesh is [s]. *)
Definition holds_snowflake (h : heap) (self : ref) (s : Shape) : Prop :=
  exists nr er fr ar cr pr,
    nth_error h self = Some (OSnowflake (pos s) nr er fr ar cr pr) /\
    nth_error h nr = Some (OPoints (nodes s)) /\
    nth_error h er = Some (OEdges (edges s)) /\
    nth_error h fr = Some (OFaces (faces s)).

(** Every edge joins two nodes of the mesh that are neighbours on the
    grid. *)
Definition unit_edges (ns : list point) (es : list edge_t) : Prop :=
  forall e, In e es ->
    exists n1 n2,
      0 <= fst e < Z.of_nat (length ns) /\ 0 <= snd e < Z.of_nat (length ns) /\
      nth_error ns (Z.to_nat (fst e)) = Some n1 /\
      nth_error ns (Z.to_nat (snd e)) = Some n2 /\
      In (vsub n2 n1) DIR_VECS.

(** [rotate_grid_point] on a point, for a rotation in range. *)
Definition rotate_point (rot : Z) (p : point) : point :=
  match rotate_grid_point (fst p) (snd p) rot with
  | Some q => q
  | None => p
  end.

(** ** Growth of a star-convex shape *)

(** [s'] holds the mesh [s] and more: the nodes of [s] at their indices, its
    edges and its faces. *)
Definition extends (s s' : Shape) : Prop :=
  pos s' = pos s /\
  (exists more, nodes s' = nodes s ++ more) /\
  incl (edges s) (edges s') /\
  incl (faces s) (faces s').

(** The grid point of the cell [(ix, iy)] of a sector parallelogram. *)
Definition cell_point (dir1 dir2 : point) (ix iy : Z) : point :=
  vadd (scale ix dir1) (scale iy dir2).

(** The cells that the loops of [add_node_convex] have passed when they
    arrive at the cell [(ix, iy)] are filled. *)
Definition filled_before (s : Shape) (dir1 dir2 : point) (d1 d2 ix iy : Z) : Prop :=
  forall jx jy, 0 <= jx -> 0 <= jy <= d2 ->
    jx < ix \/ (jx = ix /\ jy < iy) ->
    cell_filled s dir1 dir2 d1 d2 jx jy = true.

(** The state of the loops of [add_node_convex] at the cell [(ix, iy)],
    started from the mesh [s0]. *)
Record fill_inv (s0 s : Shape) (dir1 dir2 : point) (d1 d2 ix iy : Z) : Prop := mkFillInv {
  fi_pos : pos s = (0, 0);
  fi_nodes : NoDup (nodes s);
  fi_extends : extends s0 s;
  fi_filled : filled_before s dir1 dir2 d1 d2 ix iy;
  fi_new : forall p, In p (nodes s) ->
           In p (nodes s0) \/
           exists jx jy, 0 <= jx /\ 0 <= jy <= d2 /\ (jx < ix \/ (jx = ix /\ jy < iy)) /\
                         p = cell_point dir1 dir2 jx jy
}.

(** * Proofs *)

Lemma point_eqb_eq (p q : point) : point_eqb p q = true <-> p = q.
Proof.
  destruct p as [a b], q as [c d]; unfold point_eqb; simpl.
  rewrite andb_true_iff, !Z.eqb_eq. split.
  - intros [-> ->]; reflexivity.
  - intros H; inversion H; auto.
Qed.

Lemma point_eqb_refl (p : point) : point_eqb p p = true.
Proof. apply point_eqb_eq; reflexivity. Qed.

Lemma point_eqb_neq (p q : point) : point_eqb p q = false <-> p <> q.
Proof.
  split.
  - intros H E. apply point_eqb_eq in E. congruence.
  - intros H. destruct (point_eqb p q) eqn:E; auto.
    apply point_eqb_eq in E. contradiction.
Qed.

(** ** Rotation *)

(** C8, as the spec states it, fails: a step count of 6 is outside the
    subscript range of [DIR_VECS] and the call raises, although the count
    reduced modulo 6 gives the identity. *)
Lemma rotate_step_six_raises :
  rotate_grid_point 1 0 6 = None /\ rotate_grid_point 1 0 (6 mod 6) = Some (1, 0).
Proof. split; reflexivity. Qed.

(** C8 (amended): for every lattice coordinate and every step count [k] in
    [-6 .. 5], the subscript range of the direction table, [rotate_grid_point]
    returns the coordinate turned counterclockwise by [k mod 6] units of 60
    degrees, which is also what it returns for the count [k mod 6]. *)
Theorem rotate_grid_point_mod6 (x y k : Z) :
  -6 <= k <= 5 ->
  rotate_grid_point x y k = Some (Nat.iter (Z.to_nat (k mod 6)) rot60 (x, y)) /\
  rotate_grid_point x y k = rotate_grid_point x y (k mod 6).
Proof.
  intros Hk.
  assert (Hcases : k = -6 \/ k = -5 \/ k = -4 \/ k = -3 \/ k = -2 \/ k = -1 \/
                   k = 0 \/ k = 1 \/ k = 2 \/ k = 3 \/ k = 4 \/ k = 5) by lia.
  repeat (destruct Hcases as [-> | Hcases]); try subst k;
    (split; [ | reflexivity ]);
    unfold rotate_grid_point;
    repeat match goal with
           | |- context [Py.getitem DIR_VECS ?a] =>
               let v := eval vm_compute in (Py.getitem DIR_VECS a) in
               change (Py.getitem DIR_VECS a) with v
           end;
    match goal with
    | |- context [Z.to_nat ?a] =>
        let v := eval vm_compute in (Z.to_nat a) in change (Z.to_nat a) with v
    end;
    unfold Nat.iter, rot60; cbn [nat_rect fst snd];
    apply f_equal; apply f_equal2; ring.
Qed.

Lemma rotate_grid_point_mod6_witness :
  rotate_grid_point 2 1 (-5) = Some (Nat.iter (Z.to_nat ((-5) mod 6)) rot60 (2, 1)) /\
  rotate_grid_point 2 1 (-5) = rotate_grid_point 2 1 ((-5) mod 6).
Proof. apply (rotate_grid_point_mod6 2 1 (-5)). lia. Defined.

(** ** Lists, lookups and subscripts *)

Lemma point_eq_dec (p q : point) : {p = q} + {p <> q}.
Proof. repeat decide equality. Qed.

Lemma mem_Z_true (x : Z) (l : list Z) : Py.mem Z.eqb x l = true <-> In x l.
Proof.
  unfold Py.mem. rewrite existsb_exists. split.
  - intros [y [Hy E]]. apply Z.eqb_eq in E. subst. exact Hy.
  - intros H. exists x. split; [exact H | apply Z.eqb_refl].
Qed.

Lemma mem_Z_false (x : Z) (l : list Z) : Py.mem Z.eqb x l = false <-> ~ In x l.
Proof.
  rewrite <- mem_Z_true. destruct (Py.mem Z.eqb x l); split; intros; congruence.
Qed.

Lemma scan_nodes_notin (p : point) (l : list point) (i j : Z) :
  ~ In p l -> scan_nodes p l i j = j.
Proof.
  revert i j. induction l as [|n l IH]; intros i j Hn; simpl.
  - reflexivity.
  - destruct (point_eqb n p) eqn:E.
    + apply point_eqb_eq in E. subst. exfalso. apply Hn. left. reflexivity.
    + apply IH. intros H. apply Hn. right. exact H.
Qed.

Lemma scan_nodes_in (p : point) (l : list point) (i j : Z) :
  In p l ->
  exists k, nth_error l k = Some p /\ scan_nodes p l i j = i + Z.of_nat k.
Proof.
  revert i j. induction l as [|n l IH]; intros i j Hin; simpl.
  - destruct Hin.
  - destruct (in_dec point_eq_dec p l) as [Hl | Hl].
    + destruct (IH (i + 1) (if point_eqb n p then i else j) Hl) as [k [Hk E]].
      exists (S k). split; [exact Hk | rewrite E; lia].
    + destruct Hin as [-> | Hin]; [| contradiction].
      rewrite scan_nodes_notin by exact Hl.
      rewrite point_eqb_refl. exists O. split; [reflexivity | simpl; lia].
Qed.

Lemma find_node_cases (s : Shape) (p : point) :
  (~ In p (nodes s) /\ find_node s p = -1) \/
  (exists k, nth_error (nodes s) k = Some p /\ find_node s p = Z.of_nat k).
Proof.
  unfold find_node. destruct (in_dec point_eq_dec p (nodes s)) as [H | H].
  - right. destruct (scan_nodes_in p (nodes s) 0 (-1) H) as [k [Hk E]].
    exists k. split; [exact Hk | rewrite E; lia].
  - left. split; [exact H | apply scan_nodes_notin; exact H].
Qed.

Lemma index_from_notin (p : point) (l : list point) (i : Z) :
  ~ In p l -> index_from p l i = -1.
Proof.
  revert i. induction l as [|n l IH]; intros i Hn; simpl.
  - reflexivity.
  - destruct (point_eqb n p) eqn:E.
    + apply point_eqb_eq in E. subst. exfalso. apply Hn. left. reflexivity.
    + apply IH. intros H. apply Hn. right. exact H.
Qed.

Lemma index_from_in (p : point) (l : list point) (i : Z) :
  In p l ->
  exists k, nth_error l k = Some p /\ index_from p l i = i + Z.of_nat k /\
            ~ In p (firstn k l).
Proof.
  revert i. induction l as [|n l IH]; intros i Hin; simpl.
  - destruct Hin.
  - destruct (point_eqb n p) eqn:E.
    + apply point_eqb_eq in E. subst. exists O.
      split; [reflexivity | split; [simpl; lia | simpl; tauto]].
    + apply point_eqb_neq in E.
      destruct Hin as [-> | Hin]; [congruence |].
      destruct (IH (i + 1) Hin) as [k [Hk [Ek Hf]]].
      exists (S k). split; [exact Hk | split; [rewrite Ek; lia |]].
      simpl. intros [H | H]; [congruence | contradiction].
Qed.

Lemma index_from_cases (p : point) (l : list point) :
  (~ In p l /\ index_from p l 0 = -1) \/
  (exists k, nth_error l k = Some p /\ index_from p l 0 = Z.of_nat k /\
             ~ In p (firstn k l)).
Proof.
  destruct (in_dec point_eq_dec p l) as [H | H].
  - right. destruct (index_from_in p l 0 H) as [k [Hk [E Hf]]].
    exists k. split; [exact Hk | split; [rewrite E; lia | exact Hf]].
  - left. split; [exact H | apply index_from_notin; exact H].
Qed.

Lemma index_from_app_l (p : point) (l l' : list point) (i : Z) :
  In p l -> index_from p (l ++ l') i = index_from p l i.
Proof.
  revert i. induction l as [|n l IH]; intros i Hin; simpl.
  - destruct Hin.
  - destruct (point_eqb n p) eqn:E; [reflexivity |].
    apply point_eqb_neq in E. destruct Hin as [-> | Hin]; [congruence |].
    apply IH. exact Hin.
Qed.

Lemma index_from_app_r (p : point) (l l' : list point) (i : Z) :
  ~ In p l -> index_from p (l ++ l') i = index_from p l' (i + Z.of_nat (length l)).
Proof.
  revert i. induction l as [|n l IH]; intros i Hn; simpl.
  - f_equal. lia.
  - destruct (point_eqb n p) eqn:E.
    + apply point_eqb_eq in E. subst. exfalso. apply Hn. left. reflexivity.
    + rewrite IH by (intros H; apply Hn; right; exact H). f_equal. lia.
Qed.

Lemma nth_error_NoDup_eq {A : Type} (l : list A) (i j : nat) (x : A) :
  NoDup l -> nth_error l i = Some x -> nth_error l j = Some x -> i = j.
Proof.
  intros Hnd Hi Hj.
  apply (proj1 (NoDup_nth_error l) Hnd).
  - apply nth_error_Some. congruence.
  - congruence.
Qed.

(** *** [enumerate] *)

Lemma enumerate_from_app {A : Type} (l l' : list A) (i : Z) :
  enumerate_from i (l ++ l') =
  enumerate_from i l ++ enumerate_from (i + Z.of_nat (length l)) l'.
Proof.
  revert i. induction l as [|x l IH]; intros i; simpl.
  - f_equal. lia.
  - rewrite IH. do 3 f_equal. lia.
Qed.

Lemma enumerate_from_In {A : Type} (l : list A) (i j : Z) (x : A) :
  In (j, x) (enumerate_from i l) <->
  i <= j /\ nth_error l (Z.to_nat (j - i)) = Some x.
Proof.
  revert i. induction l as [|y l IH]; intros i; simpl.
  - split; [tauto |]. intros [_ H]. destruct (Z.to_nat (j - i)); discriminate.
  - rewrite IH. split.
    + intros [H | [H1 H2]].
      * inversion H; subst. split; [lia |]. rewrite Z.sub_diag. reflexivity.
      * split; [lia |].
        replace (Z.to_nat (j - i)) with (S (Z.to_nat (j - (i + 1)))) by lia.
        exact H2.
    + intros [H1 H2]. destruct (Z.eq_dec i j) as [-> | Hne].
      * left. rewrite Z.sub_diag in H2. simpl in H2. congruence.
      * right. split; [lia |].
        replace (Z.to_nat (j - i)) with (S (Z.to_nat (j - (i + 1)))) in H2 by lia.
        exact H2.
Qed.

(** *** Python subscripts *)

Lemma getitem_nat {A : Type} (l : list A) (k : nat) :
  (k < length l)%nat -> Py.getitem l (Z.of_nat k) = nth_error l k.
Proof.
  intros H. unfold Py.getitem.
  replace ((0 <=? Z.of_nat k) && (Z.of_nat k <? Z.of_nat (length l))) with true.
  - rewrite Nat2Z.id. reflexivity.
  - symmetry. apply andb_true_iff. split; [apply Z.leb_le | apply Z.ltb_lt]; lia.
Qed.

Lemma delitem_nat {A : Type} (l : list A) (k : nat) :
  (k < length l)%nat -> Py.delitem l (Z.of_nat k) = Some (Py.drop_at k l).
Proof.
  intros H. unfold Py.delitem.
  replace ((0 <=? Z.of_nat k) && (Z.of_nat k <? Z.of_nat (length l))) with true.
  - rewrite Nat2Z.id. reflexivity.
  - symmetry. apply andb_true_iff. split; [apply Z.leb_le | apply Z.ltb_lt]; lia.
Qed.

Lemma drop_at_In {A : Type} (k : nat) (l : list A) (x : A) :
  In x (Py.drop_at k l) -> In x l.
Proof.
  revert k. induction l as [|h t IH]; intros k; simpl.
  - tauto.
  - destruct k; simpl.
    + auto.
    + intros [H | H]; [left; exact H | right; apply (IH k); exact H].
Qed.

Lemma drop_at_In_other {A : Type} (k : nat) (l : list A) (x y : A) :
  nth_error l k = Some y -> In x l -> x <> y -> In x (Py.drop_at k l).
Proof.
  revert k. induction l as [|h t IH]; intros k Hk Hin Hne; simpl.
  - destruct Hin.
  - destruct k; simpl in *.
    + inversion Hk; subst. destruct Hin as [H | H]; [congruence | exact H].
    + destruct Hin as [H | H]; [left; exact H | right; apply IH; assumption].
Qed.

Lemma drop_at_length {A : Type} (k : nat) (l : list A) :
  (k < length l)%nat -> length (Py.drop_at k l) = (length l - 1)%nat.
Proof.
  revert k. induction l as [|h t IH]; intros k H; simpl in *.
  - lia.
  - destruct k; simpl.
    + lia.
    + rewrite IH by lia. lia.
Qed.

Lemma drop_at_NoDup {A : Type} (k : nat) (l : list A) :
  NoDup l -> NoDup (Py.drop_at k l).
Proof.
  revert k. induction l as [|h t IH]; intros k H; simpl.
  - constructor.
  - inversion H; subst. destruct k.
    + assumption.
    + constructor.
      * intros Hin. apply drop_at_In in Hin. contradiction.
      * apply IH. assumption.
Qed.

Lemma drop_at_nth_error_lt {A : Type} (k j : nat) (l : list A) :
  (j < k)%nat -> nth_error (Py.drop_at k l) j = nth_error l j.
Proof.
  revert k j. induction l as [|h t IH]; intros k j H; simpl.
  - reflexivity.
  - destruct k; [lia |]. destruct j; simpl; [reflexivity |]. apply IH. lia.
Qed.

(** *** Pairwise distinct lists *)

Lemma pairwise_distinct_app {A : Type} (same : A -> A -> bool) (l l' : list A) :
  pairwise_distinct same (l ++ l') <->
  pairwise_distinct same l /\ pairwise_distinct same l' /\
  (forall x y, In x l -> In y l' -> same x y = false).
Proof.
  induction l as [|h t IH]; simpl.
  - intuition.
  - rewrite IH. split.
    + intros [H1 [H2 [H3 H4]]]. repeat split; auto.
      * intros y Hy. apply H1. apply in_or_app. left. exact Hy.
      * intros x y [-> | Hx] Hy; [apply H1; apply in_or_app; right; exact Hy | auto].
    + intros [[H1 H2] [H3 H4]]. repeat split; auto.
      intros y Hy. apply in_app_or in Hy. destruct Hy; auto.
Qed.

Lemma pairwise_distinct_snoc {A : Type} (same : A -> A -> bool) (l : list A) (x : A) :
  pairwise_distinct same l -> (forall y, In y l -> same y x = false) ->
  pairwise_distinct same (l ++ [x]).
Proof.
  intros H1 H2. apply pairwise_distinct_app. split; [exact H1 |]. split.
  - simpl. split; [intros y [] | exact I].
  - intros a b Ha [<- | []]. auto.
Qed.

Lemma pairwise_distinct_filter {A : Type} (same : A -> A -> bool) (f : A -> bool) (l : list A) :
  pairwise_distinct same l -> pairwise_distinct same (filter f l).
Proof.
  induction l as [|h t IH]; simpl; intros H.
  - exact I.
  - destruct H as [H1 H2]. destruct (f h); simpl; auto.
    split; auto. intros y Hy. apply filter_In in Hy. apply H1. tauto.
Qed.

Lemma pairwise_distinct_drop_at {A : Type} (same : A -> A -> bool) (k : nat) (l : list A) :
  pairwise_distinct same l -> pairwise_distinct same (Py.drop_at k l).
Proof.
  revert k. induction l as [|h t IH]; intros k H; simpl.
  - exact I.
  - destruct H as [H1 H2]. destruct k; simpl; auto.
    split; auto. intros y Hy. apply H1. eapply drop_at_In. exact Hy.
Qed.

Lemma pairwise_distinct_map {A : Type} (same : A -> A -> bool) (g : A -> A) (l : list A) :
  (forall x y, In x l -> In y l -> same (g x) (g y) = same x y) ->
  pairwise_distinct same l -> pairwise_distinct same (map g l).
Proof.
  induction l as [|h t IH]; simpl; intros Hg H.
  - exact I.
  - destruct H as [H1 H2]. split.
    + intros y Hy. apply in_map_iff in Hy. destruct Hy as [z [<- Hz]].
      rewrite Hg by auto. auto.
    + apply IH; auto.
Qed.

Lemma pairwise_distinct_map2 {A B : Type} (sameA : A -> A -> bool) (sameB : B -> B -> bool)
    (g : A -> B) (l : list A) :
  (forall x y, In x l -> In y l -> sameB (g x) (g y) = sameA x y) ->
  pairwise_distinct sameA l -> pairwise_distinct sameB (map g l).
Proof.
  induction l as [|h t IH]; simpl; intros Hg H.
  - exact I.
  - destruct H as [H1 H2]. split.
    + intros y Hy. apply in_map_iff in Hy. destruct Hy as [z [<- Hz]].
      rewrite Hg by auto. auto.
    + apply IH; auto.
Qed.

(** *** Removing by value *)

Lemma remove_first_In {A : Type} (eqb : A -> A -> bool) (x y : A) (l : list A) :
  In y (Py.remove_first eqb x l) -> In y l.
Proof.
  induction l as [|h t IH]; simpl.
  - tauto.
  - destruct (eqb h x); simpl; [auto |]. intros [H | H]; auto.
Qed.

Lemma pairwise_distinct_remove_first {A : Type} (same eqb : A -> A -> bool) (x : A) (l : list A) :
  pairwise_distinct same l -> pairwise_distinct same (Py.remove_first eqb x l).
Proof.
  induction l as [|h t IH]; simpl; intros H.
  - exact I.
  - destruct H as [H1 H2]. destruct (eqb h x); simpl; auto.
    split; auto. intros y Hy. apply H1. eapply remove_first_In. exact Hy.
Qed.

(** Removing, one by one, every element that satisfies [f] in list order
    leaves the elements that do not, provided the equality test is exact. *)
Lemma remove_all_filter {A : Type} (eqb : A -> A -> bool) (f : A -> bool) (l : list A) :
  (forall x y, eqb x y = true <-> x = y) ->
  remove_all eqb (filter f l) l = Some (filter (fun x => negb (f x)) l).
Proof.
  intros Heq.
  assert (Hgen : forall l0 pre,
    (forall x, In x pre -> f x = false) ->
    remove_all eqb (filter f l0) (pre ++ l0) =
    Some (pre ++ filter (fun x => negb (f x)) l0)).
  { induction l0 as [|h t IH]; intros pre Hpre; simpl.
    - reflexivity.
    - destruct (f h) eqn:Fh; simpl.
      + unfold list_remove.
        assert (Hm : Py.mem eqb h (pre ++ h :: t) = true).
        { unfold Py.mem. apply existsb_exists. exists h. split.
          - apply in_or_app. right. left. reflexivity.
          - apply Heq. reflexivity. }
        rewrite Hm.
        assert (Hr : Py.remove_first eqb h (pre ++ h :: t) = pre ++ t).
        { clear IH Hm. induction pre as [|a pre IHp]; simpl.
          - replace (eqb h h) with true by (symmetry; apply Heq; reflexivity).
            reflexivity.
          - destruct (eqb a h) eqn:E.
            + apply Heq in E. subst a.
              rewrite (Hpre h) in Fh by (left; reflexivity). discriminate.
            + f_equal. apply IHp. intros x Hx. apply Hpre. right. exact Hx. }
        rewrite Hr. apply IH. exact Hpre.
      + replace (pre ++ h :: t) with ((pre ++ [h]) ++ t)
          by (rewrite <- app_assoc; reflexivity).
        rewrite IH.
        * rewrite <- app_assoc. reflexivity.
        * intros x Hx. apply in_app_or in Hx. destruct Hx as [Hx | [<- | []]]; auto. }
  apply (Hgen l []). intros x [].
Qed.

Lemma edge_eqb_eq (e1 e2 : edge_t) : edge_eqb e1 e2 = true <-> e1 = e2.
Proof.
  destruct e1 as [a b], e2 as [c d]. unfold edge_eqb. simpl.
  rewrite andb_true_iff, !Z.eqb_eq. split.
  - intros [-> ->]. reflexivity.
  - intros H. inversion H. auto.
Qed.

Lemma face_eqb_eq (f1 f2 : face_t) : face_eqb f1 f2 = true <-> f1 = f2.
Proof.
  destruct f1 as [[a b] c], f2 as [[a' b'] c']. unfold face_eqb.
  rewrite !andb_true_iff, !Z.eqb_eq. split.
  - intros [[-> ->] ->]. reflexivity.
  - intros H. inversion H. auto.
Qed.

(** ** Order-independent equality of edges and faces *)

Lemma same_edge_true (e1 e2 : edge_t) :
  same_edge e1 e2 = true <->
  (fst e1 = fst e2 /\ snd e1 = snd e2) \/ (fst e1 = snd e2 /\ snd e1 = fst e2).
Proof.
  unfold same_edge. rewrite orb_true_iff, !andb_true_iff, !Z.eqb_eq. tauto.
Qed.

Lemma same_edge_false (e1 e2 : edge_t) :
  same_edge e1 e2 = false <->
  ~ ((fst e1 = fst e2 /\ snd e1 = snd e2) \/ (fst e1 = snd e2 /\ snd e1 = fst e2)).
Proof.
  rewrite <- same_edge_true. destruct (same_edge e1 e2); split; intros; congruence.
Qed.

Lemma same_edge_refl (e : edge_t) : same_edge e e = true.
Proof. apply same_edge_true. left. split; reflexivity. Qed.

Lemma same_edge_sym (e1 e2 : edge_t) : same_edge e1 e2 = same_edge e2 e1.
Proof.
  destruct (same_edge e1 e2) eqn:E1; symmetry.
  - apply same_edge_true. apply same_edge_true in E1. intuition congruence.
  - apply same_edge_false. apply same_edge_false in E1.
    intros H. apply E1. destruct H as [[H1 H2] | [H1 H2]]; [left | right]; split; congruence.
Qed.

Lemma same_edge_trans (e1 e2 e3 : edge_t) :
  same_edge e1 e2 = true -> same_edge e2 e3 = true -> same_edge e1 e3 = true.
Proof. rewrite !same_edge_true. intuition congruence. Qed.

Lemma set_eqb_true (l1 l2 : list Z) :
  set_eqb l1 l2 = true <-> (forall x, In x l1 <-> In x l2).
Proof.
  unfold set_eqb. rewrite andb_true_iff, !forallb_forall. split.
  - intros [H1 H2] x. split; intros H.
    + apply mem_Z_true. apply H1. exact H.
    + apply mem_Z_true. apply H2. exact H.
  - intros H. split; intros x Hx; apply mem_Z_true; apply H; exact Hx.
Qed.

Lemma same_face_true (f1 f2 : face_t) :
  same_face f1 f2 = true <-> (forall x, In x (tuple3 f1) <-> In x (tuple3 f2)).
Proof. apply set_eqb_true. Qed.

Lemma same_face_refl (f : face_t) : same_face f f = true.
Proof. apply same_face_true. tauto. Qed.

Lemma same_face_sym (f1 f2 : face_t) : same_face f1 f2 = same_face f2 f1.
Proof.
  destruct (same_face f1 f2) eqn:E1; destruct (same_face f2 f1) eqn:E2; auto.
  - pose proof (proj1 (same_face_true f1 f2) E1) as H1.
    assert (H : same_face f2 f1 = true) by (apply same_face_true; intros x; symmetry; apply H1).
    congruence.
  - pose proof (proj1 (same_face_true f2 f1) E2) as H2.
    assert (H : same_face f1 f2 = true) by (apply same_face_true; intros x; symmetry; apply H2).
    congruence.
Qed.

Lemma same_face_trans (f1 f2 f3 : face_t) :
  same_face f1 f2 = true -> same_face f2 f3 = true -> same_face f1 f3 = true.
Proof.
  rewrite !same_face_true. intros H1 H2 x. rewrite H1. apply H2.
Qed.

Lemma in_face_tuple3 (i : Z) (f : face_t) : in_face i f = true <-> In i (tuple3 f).
Proof.
  destruct f as [[a b] c]. unfold in_face. simpl.
  rewrite !orb_true_iff, !Z.eqb_eq. intuition congruence.
Qed.

Lemma in_edge_true (i : Z) (e : edge_t) : in_edge i e = true <-> i = fst e \/ i = snd e.
Proof. unfold in_edge. rewrite orb_true_iff, !Z.eqb_eq. tauto. Qed.

Lemma contains_edge_in_true (es : list edge_t) (e : edge_t) :
  contains_edge_in es e = true <-> exists y, In y es /\ same_edge y e = true.
Proof. unfold contains_edge_in. apply existsb_exists. Qed.

Lemma contains_edge_in_false (es : list edge_t) (e : edge_t) :
  contains_edge_in es e = false <-> forall y, In y es -> same_edge y e = false.
Proof.
  split.
  - intros H y Hy. destruct (same_edge y e) eqn:E; auto.
    assert (contains_edge_in es e = true) by (apply contains_edge_in_true; eauto).
    congruence.
  - intros H. destruct (contains_edge_in es e) eqn:E; auto.
    apply contains_edge_in_true in E. destruct E as [y [Hy E]].
    rewrite H in E by exact Hy. discriminate.
Qed.

Lemma contains_face_in_true (fs : list face_t) (f : face_t) :
  contains_face_in fs f = true <-> exists y, In y fs /\ same_face y f = true.
Proof. unfold contains_face_in. apply existsb_exists. Qed.

Lemma contains_face_in_false (fs : list face_t) (f : face_t) :
  contains_face_in fs f = false <-> forall y, In y fs -> same_face y f = false.
Proof.
  split.
  - intros H y Hy. destruct (same_face y f) eqn:E; auto.
    assert (contains_face_in fs f = true) by (apply contains_face_in_true; eauto).
    congruence.
  - intros H. destruct (contains_face_in fs f) eqn:E; auto.
    apply contains_face_in_true in E. destruct E as [y [Hy E]].
    rewrite H in E by exact Hy. discriminate.
Qed.

Lemma contains_edge_in_incl (es es' : list edge_t) (e : edge_t) :
  incl es es' -> contains_edge_in es e = true -> contains_edge_in es' e = true.
Proof.
  intros Hi H. apply contains_edge_in_true in H. destruct H as [y [Hy E]].
  apply contains_edge_in_true. exists y. split; [apply Hi; exact Hy | exact E].
Qed.

Lemma contains_edge_in_same (es : list edge_t) (e e' : edge_t) :
  same_edge e e' = true -> contains_edge_in es e = contains_edge_in es e'.
Proof.
  intros H.
  destruct (contains_edge_in es e) eqn:E1; destruct (contains_edge_in es e') eqn:E2; auto.
  - apply contains_edge_in_true in E1. destruct E1 as [y [Hy E1]].
    rewrite contains_edge_in_false in E2. specialize (E2 y Hy).
    rewrite (same_edge_trans y e e' E1 H) in E2. discriminate.
  - apply contains_edge_in_true in E2. destruct E2 as [y [Hy E2]].
    rewrite contains_edge_in_false in E1. specialize (E1 y Hy).
    rewrite same_edge_sym in H.
    rewrite (same_edge_trans y e' e E2 H) in E1. discriminate.
Qed.

(** ** Elementary steps that keep the invariant *)

Lemma valid_index_app (s : Shape) (ns : list point) (a : Z) :
  valid_index s a ->
  valid_index (mkShape (pos s) (nodes s ++ ns) (edges s) (faces s)) a.
Proof. unfold valid_index. simpl. rewrite length_app. lia. Qed.

Lemma inv_append_nodes (s : Shape) (ns : list point) :
  mesh_inv s -> NoDup (nodes s ++ ns) ->
  mesh_inv (mkShape (pos s) (nodes s ++ ns) (edges s) (faces s)).
Proof.
  intros [H1 H2 H3 H4 H5 H6] Hnd. constructor; simpl; auto.
  - destruct (nodes s); [discriminate | exact H2].
  - intros e He. destruct (H3 e He). unfold valid_index in *. simpl.
    rewrite length_app. lia.
Qed.

Lemma inv_append_edge (s : Shape) (e : edge_t) :
  mesh_inv s -> valid_index s (fst e) -> valid_index s (snd e) ->
  contains_edge s e = false ->
  mesh_inv (mkShape (pos s) (nodes s) (edges s ++ [e]) (faces s)).
Proof.
  intros [H1 H2 H3 H4 H5 H6] Va Vb Hc. constructor; simpl; auto.
  - intros y Hy. apply in_app_or in Hy. destruct Hy as [Hy | [<- | []]].
    + apply (H3 y Hy).
    + split; [exact Va | exact Vb].
  - apply pairwise_distinct_snoc; auto.
    apply contains_edge_in_false. exact Hc.
  - intros a b c Hf. destruct (H6 a b c Hf) as [E1 [E2 E3]].
    unfold contains_edge in *. simpl.
    repeat split; eapply contains_edge_in_incl; eauto; apply incl_appl, incl_refl.
Qed.

Lemma inv_add_edge_if_new (s : Shape) (e : edge_t) :
  mesh_inv s -> valid_index s (fst e) -> valid_index s (snd e) ->
  mesh_inv (mkShape (pos s) (nodes s) (add_edge_if_new (edges s) e) (faces s)).
Proof.
  intros Hs Va Vb. unfold add_edge_if_new.
  destruct (contains_edge_in (edges s) e) eqn:E.
  - destruct s; exact Hs.
  - apply inv_append_edge; auto.
Qed.

Lemma inv_append_face (s : Shape) (a b c : Z) :
  mesh_inv s -> contains_face s (a, b, c) = false ->
  contains_edge s (a, b) = true -> contains_edge s (a, c) = true ->
  contains_edge s (b, c) = true ->
  mesh_inv (mkShape (pos s) (nodes s) (edges s) (faces s ++ [(a, b, c)])).
Proof.
  intros [H1 H2 H3 H4 H5 H6] Hc Eab Eac Ebc. constructor; simpl; auto.
  - apply pairwise_distinct_snoc; auto.
    apply contains_face_in_false. exact Hc.
  - intros a' b' c' Hf. apply in_app_or in Hf.
    destruct Hf as [Hf | [Hf | []]]; [apply H6; exact Hf |].
    inversion Hf; subst. auto.
Qed.

Lemma contains_edge_valid (s : Shape) (e : edge_t) :
  mesh_inv s -> contains_edge s e = true ->
  valid_index s (fst e) /\ valid_index s (snd e).
Proof.
  intros Hs H. apply contains_edge_in_true in H. destruct H as [y [Hy E]].
  destruct (inv_edges_valid s Hs y Hy) as [V1 V2].
  apply same_edge_true in E. destruct E as [[<- <-] | [<- <-]]; auto.
Qed.

Lemma nth_error_valid (s : Shape) (k : nat) (p : point) :
  nth_error (nodes s) k = Some p -> valid_index s (Z.of_nat k).
Proof.
  intros H. unfold valid_index.
  assert (k < length (nodes s))%nat by (apply nth_error_Some; congruence). lia.
Qed.

(** ** [add_edge] keeps the invariant *)

Lemma add_edge_inv (s : Shape) (e : point * point) :
  mesh_inv s -> mesh_inv (add_edge s e).
Proof.
  intros Hs. unfold add_edge.
  destruct (find_node_cases s (to_local s (fst e))) as [[N1 E1] | [k1 [N1 E1]]];
  destruct (find_node_cases s (to_local s (snd e))) as [[N2 E2] | [k2 [N2 E2]]];
  rewrite E1, E2.
  - simpl. exact Hs.
  - replace (Z.of_nat k2 =? -1) with false by (symmetry; apply Z.eqb_neq; lia).
    simpl.
    apply (inv_append_edge
             (mkShape (pos s) (nodes s ++ [to_local s (fst e)]) (edges s) (faces s))
             (Z.of_nat k2, Z.of_nat (length (nodes s)))).
    + apply inv_append_nodes; [exact Hs |].
      apply NoDup_app; [apply (inv_nodes_unique s Hs) | repeat constructor; auto |].
      intros x Hx [<- | []]. contradiction.
    + simpl. apply valid_index_app. eapply nth_error_valid. exact N2.
    + unfold valid_index. simpl. rewrite length_app. simpl. lia.
    + unfold contains_edge. simpl.
      destruct (contains_edge_in (edges s) (Z.of_nat k2, Z.of_nat (length (nodes s)))) eqn:C; auto.
      apply (contains_edge_valid s _ Hs) in C. unfold valid_index in C. simpl in C. lia.
  - replace (Z.of_nat k1 =? -1) with false by (symmetry; apply Z.eqb_neq; lia).
    simpl.
    apply (inv_append_edge
             (mkShape (pos s) (nodes s ++ [to_local s (snd e)]) (edges s) (faces s))
             (Z.of_nat k1, Z.of_nat (length (nodes s)))).
    + apply inv_append_nodes; [exact Hs |].
      apply NoDup_app; [apply (inv_nodes_unique s Hs) | repeat constructor; auto |].
      intros x Hx [<- | []]. contradiction.
    + simpl. apply valid_index_app. eapply nth_error_valid. exact N1.
    + unfold valid_index. simpl. rewrite length_app. simpl. lia.
    + unfold contains_edge. simpl.
      destruct (contains_edge_in (edges s) (Z.of_nat k1, Z.of_nat (length (nodes s)))) eqn:C; auto.
      apply (contains_edge_valid s _ Hs) in C. unfold valid_index in C. simpl in C. lia.
  - replace (Z.of_nat k1 =? -1) with false by (symmetry; apply Z.eqb_neq; lia).
    replace (Z.of_nat k2 =? -1) with false by (symmetry; apply Z.eqb_neq; lia).
    simpl. destruct (contains_edge s (Z.of_nat k1, Z.of_nat k2)) eqn:C; [exact Hs |].
    apply inv_append_edge; auto; simpl; eapply nth_error_valid; eauto.
Qed.

(** ** [add_face] keeps the invariant *)

Lemma add_edge_if_new_contains (es : list edge_t) (e : edge_t) :
  contains_edge_in (add_edge_if_new es e) e = true.
Proof.
  unfold add_edge_if_new. destruct (contains_edge_in es e) eqn:E; [exact E |].
  apply contains_edge_in_true. exists e. split.
  - apply in_or_app. right. left. reflexivity.
  - apply same_edge_refl.
Qed.

Lemma add_edge_if_new_mono (es : list edge_t) (e x : edge_t) :
  contains_edge_in es x = true -> contains_edge_in (add_edge_if_new es e) x = true.
Proof.
  unfold add_edge_if_new. destruct (contains_edge_in es e); [auto |].
  apply contains_edge_in_incl. apply incl_appl, incl_refl.
Qed.

(** The closing part of [add_face], once the three corners are nodes. *)
Lemma add_face_core_inv (s : Shape) (k1 k2 k3 : Z) :
  mesh_inv s -> valid_index s k1 -> valid_index s k2 -> valid_index s k3 ->
  mesh_inv (mkShape (pos s) (nodes s)
              (fold_left add_edge_if_new [(k1, k2); (k1, k3); (k2, k3)] (edges s))
              (if contains_face s (k1, k2, k3) then faces s
               else faces s ++ [(k1, k2, k3)])).
Proof.
  intros Hs V1 V2 V3. simpl.
  pose proof (inv_add_edge_if_new s (k1, k2) Hs V1 V2) as I1.
  pose proof (inv_add_edge_if_new _ (k1, k3) I1 V1 V3) as I2. simpl in I2.
  pose proof (inv_add_edge_if_new _ (k2, k3) I2 V2 V3) as I3. simpl in I3.
  destruct (contains_face s (k1, k2, k3)) eqn:C; [exact I3 |].
  apply (inv_append_face _ k1 k2 k3 I3); unfold contains_edge, contains_face; simpl.
  - exact C.
  - apply add_edge_if_new_mono, add_edge_if_new_mono, add_edge_if_new_contains.
  - apply add_edge_if_new_mono, add_edge_if_new_contains.
  - apply add_edge_if_new_contains.
Qed.

Lemma NoDup_snoc {A : Type} (l : list A) (x : A) :
  NoDup l -> ~ In x l -> NoDup (l ++ [x]).
Proof.
  intros H1 H2. apply NoDup_app; [exact H1 | repeat constructor; auto |].
  intros y Hy [<- | []]. contradiction.
Qed.

Lemma in_snoc {A : Type} (l : list A) (x y : A) :
  In x (l ++ [y]) <-> In x l \/ x = y.
Proof.
  rewrite in_app_iff. simpl. intuition congruence.
Qed.

Lemma to_local_inj (s : Shape) (p q : point) :
  to_local s p = to_local s q -> p = q.
Proof.
  destruct p as [a b], q as [c d]. unfold to_local. simpl.
  intros H. inversion H. f_equal; lia.
Qed.

Lemma valid_index_nodes (s : Shape) (ns : list point) (k : Z) :
  0 <= k < Z.of_nat (length ns) ->
  valid_index (mkShape (pos s) ns (edges s) (faces s)) k.
Proof. intros H. exact H. Qed.

Lemma nth_error_lt_Z {A : Type} (l : list A) (k : nat) (x : A) :
  nth_error l k = Some x -> 0 <= Z.of_nat k < Z.of_nat (length l).
Proof.
  intros H. assert (k < length l)%nat by (apply nth_error_Some; congruence). lia.
Qed.

Lemma add_face_inv (s : Shape) (f : point * point * point) :
  mesh_inv s -> distinct_corners f -> mesh_inv (add_face s f).
Proof.
  intros Hs Hd. destruct f as [[q1 q2] q3]. destruct Hd as [D12 [D13 D23]].
  unfold add_face, add_missing_node.
  assert (P12 : to_local s q1 <> to_local s q2)
    by (intros E; apply D12; eapply to_local_inj; eauto).
  assert (P13 : to_local s q1 <> to_local s q3)
    by (intros E; apply D13; eapply to_local_inj; eauto).
  assert (P23 : to_local s q2 <> to_local s q3)
    by (intros E; apply D23; eapply to_local_inj; eauto).
  set (p1 := to_local s q1) in *. set (p2 := to_local s q2) in *.
  set (p3 := to_local s q3) in *.
  pose proof (inv_nodes_unique s Hs) as Hnd.
  destruct (find_node_cases s p1) as [[N1 E1] | [k1 [N1 E1]]];
  destruct (find_node_cases s p2) as [[N2 E2] | [k2 [N2 E2]]];
  destruct (find_node_cases s p3) as [[N3 E3] | [k3 [N3 E3]]];
  cbv zeta; rewrite E1, E2, E3;
  cbn [Z.eqb negb filter length Nat.eqb Nat.ltb Nat.leb add_missing_node Pos.eqb];
  repeat match goal with
         | H : nth_error _ ?k = Some _ |- context [Z.of_nat ?k =? -1] =>
             replace (Z.of_nat k =? -1) with false by (symmetry; apply Z.eqb_neq; lia)
         end;
  cbn [Z.eqb negb filter length Nat.eqb Nat.ltb Nat.leb add_missing_node Pos.eqb];
  try exact Hs;
  match goal with
  | |- mesh_inv (mkShape _ ?ns (fold_left _ [(?a, ?b); _; (_, ?c)] _) _) =>
      apply (add_face_core_inv (mkShape (pos s) ns (edges s) (faces s)) a b c)
  end;
  try (apply valid_index_nodes; rewrite ?length_app; simpl;
       repeat match goal with
              | H : nth_error _ _ = Some _ |- _ => apply nth_error_lt_Z in H
              end; lia);
  try exact (match s as s0 return mesh_inv s0 -> mesh_inv (mkShape (pos s0) (nodes s0) (edges s0) (faces s0))
             with mkShape _ _ _ _ => fun H => H end Hs).
  - apply (inv_append_nodes (mkShape (pos s) (nodes s ++ [p1]) (edges s) (faces s)) [p2]).
    + apply inv_append_nodes; [exact Hs | apply NoDup_snoc; auto].
    + simpl. apply NoDup_snoc; [apply NoDup_snoc; auto |].
      rewrite in_snoc. intros [H | H]; [contradiction | congruence].
  - apply (inv_append_nodes (mkShape (pos s) (nodes s ++ [p1]) (edges s) (faces s)) [p3]).
    + apply inv_append_nodes; [exact Hs | apply NoDup_snoc; auto].
    + simpl. apply NoDup_snoc; [apply NoDup_snoc; auto |].
      rewrite in_snoc. intros [H | H]; [contradiction | congruence].
  - apply inv_append_nodes; [exact Hs | apply NoDup_snoc; auto].
  - apply (inv_append_nodes (mkShape (pos s) (nodes s ++ [p2]) (edges s) (faces s)) [p3]).
    + apply inv_append_nodes; [exact Hs | apply NoDup_snoc; auto].
    + simpl. apply NoDup_snoc; [apply NoDup_snoc; auto |].
      rewrite in_snoc. intros [H | H]; [contradiction | congruence].
  - apply inv_append_nodes; [exact Hs | apply NoDup_snoc; auto].
  - apply inv_append_nodes; [exact Hs | apply NoDup_snoc; auto].
Qed.

(** ** Removals keep the invariant *)

Lemma shape_eta (s : Shape) : mkShape (pos s) (nodes s) (edges s) (faces s) = s.
Proof. destruct s; reflexivity. Qed.

Lemma inv_faces_sub (s : Shape) (fs : list face_t) :
  mesh_inv s -> (forall f, In f fs -> In f (faces s)) ->
  pairwise_distinct same_face fs ->
  mesh_inv (mkShape (pos s) (nodes s) (edges s) fs).
Proof.
  intros [H1 H2 H3 H4 H5 H6] Hsub Hpd. constructor; simpl; auto.
  intros a b c Hf. apply H6. apply Hsub. exact Hf.
Qed.

Lemma first_same_face_In (f : face_t) (fs : list face_t) (g : face_t) :
  first_same_face f fs = Some g -> In g fs.
Proof.
  induction fs as [|h t IH]; simpl; [discriminate |].
  destruct (same_face h f).
  - intros E. inversion E. left. reflexivity.
  - intros E. right. apply IH. exact E.
Qed.

Lemma mem_face_In (f : face_t) (fs : list face_t) :
  In f fs -> Py.mem face_eqb f fs = true.
Proof.
  intros H. unfold Py.mem. apply existsb_exists. exists f.
  split; [exact H | apply face_eqb_eq; reflexivity].
Qed.

Lemma remove_face_inv (s : Shape) (f : point * point * point) :
  mesh_inv s -> exists s', remove_face s f = Some s' /\ mesh_inv s'.
Proof.
  intros Hs. destruct f as [[q1 q2] q3]. unfold remove_face. cbv zeta.
  match goal with |- context [if ?c then Some s else _] => destruct c end.
  - exists s. auto.
  - match goal with |- context [first_same_face ?a ?b] =>
      destruct (first_same_face a b) as [g|] eqn:Eg end.
    + apply first_same_face_In in Eg. unfold list_remove.
      rewrite (mem_face_In g (faces s) Eg).
      eexists. split; [reflexivity |].
      apply inv_faces_sub; [exact Hs | |].
      * intros x Hx. eapply remove_first_In. exact Hx.
      * apply pairwise_distinct_remove_first. apply (inv_faces_unique s Hs).
    + exists s. auto.
Qed.

Lemma edge_index_from_cases (j1 j2 : Z) (es : list edge_t) (i : Z) :
  edge_index_from j1 j2 es i = -1 \/
  exists k e, nth_error es k = Some e /\ edge_index_from j1 j2 es i = i + Z.of_nat k /\
              (e = (j1, j2) \/ e = (j2, j1)).
Proof.
  revert i. induction es as [|h t IH]; intros i; simpl.
  - left. reflexivity.
  - destruct (edge_eqb h (j1, j2) || edge_eqb h (j2, j1)) eqn:E.
    + right. exists O, h. split; [reflexivity | split; [simpl; lia |]].
      apply orb_true_iff in E. destruct E as [E | E]; apply edge_eqb_eq in E; auto.
    + destruct (IH (i + 1)) as [H | [k [e [Hk [Hi He]]]]].
      * left. exact H.
      * right. exists (S k), e. split; [exact Hk | split; [rewrite Hi; lia | exact He]].
Qed.

Lemma remove_edge_inv (s : Shape) (e : point * point) :
  mesh_inv s -> exists s', remove_edge s e = Some s' /\ mesh_inv s'.
Proof.
  intros Hs. unfold remove_edge. cbv zeta.
  set (j1 := find_node s (to_local s (fst e))).
  set (j2 := find_node s (to_local s (snd e))).
  destruct ((j1 =? -1) || (j2 =? -1)); [exists s; auto |].
  destruct (edge_index_from_cases j1 j2 (edges s) 0) as [E | [k [e0 [Hk [E He0]]]]].
  - rewrite E. simpl. exists s. auto.
  - rewrite E. replace (0 + Z.of_nat k) with (Z.of_nat k) by lia.
    replace (Z.of_nat k =? -1) with false by (symmetry; apply Z.eqb_neq; lia).
    destruct (truthy _); [| exists s; auto].
    rewrite (remove_all_filter face_eqb (fun f => in_face j1 f && in_face j2 f) (faces s) face_eqb_eq).
    rewrite delitem_nat by (apply nth_error_Some; congruence).
    eexists. split; [reflexivity |].
    destruct Hs as [H1 H2 H3 H4 H5 H6]. constructor; simpl; auto.
    + intros y Hy. apply H3. eapply drop_at_In. exact Hy.
    + apply pairwise_distinct_drop_at. exact H4.
    + apply pairwise_distinct_filter. exact H5.
    + intros a b c Hf. apply filter_In in Hf. destruct Hf as [Hf Hinc].
      destruct (H6 a b c Hf) as [Eab [Eac Ebc]]. unfold contains_edge in *. simpl.
      assert (Hkeep : forall x, contains_edge_in (edges s) x = true ->
                (in_face (fst x) (a, b, c) = true) -> (in_face (snd x) (a, b, c) = true) ->
                contains_edge_in (Py.drop_at k (edges s)) x = true).
      { intros x Hx F1 F2. apply contains_edge_in_true in Hx.
        destruct Hx as [y [Hy Ey]]. apply contains_edge_in_true. exists y.
        split; [| exact Ey].
        eapply drop_at_In_other; [exact Hk | exact Hy |].
        intros ->. apply same_edge_true in Ey.
        assert (in_face j1 (a, b, c) && in_face j2 (a, b, c) = true).
        { destruct He0 as [-> | ->]; simpl in Ey;
            destruct Ey as [[-> ->] | [-> ->]]; rewrite F1, F2; reflexivity. }
        rewrite H in Hinc. discriminate. }
      repeat split; apply Hkeep; auto; simpl;
        rewrite ?Z.eqb_refl, ?orb_true_r; reflexivity.
Qed.

(** *** [remove_node] *)

Lemma select_collect_edges (i : Z) (es pre : list edge_t) :
  select (pre ++ es) (fst (collect_edges i es (Z.of_nat (length pre)))) =
  Some (filter (in_edge i) es).
Proof.
  revert pre. induction es as [|e es IH]; intros pre; simpl.
  - reflexivity.
  - specialize (IH (pre ++ [e])). rewrite length_app in IH. simpl in IH.
    rewrite <- app_assoc in IH. simpl in IH.
    replace (Z.of_nat (length pre + 1)) with (Z.of_nat (length pre) + 1) in IH by lia.
    destruct (collect_edges i es (Z.of_nat (length pre) + 1)) as [js nbrs].
    simpl in IH. destruct (in_edge i e); simpl; [| exact IH].
    rewrite IH. rewrite getitem_nat by (rewrite length_app; simpl; lia).
    rewrite nth_error_app2 by lia. rewrite Nat.sub_diag. reflexivity.
Qed.

Lemma select_collect_faces (i : Z) (fs pre : list face_t) :
  select (pre ++ fs) (collect_faces i fs (Z.of_nat (length pre))) =
  Some (filter (in_face i) fs).
Proof.
  revert pre. induction fs as [|f fs IH]; intros pre; simpl.
  - reflexivity.
  - specialize (IH (pre ++ [f])). rewrite length_app in IH. simpl in IH.
    rewrite <- app_assoc in IH. simpl in IH.
    replace (Z.of_nat (length pre + 1)) with (Z.of_nat (length pre) + 1) in IH by lia.
    destruct (in_face i f); simpl; [| exact IH].
    rewrite IH. rewrite getitem_nat by (rewrite length_app; simpl; lia).
    rewrite nth_error_app2 by lia. rewrite Nat.sub_diag. reflexivity.
Qed.

Lemma shift_index_eqb (i x y : Z) :
  x <> i -> y <> i -> (shift_index i x =? shift_index i y) = (x =? y).
Proof.
  intros Hx Hy. unfold shift_index.
  destruct (x >=? i) eqn:Ex; destruct (y >=? i) eqn:Ey;
    destruct (Z.eqb_spec x y); try reflexivity;
    try (apply Z.eqb_eq; lia); apply Z.eqb_neq; lia.
Qed.

Lemma same_edge_shift (i : Z) (e1 e2 : edge_t) :
  in_edge i e1 = false -> in_edge i e2 = false ->
  same_edge (shift_edge i e1) (shift_edge i e2) = same_edge e1 e2.
Proof.
  unfold in_edge. rewrite !orb_false_iff, !Z.eqb_neq. intros [A1 A2] [B1 B2].
  unfold same_edge, shift_edge. simpl.
  rewrite !shift_index_eqb by congruence. reflexivity.
Qed.

Lemma same_face_shift (i : Z) (f1 f2 : face_t) :
  in_face i f1 = false -> in_face i f2 = false ->
  same_face (shift_face i f1) (shift_face i f2) = same_face f1 f2.
Proof.
  destruct f1 as [[a b] c], f2 as [[a' b'] c']. unfold in_face.
  rewrite !orb_false_iff, !Z.eqb_neq. intros [[A1 A2] A3] [[B1 B2] B3].
  unfold same_face, set_eqb, shift_face, tuple3, Py.mem. simpl.
  rewrite !shift_index_eqb by congruence. reflexivity.
Qed.

Lemma negb_false_filter {A : Type} (f : A -> bool) (l : list A) (x : A) :
  In x (filter (fun y => negb (f y)) l) <-> In x l /\ f x = false.
Proof.
  rewrite filter_In. rewrite negb_true_iff. tauto.
Qed.

Lemma remove_node_inv (s : Shape) (n : point) :
  mesh_inv s -> exists s', remove_node s n = Some s' /\ mesh_inv s'.
Proof.
  intros Hs. unfold remove_node. cbv zeta.
  set (node := to_local s n).
  destruct (index_from_cases node (nodes s)) as [[Hn E] | [k [Hk [E _]]]].
  - rewrite E. simpl. exists s. auto.
  - rewrite E.
    replace (Z.of_nat k =? -1) with false by (symmetry; apply Z.eqb_neq; lia).
    destruct (point_eqb node (0, 0)) eqn:E0; [exists s; auto |].
    apply point_eqb_neq in E0.
    assert (Hk0 : (0 < k)%nat).
    { destruct k; [| lia]. rewrite (inv_origin s Hs) in Hk. congruence. }
    pose proof (select_collect_edges (Z.of_nat k) (edges s) []) as SE.
    pose proof (select_collect_faces (Z.of_nat k) (faces s) []) as SF.
    simpl in SE, SF.
    destruct (collect_edges (Z.of_nat k) (edges s) 0) as [edge_ids nbrs].
    simpl in SE.
    match goal with |- context [if ?c then Some s else _] => destruct c end;
      [exists s; auto |].
    rewrite SE, SF.
    rewrite (remove_all_filter edge_eqb (in_edge (Z.of_nat k)) (edges s) edge_eqb_eq).
    rewrite (remove_all_filter face_eqb (in_face (Z.of_nat k)) (faces s) face_eqb_eq).
    unfold _remove_node_direct. simpl.
    assert (Hlen : (k < length (nodes s))%nat) by (apply nth_error_Some; congruence).
    rewrite delitem_nat by exact Hlen.
    eexists. split; [reflexivity |].
    destruct Hs as [H1 H2 H3 H4 H5 H6]. constructor; cbn [nodes edges faces pos].
    + apply drop_at_NoDup. exact H1.
    + rewrite drop_at_nth_error_lt by exact Hk0. exact H2.
    + intros e He. apply in_map_iff in He. destruct He as [e0 [<- He0]].
      apply negb_false_filter in He0. destruct He0 as [He0 Hinc].
      destruct (H3 e0 He0) as [V1 V2].
      unfold in_edge in Hinc. apply orb_false_iff in Hinc.
      rewrite !Z.eqb_neq in Hinc. destruct Hinc as [I1 I2].
      unfold valid_index in *. simpl. rewrite drop_at_length by exact Hlen.
      unfold shift_index.
      destruct (fst e0 >=? Z.of_nat k) eqn:G1; destruct (snd e0 >=? Z.of_nat k) eqn:G2; lia.
    + apply (pairwise_distinct_map same_edge (shift_edge (Z.of_nat k))).
      * intros x y Hx Hy. apply negb_false_filter in Hx, Hy.
        apply same_edge_shift; tauto.
      * apply pairwise_distinct_filter. exact H4.
    + apply (pairwise_distinct_map same_face (shift_face (Z.of_nat k))).
      * intros x y Hx Hy. apply negb_false_filter in Hx, Hy.
        apply same_face_shift; tauto.
      * apply pairwise_distinct_filter. exact H5.
    + intros a b c Hf.
      apply (in_map_iff (shift_face (Z.of_nat k))) in Hf.
      destruct Hf as [[[a0 b0] c0] [Ef Hf]].
      apply negb_false_filter in Hf. destruct Hf as [Hf Hinc].
      simpl in Ef. inversion Ef; subst a b c. clear Ef.
      destruct (H6 a0 b0 c0 Hf) as [Eab [Eac Ebc]].
      unfold in_face in Hinc. rewrite !orb_false_iff in Hinc.
      rewrite !Z.eqb_neq in Hinc. destruct Hinc as [[Ia Ib] Ic].
      assert (Hkeep : forall x y, contains_edge s (x, y) = true ->
                x <> Z.of_nat k -> y <> Z.of_nat k ->
                contains_edge_in
                  (map (shift_edge (Z.of_nat k))
                       (filter (fun x => negb (in_edge (Z.of_nat k) x)) (edges s)))
                  (shift_index (Z.of_nat k) x, shift_index (Z.of_nat k) y) = true).
      { intros x y Hxy Hx Hy. apply contains_edge_in_true in Hxy.
        destruct Hxy as [e0 [He0 Ee0]].
        assert (Hni : in_edge (Z.of_nat k) e0 = false).
        { apply same_edge_true in Ee0. simpl in Ee0. unfold in_edge.
          apply orb_false_iff. rewrite !Z.eqb_neq.
          destruct Ee0 as [[-> ->] | [-> ->]]; auto. }
        apply contains_edge_in_true. exists (shift_edge (Z.of_nat k) e0). split.
        - apply in_map_iff. exists e0. split; [reflexivity |].
          apply negb_false_filter. auto.
        - change (shift_index (Z.of_nat k) x, shift_index (Z.of_nat k) y)
            with (shift_edge (Z.of_nat k) (x, y)).
          rewrite same_edge_shift; auto.
          unfold in_edge. simpl. apply orb_false_iff. rewrite !Z.eqb_neq. auto. }
      unfold contains_edge. simpl. repeat split; apply Hkeep; auto.
Qed.

(** ** The node loop of [merge_with] *)

Lemma dict_get_app (d d' : dict) (k : Z) :
  dict_get (d ++ d') k =
  match dict_get d k with Some v => Some v | None => dict_get d' k end.
Proof.
  induction d as [|[k' v] d IH]; simpl.
  - reflexivity.
  - destruct (k' =? k); [reflexivity | exact IH].
Qed.

Lemma absent_true (A : list point) (p : point) : absent A p = true <-> ~ In p A.
Proof.
  unfold absent. destruct (index_from_cases p A) as [[H E] | [k [Hk [E _]]]]; rewrite E.
  - split; [intros _; exact H | reflexivity].
  - split.
    + intros H. apply Z.eqb_eq in H. lia.
    + intros H. exfalso. apply H. eapply nth_error_In. exact Hk.
Qed.

Lemma absent_false (A : list point) (p : point) : absent A p = false <-> In p A.
Proof.
  destruct (absent A p) eqn:E.
  - apply absent_true in E. split; [discriminate | contradiction].
  - split; [intros _ | reflexivity].
    destruct (in_dec point_eq_dec p A) as [H | H]; [exact H |].
    apply absent_true in H. congruence.
Qed.

Lemma merge_nodes_snoc (A l : list point) (x : point) :
  merge_nodes A (l ++ [x]) =
  merge_node A (merge_nodes A l) (Z.of_nat (length l), x).
Proof.
  unfold merge_nodes, enumerate. rewrite enumerate_from_app, fold_left_app.
  reflexivity.
Qed.

Lemma index_from_self (p : point) (i : Z) : index_from p [p] i = i.
Proof. simpl. rewrite point_eqb_refl. reflexivity. Qed.

Lemma merge_nodes_spec (A l : list point) :
  NoDup l ->
  new_nodes (merge_nodes A l) = filter (absent A) l /\
  next_idx (merge_nodes A l) =
    Z.of_nat (length A) + Z.of_nat (length (new_nodes (merge_nodes A l))) /\
  (forall k p, nth_error l k = Some p ->
     translate (merge_nodes A l) (Z.of_nat k) =
       Some (index_from p (A ++ new_nodes (merge_nodes A l)) 0) /\
     dict_has (shared_dict (merge_nodes A l)) (Z.of_nat k) = negb (absent A p)) /\
  (forall a, a < 0 \/ Z.of_nat (length l) <= a ->
     dict_get (shared_dict (merge_nodes A l)) a = None /\
     dict_get (new_dict (merge_nodes A l)) a = None).
Proof.
  induction l as [|x l IH] using rev_ind; intros Hnd.
  - unfold merge_nodes. simpl. repeat split; try reflexivity; try lia.
    + destruct k; discriminate.
    + destruct k; discriminate.
  - assert (Hnd' : NoDup l /\ ~ In x l).
    { apply NoDup_app_remove_r in Hnd as Hl. split; [exact Hl |].
      intros Hin. apply NoDup_remove_2 in Hnd. rewrite app_nil_r in Hnd.
      contradiction. }
    destruct Hnd' as [Hl Hx].
    destruct (IH Hl) as [I1 [I2 [I3 I4]]]. clear IH.
    rewrite merge_nodes_snoc. set (m := merge_nodes A l) in *.
    set (n := Z.of_nat (length l)).
    destruct (I4 n (or_intror (Z.le_refl _))) as [Sn Nn].
    unfold merge_node.
    destruct (absent A x) eqn:Ex.
    + (* a new node *)
      unfold absent in Ex. rewrite Ex. cbn [negb].
      cbn [new_nodes next_idx shared_dict new_dict].
      assert (Hxnew : ~ In x (A ++ new_nodes m)).
      { intros H. apply in_app_or in H. destruct H as [H | H].
        - apply (proj1 (absent_true A x)) in H; [exact H | exact Ex].
        - rewrite I1 in H. apply filter_In in H. tauto. }
      split; [| split; [| split]].
      * rewrite filter_app, I1. simpl. fold (absent A x). unfold absent. rewrite Ex.
        reflexivity.
      * rewrite length_app. simpl. lia.
      * intros k p Hk.
        assert (Hkl : (k < length (l ++ [x]))%nat) by (apply nth_error_Some; congruence).
        rewrite length_app in Hkl. simpl in Hkl.
        destruct (Nat.eq_dec k (length l)) as [-> | Hne].
        -- rewrite nth_error_app2 in Hk by lia. rewrite Nat.sub_diag in Hk.
           simpl in Hk. inversion Hk; subst p. fold n.
           unfold translate, dict_has. cbn [shared_dict new_dict].
           rewrite Sn, dict_get_app, Nn. simpl. rewrite Z.eqb_refl.
           split.
           ++ f_equal. rewrite app_assoc. rewrite index_from_app_r by exact Hxnew.
              rewrite index_from_self. rewrite length_app. lia.
           ++ unfold absent. rewrite Ex. reflexivity.
        -- rewrite nth_error_app1 in Hk by lia.
           destruct (I3 k p Hk) as [T D].
           assert (Hp : In p (A ++ new_nodes m)).
           { apply in_or_app. destruct (absent A p) eqn:Ep.
             - right. rewrite I1. apply filter_In. split; [| exact Ep].
               eapply nth_error_In. exact Hk.
             - left. apply absent_false. exact Ep. }
           split; [| exact D].
           rewrite app_assoc, index_from_app_l by exact Hp.
           rewrite <- T. clear D. unfold translate, dict_has in *.
           cbn [shared_dict new_dict].
           destruct (dict_get (shared_dict m) (Z.of_nat k)) eqn:Es; [reflexivity |].
           rewrite dict_get_app, T. reflexivity.
      * intros a Ha. rewrite length_app in Ha. simpl in Ha.
        destruct (I4 a) as [Sa Na]; [lia |].
        split; [exact Sa |]. rewrite dict_get_app, Na. simpl.
        replace (n =? a) with false by (symmetry; apply Z.eqb_neq; unfold n; lia).
        reflexivity.
    + (* a shared node *)
      unfold absent in Ex. rewrite Ex. cbn [negb].
      cbn [new_nodes next_idx shared_dict new_dict].
      assert (HxA : In x A) by (apply absent_false; exact Ex).
      split; [| split; [| split]].
      * rewrite filter_app, I1. simpl. fold (absent A x). unfold absent. rewrite Ex.
        rewrite app_nil_r. reflexivity.
      * exact I2.
      * intros k p Hk.
        assert (Hkl : (k < length (l ++ [x]))%nat) by (apply nth_error_Some; congruence).
        rewrite length_app in Hkl. simpl in Hkl.
        destruct (Nat.eq_dec k (length l)) as [-> | Hne].
        -- rewrite nth_error_app2 in Hk by lia. rewrite Nat.sub_diag in Hk.
           simpl in Hk. inversion Hk; subst p. fold n.
           unfold translate, dict_has. cbn [shared_dict new_dict].
           rewrite dict_get_app, Sn. simpl. rewrite Z.eqb_refl.
           split.
           ++ f_equal. rewrite index_from_app_l by exact HxA. reflexivity.
           ++ unfold absent. rewrite Ex. reflexivity.
        -- rewrite nth_error_app1 in Hk by lia.
           destruct (I3 k p Hk) as [T D].
           assert (Hg : dict_get (shared_dict m ++ [(n, index_from x A 0)]) (Z.of_nat k) =
                        dict_get (shared_dict m) (Z.of_nat k)).
           { rewrite dict_get_app. destruct (dict_get (shared_dict m) (Z.of_nat k));
               [reflexivity |]. simpl.
             replace (n =? Z.of_nat k) with false
               by (symmetry; apply Z.eqb_neq; unfold n; lia).
             reflexivity. }
           unfold translate, dict_has in *. cbn [shared_dict new_dict].
           rewrite Hg. split; [exact T | exact D].
      * intros a Ha. rewrite length_app in Ha. simpl in Ha.
        destruct (I4 a) as [Sa Na]; [lia |].
        split; [| exact Na]. rewrite dict_get_app, Sa. simpl.
        replace (n =? a) with false by (symmetry; apply Z.eqb_neq; unfold n; lia).
        reflexivity.
Qed.

(** ** The index translation of [merge_with] *)

Section MergeImage.

Variables (A B : list point).
Hypothesis B_unique : NoDup B.

Let m := merge_nodes A B.
Let result := A ++ new_nodes m.

Lemma image_spec (k : nat) (p : point) :
  nth_error B k = Some p ->
  translate m (Z.of_nat k) = Some (image m (Z.of_nat k)) /\
  image m (Z.of_nat k) = index_from p result 0 /\
  In p result.
Proof.
  intros Hk. destruct (merge_nodes_spec A B B_unique) as [I1 [I2 [I3 I4]]].
  destruct (I3 k p Hk) as [T D]. fold m in T, D, I1.
  unfold image. rewrite T. repeat split.
  unfold result. apply in_or_app. destruct (absent A p) eqn:Ep.
  - right. rewrite I1. apply filter_In. split; [| exact Ep].
    eapply nth_error_In. exact Hk.
  - left. apply absent_false. exact Ep.
Qed.

Lemma image_nth (k : nat) (p : point) :
  nth_error B k = Some p ->
  exists j, image m (Z.of_nat k) = Z.of_nat j /\ nth_error result j = Some p.
Proof.
  intros Hk. destruct (image_spec k p Hk) as [_ [E Hin]].
  destruct (index_from_in p result 0 Hin) as [j [Hj [Ej _]]].
  exists j. split; [rewrite E, Ej; lia | exact Hj].
Qed.

Lemma image_range (a : Z) :
  0 <= a < Z.of_nat (length B) ->
  0 <= image m a < Z.of_nat (length result).
Proof.
  intros Ha.
  destruct (nth_error B (Z.to_nat a)) as [p|] eqn:Hp.
  - destruct (image_nth _ p Hp) as [j [Ej Hj]].
    rewrite Z2Nat.id in Ej by lia. rewrite Ej.
    apply nth_error_lt_Z in Hj. exact Hj.
  - apply nth_error_None in Hp. lia.
Qed.

Lemma image_translate (a : Z) :
  0 <= a < Z.of_nat (length B) -> translate m a = Some (image m a).
Proof.
  intros Ha.
  destruct (nth_error B (Z.to_nat a)) as [p|] eqn:Hp.
  - destruct (image_spec _ p Hp) as [T _].
    rewrite Z2Nat.id in T by lia. exact T.
  - apply nth_error_None in Hp. lia.
Qed.

Lemma image_inj (a b : Z) :
  0 <= a < Z.of_nat (length B) -> 0 <= b < Z.of_nat (length B) ->
  image m a = image m b -> a = b.
Proof.
  intros Ha Hb E.
  destruct (nth_error B (Z.to_nat a)) as [p|] eqn:Hp;
    [| apply nth_error_None in Hp; lia].
  destruct (nth_error B (Z.to_nat b)) as [q|] eqn:Hq;
    [| apply nth_error_None in Hq; lia].
  destruct (image_nth _ p Hp) as [j [Ej Hj]].
  destruct (image_nth _ q Hq) as [j' [Ej' Hj']].
  rewrite Z2Nat.id in Ej, Ej' by lia.
  assert (j = j') by lia. subst j'.
  assert (p = q) by congruence. subst q.
  assert (Z.to_nat a = Z.to_nat b) by (eapply nth_error_NoDup_eq; eauto).
  lia.
Qed.

Lemma image_eqb (a b : Z) :
  0 <= a < Z.of_nat (length B) -> 0 <= b < Z.of_nat (length B) ->
  (image m a =? image m b) = (a =? b).
Proof.
  intros Ha Hb. destruct (Z.eqb_spec a b) as [-> | Hne].
  - apply Z.eqb_refl.
  - apply Z.eqb_neq. intros E. apply Hne. apply image_inj; assumption.
Qed.

Lemma image_shared (a : Z) :
  0 <= a < Z.of_nat (length B) ->
  if dict_has (shared_dict m) a
  then image m a < Z.of_nat (length A)
  else Z.of_nat (length A) <= image m a.
Proof.
  intros Ha.
  destruct (nth_error B (Z.to_nat a)) as [p|] eqn:Hp;
    [| apply nth_error_None in Hp; lia].
  destruct (merge_nodes_spec A B B_unique) as [I1 [I2 [I3 I4]]].
  destruct (I3 _ p Hp) as [T D]. fold m in T, D, I1.
  rewrite Z2Nat.id in T, D by lia.
  unfold image. rewrite T, D.
  destruct (absent A p) eqn:Ep; simpl.
  - apply absent_true in Ep. rewrite index_from_app_r by exact Ep.
    destruct (index_from_cases p (new_nodes m)) as [[Hn E] | [k [Hk [E _]]]].
    + exfalso. apply Hn. rewrite I1. apply filter_In. split.
      * eapply nth_error_In. exact Hp.
      * apply absent_true. exact Ep.
    + destruct (index_from_in p (new_nodes m) (0 + Z.of_nat (length A)))
        as [k' [Hk' [E' _]]]; [eapply nth_error_In; exact Hk |].
      rewrite E'. lia.
  - apply absent_false in Ep. rewrite index_from_app_l by exact Ep.
    destruct (index_from_in p A 0 Ep) as [k [Hk [E _]]]. rewrite E.
    apply nth_error_lt_Z in Hk. lia.
Qed.

Lemma result_NoDup : NoDup A -> NoDup result.
Proof.
  intros HA. destruct (merge_nodes_spec A B B_unique) as [I1 _]. fold m in I1.
  unfold result. rewrite I1. apply NoDup_app.
  - exact HA.
  - apply NoDup_filter. exact B_unique.
  - intros x Hx Hf. apply filter_In in Hf. destruct Hf as [_ Hf].
    apply absent_true in Hf. contradiction.
Qed.

Lemma same_edge_image (e1 e2 : edge_t) :
  0 <= fst e1 < Z.of_nat (length B) -> 0 <= snd e1 < Z.of_nat (length B) ->
  0 <= fst e2 < Z.of_nat (length B) -> 0 <= snd e2 < Z.of_nat (length B) ->
  same_edge (image_edge m e1) (image_edge m e2) = same_edge e1 e2.
Proof.
  intros. unfold same_edge, image_edge. simpl.
  rewrite !image_eqb by assumption. reflexivity.
Qed.

Lemma same_face_image (f1 f2 : face_t) :
  (forall x, In x (tuple3 f1) -> 0 <= x < Z.of_nat (length B)) ->
  (forall x, In x (tuple3 f2) -> 0 <= x < Z.of_nat (length B)) ->
  same_face (image_face m f1) (image_face m f2) = same_face f1 f2.
Proof.
  destruct f1 as [[a b] c], f2 as [[a' b'] c']. simpl. intros H1 H2.
  unfold same_face, set_eqb, image_face, tuple3, Py.mem. simpl.
  rewrite !image_eqb by auto. reflexivity.
Qed.

End MergeImage.

(** ** The copying loops of [merge_with] *)

Lemma merge_edges_fold (ours : list edge_t) (m : merge_maps) (es acc : list edge_t) :
  (forall e, In e es ->
     translate m (fst e) = Some (image m (fst e)) /\
     translate m (snd e) = Some (image m (snd e))) ->
  fold_left (merge_edge ours m) es (Some acc) =
  Some (acc ++ map (image_edge m) (filter (fun e => negb (have_edge ours m e)) es)).
Proof.
  revert acc. induction es as [|e es IH]; intros acc H.
  - simpl. rewrite app_nil_r. reflexivity.
  - destruct (H e (or_introl eq_refl)) as [T1 T2].
    assert (Hstep : merge_edge ours m (Some acc) e =
                    Some (if have_edge ours m e then acc else acc ++ [image_edge m e])).
    { unfold merge_edge. rewrite T1, T2. unfold have_edge, image_edge.
      destruct (dict_has (shared_dict m) (fst e) && dict_has (shared_dict m) (snd e) &&
                contains_edge_in ours (image m (fst e), image m (snd e))); reflexivity. }
    cbn [fold_left filter]. rewrite Hstep.
    destruct (have_edge ours m e); cbn [negb map].
    + apply IH. intros x Hx. apply H. right. exact Hx.
    + rewrite IH by (intros x Hx; apply H; right; exact Hx).
      rewrite <- app_assoc. reflexivity.
Qed.

Lemma merge_faces_fold (ours : list face_t) (m : merge_maps) (fs acc : list face_t) :
  (forall f x, In f fs -> In x (tuple3 f) -> translate m x = Some (image m x)) ->
  fold_left (merge_face ours m) fs (Some acc) =
  Some (acc ++ map (image_face m) (filter (fun f => negb (have_face ours m f)) fs)).
Proof.
  revert acc. induction fs as [|f fs IH]; intros acc H.
  - simpl. rewrite app_nil_r. reflexivity.
  - assert (Hstep : merge_face ours m (Some acc) f =
                    Some (if have_face ours m f then acc else acc ++ [image_face m f])).
    { destruct f as [[a b] c]. unfold merge_face.
      rewrite (H (a, b, c) a), (H (a, b, c) b), (H (a, b, c) c)
        by (simpl; auto).
      unfold have_face, image_face.
      destruct (dict_has (shared_dict m) a && dict_has (shared_dict m) b &&
                dict_has (shared_dict m) c &&
                contains_face_in ours (image m a, image m b, image m c)); reflexivity. }
    cbn [fold_left filter]. rewrite Hstep.
    destruct (have_face ours m f); cbn [negb map].
    + apply IH. intros x y Hx. apply H. right. exact Hx.
    + rewrite IH by (intros x y Hx; apply H; right; exact Hx).
      rewrite <- app_assoc. reflexivity.
Qed.

Lemma NoDup_map_shift (d : point) (l : list point) :
  NoDup l -> NoDup (map (fun n : point => (fst n + fst d, snd n + snd d)) l).
Proof.
  induction 1 as [|x l Hx Hl IH]; simpl; constructor; auto.
  intros Hin. apply in_map_iff in Hin. destruct Hin as [y [E Hy]].
  assert (y = x).
  { destruct x, y. simpl in E. inversion E. f_equal; lia. }
  subst. contradiction.
Qed.

(** The result of [merge_with] in closed form, for another mesh whose nodes
    are unique and whose indices refer to its nodes. *)
Lemma merge_with_closed_form (s other : Shape) :
  NoDup (nodes other) -> indices_closed other ->
  merge_with s other =
  Some (mkShape (pos s) (nodes s ++ new_nodes (maps_of s other))
          (edges s ++ map (image_edge (maps_of s other))
                        (filter (fun e => negb (have_edge (edges s) (maps_of s other) e))
                                (edges other)))
          (faces s ++ map (image_face (maps_of s other))
                        (filter (fun f => negb (have_face (faces s) (maps_of s other) f))
                                (faces other)))).
Proof.
  intros Hnd [HE HF].
  assert (HB : NoDup (rebased_nodes s other)).
  { apply (NoDup_map_shift
             (fst (pos other) - fst (pos s), snd (pos other) - snd (pos s))).
    exact Hnd. }
  assert (Hlen : length (rebased_nodes s other) = length (nodes other))
    by apply length_map.
  change (merge_with s other) with
    (match fold_left (merge_edge (edges s) (maps_of s other)) (edges other) (Some []),
           fold_left (merge_face (faces s) (maps_of s other)) (faces other) (Some []) with
     | Some new_edges, Some new_faces =>
         Some (mkShape (pos s) (nodes s ++ new_nodes (maps_of s other))
                       (edges s ++ new_edges) (faces s ++ new_faces))
     | _, _ => None
     end).
  rewrite merge_edges_fold, merge_faces_fold.
  - reflexivity.
  - intros f x Hf Hx. destruct f as [[a b] c]. destruct (HF a b c Hf) as [Va [Vb Vc]].
    apply (image_translate (nodes s) (rebased_nodes s other) HB). rewrite Hlen.
    simpl in Hx. destruct Hx as [<- | [<- | [<- | []]]]; assumption.
  - intros e He. destruct (HE e He) as [Va Vb].
    split; apply (image_translate (nodes s) (rebased_nodes s other) HB);
      rewrite Hlen; assumption.
Qed.

(** ** [merge_with]: what the merged mesh contains *)

Lemma inv_indices_closed (s : Shape) : mesh_inv s -> indices_closed s.
Proof.
  intros Hs. split.
  - apply (inv_edges_valid s Hs).
  - intros a b c Hf. destruct (inv_faces_edges s Hs a b c Hf) as [Eab [Eac Ebc]].
    destruct (contains_edge_valid s _ Hs Eab) as [Va Vb].
    destruct (contains_edge_valid s _ Hs Ebc) as [_ Vc].
    simpl in *. auto.
Qed.

Lemma filter_none {A : Type} (f : A -> bool) (l : list A) :
  (forall x, In x l -> f x = false) -> filter f l = [].
Proof.
  induction l as [|h t IH]; intros H; simpl.
  - reflexivity.
  - rewrite (H h) by (left; reflexivity). apply IH. intros x Hx. apply H. right. exact Hx.
Qed.

Section MergeFacts.

Variables (s other : Shape).
Hypothesis other_nodes_unique : NoDup (nodes other).
Hypothesis other_closed : indices_closed other.

Let B := rebased_nodes s other.
Let m := maps_of s other.
Let new_edges :=
  map (image_edge m) (filter (fun e => negb (have_edge (edges s) m e)) (edges other)).
Let new_faces :=
  map (image_face m) (filter (fun f => negb (have_face (faces s) m f)) (faces other)).

Lemma rebased_unique : NoDup B.
Proof.
  apply (NoDup_map_shift
           (fst (pos other) - fst (pos s), snd (pos other) - snd (pos s))).
  exact other_nodes_unique.
Qed.

Lemma rebased_length : length B = length (nodes other).
Proof. apply length_map. Qed.

Lemma other_edge_range (e : edge_t) :
  In e (edges other) ->
  0 <= fst e < Z.of_nat (length B) /\ 0 <= snd e < Z.of_nat (length B).
Proof.
  intros He. rewrite rebased_length. apply (proj1 other_closed e He).
Qed.

Lemma other_face_range (f : face_t) (x : Z) :
  In f (faces other) -> In x (tuple3 f) -> 0 <= x < Z.of_nat (length B).
Proof.
  intros Hf Hx. rewrite rebased_length. destruct f as [[a b] c].
  destruct (proj2 other_closed a b c Hf) as [Va [Vb Vc]].
  simpl in Hx. destruct Hx as [<- | [<- | [<- | []]]]; assumption.
Qed.

(** Every edge of the other mesh has its image in the merged edge list. *)
Lemma merged_contains_edge (e : edge_t) :
  In e (edges other) ->
  contains_edge_in (edges s ++ new_edges) (image_edge m e) = true.
Proof.
  intros He. destruct (have_edge (edges s) m e) eqn:Hh.
  - unfold have_edge in Hh. apply andb_true_iff in Hh. destruct Hh as [_ Hc].
    eapply contains_edge_in_incl; [| exact Hc]. apply incl_appl, incl_refl.
  - apply contains_edge_in_true. exists (image_edge m e). split.
    + apply in_or_app. right. unfold new_edges. apply in_map.
      apply filter_In. split; [exact He | rewrite Hh; reflexivity].
    + apply same_edge_refl.
Qed.

(** The same for an index pair that the other mesh holds as an edge in
    either orientation. *)
Lemma merged_contains_same_edge (x : edge_t) :
  contains_edge_in (edges other) x = true ->
  0 <= fst x < Z.of_nat (length B) -> 0 <= snd x < Z.of_nat (length B) ->
  contains_edge_in (edges s ++ new_edges) (image_edge m x) = true.
Proof.
  intros Hx R1 R2. apply contains_edge_in_true in Hx. destruct Hx as [y [Hy E]].
  destruct (other_edge_range y Hy) as [Y1 Y2].
  rewrite <- (contains_edge_in_same _ (image_edge m y) (image_edge m x)).
  - apply merged_contains_edge. exact Hy.
  - unfold m, maps_of. fold B.
    rewrite (same_edge_image (nodes s) B rebased_unique) by assumption. exact E.
Qed.

Lemma merged_contains_face (f : face_t) :
  In f (faces other) ->
  contains_face_in (faces s ++ new_faces) (image_face m f) = true.
Proof.
  intros Hf. destruct (have_face (faces s) m f) eqn:Hh.
  - unfold have_face in Hh. destruct f as [[a b] c].
    apply andb_true_iff in Hh. destruct Hh as [_ Hc].
    apply contains_face_in_true in Hc. destruct Hc as [y [Hy E]].
    apply contains_face_in_true. exists y. split; [| exact E].
    apply in_or_app. left. exact Hy.
  - apply contains_face_in_true. exists (image_face m f). split.
    + apply in_or_app. right. unfold new_faces. apply in_map.
      apply filter_In. split; [exact Hf | rewrite Hh; reflexivity].
    + apply same_face_refl.
Qed.

(** *** Merging a second time *)

Let s1 := mkShape (pos s) (nodes s ++ new_nodes m) (edges s ++ new_edges)
                  (faces s ++ new_faces).
Let m2 := maps_of s1 other.

Lemma rebased_again : rebased_nodes s1 other = B.
Proof. reflexivity. Qed.

Lemma rebased_all_present (p : point) : In p B -> In p (nodes s ++ new_nodes m).
Proof.
  intros Hp. apply In_nth_error in Hp. destruct Hp as [k Hk].
  apply (image_spec (nodes s) B rebased_unique k p Hk).
Qed.

Lemma second_new_nodes : new_nodes m2 = [].
Proof.
  destruct (merge_nodes_spec (nodes s1) B rebased_unique) as [I1 _].
  unfold m2, maps_of. rewrite rebased_again, I1.
  apply filter_none. intros p Hp. apply absent_false.
  apply rebased_all_present. exact Hp.
Qed.

Lemma second_image (a : Z) :
  0 <= a < Z.of_nat (length B) ->
  image m2 a = image m a /\ dict_has (shared_dict m2) a = true.
Proof.
  intros Ha.
  destruct (nth_error B (Z.to_nat a)) as [p|] eqn:Hp;
    [| apply nth_error_None in Hp; lia].
  destruct (merge_nodes_spec (nodes s1) B rebased_unique) as [I1 [I2 [I3 I4]]].
  destruct (I3 _ p Hp) as [T D]. rewrite Z2Nat.id in T, D by lia.
  pose proof second_new_nodes as Hnil. unfold m2, maps_of in Hnil.
  rewrite rebased_again in Hnil. rewrite Hnil, app_nil_r in T.
  destruct (image_spec (nodes s) B rebased_unique _ p Hp) as [_ [E Hin]].
  rewrite Z2Nat.id in E by lia.
  unfold m2, maps_of. rewrite rebased_again. split.
  - unfold image at 1. rewrite T. symmetry. exact E.
  - rewrite D. apply negb_true_iff. apply absent_false. exact Hin.
Qed.

Lemma second_have_edge (e : edge_t) :
  In e (edges other) -> have_edge (edges s1) m2 e = true.
Proof.
  intros He. destruct (other_edge_range e He) as [R1 R2].
  destruct (second_image _ R1) as [E1 D1]. destruct (second_image _ R2) as [E2 D2].
  unfold have_edge. rewrite D1, D2. unfold image_edge. rewrite E1, E2. simpl.
  apply (merged_contains_edge e He).
Qed.

Lemma second_have_face (f : face_t) :
  In f (faces other) -> have_face (faces s1) m2 f = true.
Proof.
  intros Hf. pose proof (other_face_range f) as R. pose proof (merged_contains_face f Hf) as C.
  destruct f as [[a b] c].
  destruct (second_image a) as [Ea Da]; [apply (R a Hf); simpl; auto |].
  destruct (second_image b) as [Eb Db]; [apply (R b Hf); simpl; auto |].
  destruct (second_image c) as [Ec Dc]; [apply (R c Hf); simpl; auto |].
  unfold have_face. rewrite Da, Db, Dc. unfold image_face. rewrite Ea, Eb, Ec. simpl.
  exact C.
Qed.

Lemma merge_with_first : merge_with s other = Some s1.
Proof. apply merge_with_closed_form; assumption. Qed.

Lemma merge_with_second : merge_with s1 other = Some s1.
Proof.
  rewrite merge_with_closed_form by assumption.
  fold m2. rewrite second_new_nodes.
  rewrite (filter_none (fun e => negb (have_edge (edges s1) m2 e)))
    by (intros e He; rewrite second_have_edge by exact He; reflexivity).
  rewrite (filter_none (fun f => negb (have_face (faces s1) m2 f)))
    by (intros f Hf; rewrite second_have_face by exact Hf; reflexivity).
  simpl. rewrite !app_nil_r. reflexivity.
Qed.

End MergeFacts.

(** ** [merge_with] keeps the invariant *)

Lemma merge_with_inv (s other : Shape) :
  mesh_inv s -> mesh_inv other ->
  exists s', merge_with s other = Some s' /\ mesh_inv s'.
Proof.
  intros Hs Ho.
  pose proof (inv_nodes_unique other Ho) as Hnd.
  pose proof (inv_indices_closed other Ho) as Hcl.
  pose proof (inv_indices_closed s Hs) as Hcls.
  eexists. split; [apply merge_with_first; assumption |].
  set (B := rebased_nodes s other). set (m := maps_of s other).
  pose proof (rebased_unique s other Hnd) as HB. fold B in HB.
  pose proof (other_edge_range s other Hcl) as RE. fold B in RE.
  pose proof (other_face_range s other Hcl) as RF. fold B in RF.
  assert (Hlen : forall a, 0 <= a < Z.of_nat (length (nodes s)) ->
                 0 <= a < Z.of_nat (length (nodes s ++ new_nodes m)))
    by (intros a Ha; rewrite length_app; lia).
  constructor; cbn [nodes edges faces pos].
  - apply (result_NoDup (nodes s) B HB). apply (inv_nodes_unique s Hs).
  - pose proof (inv_origin s Hs) as H0. destruct (nodes s); [discriminate | exact H0].
  - intros e He. unfold valid_index. cbn [nodes]. apply in_app_or in He.
    destruct He as [He | He].
    + destruct (inv_edges_valid s Hs e He). split; apply Hlen; assumption.
    + apply in_map_iff in He. destruct He as [e0 [<- He0]].
      apply filter_In in He0. destruct He0 as [He0 _]. destruct (RE e0 He0).
      split; apply (image_range (nodes s) B HB); assumption.
  - apply pairwise_distinct_app. split; [apply (inv_edges_unique s Hs) | split].
    + apply (pairwise_distinct_map2 same_edge same_edge).
      * intros x y Hx Hy. apply filter_In in Hx, Hy.
        destruct (RE x (proj1 Hx)), (RE y (proj1 Hy)).
        apply (same_edge_image (nodes s) B HB); assumption.
      * apply pairwise_distinct_filter. apply (inv_edges_unique other Ho).
    + intros x y Hx Hy. apply in_map_iff in Hy. destruct Hy as [e0 [<- He0]].
      apply filter_In in He0. destruct He0 as [He0 Hh].
      apply negb_true_iff in Hh. destruct (RE e0 He0) as [R1 R2].
      destruct (inv_edges_valid s Hs x Hx) as [V1 V2]. unfold valid_index in V1, V2.
      pose proof (image_shared (nodes s) B HB _ R1) as S1.
      pose proof (image_shared (nodes s) B HB _ R2) as S2.
      change (merge_nodes (nodes s) B) with m in S1, S2. unfold have_edge in Hh.
      destruct (dict_has (shared_dict m) (fst e0)).
      * destruct (dict_has (shared_dict m) (snd e0)).
        -- simpl in Hh. rewrite contains_edge_in_false in Hh. apply Hh. exact Hx.
        -- apply same_edge_false. unfold image_edge. cbn [fst snd]. lia.
      * apply same_edge_false. unfold image_edge. cbn [fst snd]. lia.
  - apply pairwise_distinct_app. split; [apply (inv_faces_unique s Hs) | split].
    + apply (pairwise_distinct_map2 same_face same_face).
      * intros x y Hx Hy. apply filter_In in Hx, Hy.
        apply (same_face_image (nodes s) B HB).
        -- intros z Hz. apply (RF x z (proj1 Hx) Hz).
        -- intros z Hz. apply (RF y z (proj1 Hy) Hz).
      * apply pairwise_distinct_filter. apply (inv_faces_unique other Ho).
    + intros x y Hx Hy. apply in_map_iff in Hy. destruct Hy as [f0 [<- Hf0]].
      apply filter_In in Hf0. destruct Hf0 as [Hf0 Hh].
      apply negb_true_iff in Hh.
      destruct (same_face x (image_face m f0)) eqn:Esf; [| reflexivity].
      exfalso. pose proof (proj1 (same_face_true _ _) Esf) as Hset.
      destruct x as [[xa xb] xc]. destruct (proj2 Hcls xa xb xc Hx) as [Va [Vb Vc]].
      unfold valid_index in Va, Vb, Vc.
      assert (Hxv : forall z, In z (tuple3 (xa, xb, xc)) ->
                              0 <= z < Z.of_nat (length (nodes s))).
      { simpl. intros z [<- | [<- | [<- | []]]]; assumption. }
      destruct f0 as [[a b] c].
      pose proof (image_shared (nodes s) B HB a (RF _ a Hf0 (or_introl eq_refl))) as Sa.
      pose proof (image_shared (nodes s) B HB b
                    (RF _ b Hf0 (or_intror (or_introl eq_refl)))) as Sb.
      pose proof (image_shared (nodes s) B HB c
                    (RF _ c Hf0 (or_intror (or_intror (or_introl eq_refl))))) as Sc.
      change (merge_nodes (nodes s) B) with m in Sa, Sb, Sc. unfold have_face in Hh.
      assert (Ha' : 0 <= image m a < Z.of_nat (length (nodes s)))
        by (apply Hxv, Hset; simpl; auto).
      assert (Hb' : 0 <= image m b < Z.of_nat (length (nodes s)))
        by (apply Hxv, Hset; simpl; auto).
      assert (Hc' : 0 <= image m c < Z.of_nat (length (nodes s)))
        by (apply Hxv, Hset; simpl; auto).
      destruct (dict_has (shared_dict m) a); [| lia].
      destruct (dict_has (shared_dict m) b); [| lia].
      destruct (dict_has (shared_dict m) c); [| lia].
      cbn [andb] in Hh. rewrite contains_face_in_false in Hh.
      rewrite (Hh _ Hx) in Esf. discriminate.
  - intros a b c Hf. unfold contains_edge. cbn [edges]. apply in_app_or in Hf.
    destruct Hf as [Hf | Hf].
    + destruct (inv_faces_edges s Hs a b c Hf) as [Eab [Eac Ebc]].
      repeat split; eapply contains_edge_in_incl; eauto; apply incl_appl, incl_refl.
    + apply in_map_iff in Hf. destruct Hf as [[[a0 b0] c0] [Ef Hf0]].
      apply filter_In in Hf0. destruct Hf0 as [Hf0 _].
      simpl in Ef. inversion Ef; subst a b c. clear Ef.
      destruct (inv_faces_edges other Ho a0 b0 c0 Hf0) as [Eab [Eac Ebc]].
      pose proof (RF _ a0 Hf0 (or_introl eq_refl)) as Ra.
      pose proof (RF _ b0 Hf0 (or_intror (or_introl eq_refl))) as Rb.
      pose proof (RF _ c0 Hf0 (or_intror (or_intror (or_introl eq_refl)))) as Rc.
      repeat split.
      * apply (merged_contains_same_edge s other Hnd Hcl (a0, b0)); assumption.
      * apply (merged_contains_same_edge s other Hnd Hcl (a0, c0)); assumption.
      * apply (merged_contains_same_edge s other Hnd Hcl (b0, c0)); assumption.
Qed.

(** ** Editing sessions *)

Lemma apply_op_inv (s : Shape) (op : mesh_op) :
  mesh_inv s -> op_ok op -> exists s', apply_op s op = Some s' /\ mesh_inv s'.
Proof.
  intros Hs Hop. destruct op; simpl in *.
  - eexists. split; [reflexivity | apply add_edge_inv; exact Hs].
  - eexists. split; [reflexivity | apply add_face_inv; assumption].
  - apply remove_node_inv; exact Hs.
  - apply remove_edge_inv; exact Hs.
  - apply remove_face_inv; exact Hs.
  - apply merge_with_inv; assumption.
Qed.

(** ** The mesh invariant over editing sessions *)

(** C1, as the spec states it, fails: a face whose picked coordinates repeat
    a grid point that the mesh does not hold yet makes [add_face] append that
    point twice, so two nodes share a coordinate afterwards. *)
Lemma add_face_repeated_corner_breaks_invariant :
  mesh_inv (mkShape (0, 0) [(0, 0)] [] []) /\
  apply_ops (mkShape (0, 0) [(0, 0)] [] []) [AddFace ((1, 0), (1, 0), (0, 0))] =
    Some (mkShape (0, 0) [(0, 0); (1, 0); (1, 0)] [(1, 2); (1, 0); (2, 0)] [(1, 2, 0)]) /\
  ~ mesh_inv (mkShape (0, 0) [(0, 0); (1, 0); (1, 0)] [(1, 2); (1, 0); (2, 0)] [(1, 2, 0)]).
Proof.
  split; [| split].
  - constructor; simpl.
    + repeat constructor. intros [].
    + reflexivity.
    + intros e [].
    + exact I.
    + exact I.
    + intros a b c [].
  - reflexivity.
  - intros H. pose proof (inv_nodes_unique _ H) as Hnd. simpl in Hnd.
    inversion Hnd as [|x l Hx Hl]; subst.
    inversion Hl as [|y l' Hy Hl']; subst.
    apply Hy. left. reflexivity.
Qed.

(** C1 (amended): for every mesh state satisfying the data-model invariant
    and every finite sequence of [add_edge], [add_face], [remove_node],
    [remove_edge], [remove_face] and [merge_with] calls in which each added
    face has three different corner coordinates and each merged-in mesh
    satisfies the invariant itself, every call returns and the resulting
    state satisfies the invariant again: node coordinates are unique, node 0
    is the origin, edge end points are valid node indices, no edge or face
    occurs twice under order-independent equality, and the three edges of
    every face are in the edge list. *)
Theorem mesh_ops_preserve_invariant (s : Shape) (ops : list mesh_op) :
  mesh_inv s -> Forall op_ok ops ->
  exists s', apply_ops s ops = Some s' /\ mesh_inv s'.
Proof.
  intros Hs Hops. revert s Hs.
  induction Hops as [|op ops Hop Hops IH]; intros s Hs; simpl.
  - exists s. split; [reflexivity | exact Hs].
  - destruct (apply_op_inv s op Hs Hop) as [s1 [E1 H1]]. rewrite E1.
    apply IH. exact H1.
Qed.

Lemma mesh_ops_preserve_invariant_witness :
  exists s',
    apply_ops (mkShape (0, 0) [(0, 0)] [] [])
      [AddEdge ((0, 0), (1, 0)); AddFace ((0, 0), (1, 0), (0, 1));
       MergeWith (mkShape (1, 1) [(0, 0)] [] []); AddEdge ((1, 1), (0, 1));
       RemoveEdge ((0, 0), (1, 0)); RemoveFace ((1, 1), (1, 0), (0, 1));
       RemoveNode (1, 1)] = Some s' /\ mesh_inv s'.
Proof.
  apply mesh_ops_preserve_invariant.
  - constructor; simpl.
    + repeat constructor. intros [].
    + reflexivity.
    + intros e [].
    + exact I.
    + exact I.
    + intros a b c [].
  - apply Forall_cons; [exact I |].
    apply Forall_cons; [simpl; repeat split; discriminate |].
    apply Forall_cons.
    { constructor; simpl.
      - repeat constructor. intros [].
      - reflexivity.
      - intros e [].
      - exact I.
      - exact I.
      - intros a b c []. }
    repeat (apply Forall_cons; [exact I |]). apply Forall_nil.
Defined.

(** ** Merging twice *)

(** C2: [merge_with] is idempotent.  For every mesh [A] and every mesh [B]
    whose node coordinates are unique and whose edge and face indices refer
    to its own nodes, [A.merge_with(B)] returns, and a second
    [merge_with(B)] on the result returns that same result: the node, edge
    and face lists are the ones the first call produced. *)
Theorem merge_with_idempotent (A B : Shape) :
  NoDup (nodes B) -> indices_closed B ->
  exists A', merge_with A B = Some A' /\ merge_with A' B = Some A'.
Proof.
  intros Hnd Hcl. eexists. split.
  - apply merge_with_first; assumption.
  - apply merge_with_second; assumption.
Qed.

Lemma merge_with_idempotent_witness :
  exists A',
    merge_with (mkShape (0, 0) [(0, 0); (1, 0); (2, 0)] [(0, 1); (1, 2)] [])
               (mkShape (1, 0) [(0, 0); (1, 0); (0, 1)] [(0, 1); (1, 2); (0, 2)] [(0, 1, 2)])
      = Some A' /\
    merge_with A'
               (mkShape (1, 0) [(0, 0); (1, 0); (0, 1)] [(0, 1); (1, 2); (0, 2)] [(0, 1, 2)])
      = Some A'.
Proof.
  apply merge_with_idempotent.
  - simpl. repeat constructor; simpl; intuition discriminate.
  - split; simpl.
    + intros e [<- | [<- | [<- | []]]]; unfold valid_index; simpl; lia.
    + intros a b c [H | []]. inversion H; subst. unfold valid_index; simpl; lia.
Defined.

(** ** The breadth-first search of [_nodes_connected] *)

Lemma remove_first_keep (x t : Z) (l : list Z) :
  In t l -> t <> x -> In t (Py.remove_first Z.eqb x l).
Proof.
  induction l as [|h l IH]; simpl; intros Hin Hne.
  - destruct Hin.
  - destruct (Z.eqb_spec h x) as [-> | Hhx].
    + destruct Hin as [-> | Hin]; [congruence | exact Hin].
    + destruct Hin as [-> | Hin]; [left; reflexivity | right; auto].
Qed.

Lemma discard_target_keep (x t : Z) (l : list Z) :
  In t l -> t <> x -> In t (discard_target x l).
Proof.
  intros Hin Hne. unfold discard_target.
  destruct (Py.mem Z.eqb x l); [apply remove_first_keep; assumption | exact Hin].
Qed.

Lemma enumerate_In_edge {A : Type} (l : list A) (i : Z) (x : A) :
  In (i, x) (enumerate l) -> In x l.
Proof.
  unfold enumerate. intros H. apply enumerate_from_In in H.
  destruct H as [_ H]. eapply nth_error_In. exact H.
Qed.

Lemma enumerate_In_nth {A : Type} (l : list A) (j : nat) (x : A) :
  nth_error l j = Some x -> In (Z.of_nat j, x) (enumerate l).
Proof.
  intros H. unfold enumerate. apply enumerate_from_In. split; [lia |].
  rewrite Z.sub_0_r, Nat2Z.id. exact H.
Qed.

Section BfsFacts.

Variables (es : list edge_t) (exn exe : list Z) (n1 : Z) (t0 : list Z).
Hypothesis no_sentinel : forall e, In e es -> fst e <> -1 /\ snd e <> -1.

Let link := bfs_link es exn exe.

Lemma bfs_visit_inv (n : Z) (st : bfs_state) (ie : Z * edge_t) :
  bfs_inv es exn exe n1 t0 st -> In ie (enumerate es) ->
  n = -1 \/ connected link n1 n ->
  bfs_inv es exn exe n1 t0 (bfs_visit n exn exe st ie).
Proof.
  intros [Hv Hq Ht] Hie Hn. destruct ie as [i e]. unfold bfs_visit.
  destruct (Py.mem Z.eqb i exe) eqn:Ei; [constructor; assumption |].
  apply mem_Z_false in Ei.
  set (nbr := if fst e =? n then snd e else if snd e =? n then fst e else -1).
  destruct (negb (Py.mem Z.eqb nbr exn) && negb (Py.mem Z.eqb nbr (visited st))) eqn:Ec;
    [| constructor; assumption].
  apply andb_true_iff in Ec. destruct Ec as [Ex Evis].
  apply negb_true_iff in Ex. apply mem_Z_false in Ex.
  assert (Hnbr : nbr = -1 \/ connected link n1 nbr).
  { unfold nbr in *.
    destruct (no_sentinel e (enumerate_In_edge es i e Hie)) as [N1 N2].
    destruct (Z.eqb_spec (fst e) n) as [E1 | E1].
    - right. destruct Hn as [-> | Hn]; [congruence |].
      eapply rt_trans; [exact Hn |]. apply rt_step.
      exists i, e. repeat split; auto. left. auto.
    - destruct (Z.eqb_spec (snd e) n) as [E2 | E2]; [| left; reflexivity].
      right. destruct Hn as [-> | Hn]; [congruence |].
      eapply rt_trans; [exact Hn |]. apply rt_step.
      exists i, e. repeat split; auto. right. auto. }
  constructor; cbn [visited queue target_nodes].
  - intros v [<- | Hin]; [exact Hnbr | apply Hv; exact Hin].
  - intros q Hin. apply in_app_or in Hin.
    destruct Hin as [Hin | [<- | []]]; [right; apply Hq; exact Hin | left; reflexivity].
  - intros t Hin. destruct (Ht t Hin) as [H | H]; [| right; exact H].
    destruct (Z.eq_dec t nbr) as [-> | Hne]; [right; exact Hnbr |].
    left. apply discard_target_keep; assumption.
Qed.

Lemma bfs_fold_inv (n : Z) (l : list (Z * edge_t)) (st : bfs_state) :
  incl l (enumerate es) -> bfs_inv es exn exe n1 t0 st ->
  n = -1 \/ connected link n1 n ->
  bfs_inv es exn exe n1 t0 (fold_left (bfs_visit n exn exe) l st).
Proof.
  revert st. induction l as [|ie l IH]; intros st Hl Hst Hn; simpl.
  - exact Hst.
  - apply IH.
    + intros x Hx. apply Hl. right. exact Hx.
    + apply bfs_visit_inv; auto. apply Hl. left. reflexivity.
    + exact Hn.
Qed.

Lemma bfs_loop_inv (fuel : nat) (st : bfs_state) :
  bfs_inv es exn exe n1 t0 st ->
  bfs_inv es exn exe n1 t0 (bfs_loop fuel es exn exe st).
Proof.
  revert st. induction fuel as [|fuel IH]; intros st Hst; simpl.
  - exact Hst.
  - destruct (target_nodes st) as [|t ts] eqn:Et; [exact Hst |].
    destruct (queue st) as [|n q] eqn:Eq; [exact Hst |].
    apply IH. destruct Hst as [Hv Hq Ht].
    apply bfs_fold_inv.
    + apply incl_refl.
    + constructor; cbn [visited queue target_nodes].
      * exact Hv.
      * intros x Hx. apply Hq. rewrite Eq. right. exact Hx.
      * intros x Hx. rewrite <- Et. apply Ht. exact Hx.
    + apply Hv. apply Hq. rewrite Eq. left. reflexivity.
Qed.

(** *** The fuel is enough *)

Lemma bfs_visit_count (n : Z) (popped : nat) (st : bfs_state) (ie : Z * edge_t) :
  bfs_count n1 es popped st -> In ie (enumerate es) ->
  bfs_count n1 es popped (bfs_visit n exn exe st ie).
Proof.
  intros [Hu Hk Hb] Hie. destruct ie as [i e]. unfold bfs_visit.
  destruct (Py.mem Z.eqb i exe); [constructor; assumption |].
  set (nbr := if fst e =? n then snd e else if snd e =? n then fst e else -1).
  destruct (negb (Py.mem Z.eqb nbr exn) && negb (Py.mem Z.eqb nbr (visited st))) eqn:Ec;
    [| constructor; assumption].
  apply andb_true_iff in Ec. destruct Ec as [_ Evis].
  apply negb_true_iff in Evis. apply mem_Z_false in Evis.
  assert (Hin : In nbr (bfs_universe n1 es)).
  { pose proof (enumerate_In_edge es i e Hie) as He.
    assert (Hends : In (fst e) (flat_map (fun e : edge_t => [fst e; snd e]) es) /\
                    In (snd e) (flat_map (fun e : edge_t => [fst e; snd e]) es)).
    { split; apply in_flat_map; exists e; simpl; auto. }
    unfold bfs_universe, nbr.
    destruct (fst e =? n); [right; right; tauto |].
    destruct (snd e =? n); [right; right; tauto |].
    right. left. reflexivity. }
  constructor; cbn [visited queue target_nodes].
  - constructor; assumption.
  - intros x [<- | Hx]; [exact Hin | apply Hk; exact Hx].
  - rewrite length_app. simpl. lia.
Qed.

Lemma bfs_fold_count (n : Z) (popped : nat) (l : list (Z * edge_t)) (st : bfs_state) :
  incl l (enumerate es) -> bfs_count n1 es popped st ->
  bfs_count n1 es popped (fold_left (bfs_visit n exn exe) l st).
Proof.
  revert st. induction l as [|ie l IH]; intros st Hl Hst; simpl.
  - exact Hst.
  - apply IH.
    + intros x Hx. apply Hl. right. exact Hx.
    + apply bfs_visit_count; auto. apply Hl. left. reflexivity.
Qed.

Lemma bfs_loop_finished_gen (fuel popped : nat) (st : bfs_state) :
  bfs_count n1 es popped st ->
  (length (bfs_universe n1 es) < fuel + popped)%nat ->
  target_nodes (bfs_loop fuel es exn exe st) = [] \/
  queue (bfs_loop fuel es exn exe st) = [].
Proof.
  revert popped st. induction fuel as [|fuel IH]; intros popped st Hst Hf; simpl.
  - exfalso. destruct Hst as [Hu Hk Hb].
    pose proof (NoDup_incl_length Hu Hk). lia.
  - destruct (target_nodes st) as [|t ts] eqn:Et; [left; exact Et |].
    destruct (queue st) as [|n q] eqn:Eq; [right; exact Eq |].
    apply (IH (S popped)); [| lia].
    apply bfs_fold_count; [apply incl_refl |].
    destruct Hst as [Hu Hk Hb]. constructor; cbn [visited queue target_nodes]; auto.
    rewrite Hb, Eq. simpl. lia.
Qed.

End BfsFacts.

Lemma bfs_universe_length (n1 : Z) (es : list edge_t) :
  length (bfs_universe n1 es) = (2 * length es + 2)%nat.
Proof.
  unfold bfs_universe. simpl. induction es as [|e es IH]; simpl; lia.
Qed.

(** The rounds that [_nodes_connected] grants its loop let the loop reach
    its exit condition: no target or no queued node is left. *)
Lemma bfs_loop_finished (es : list edge_t) (exn exe targets : list Z) (n1 : Z) :
  target_nodes (bfs_loop (bfs_fuel es) es exn exe (mkBfs [n1] [n1] targets)) = [] \/
  queue (bfs_loop (bfs_fuel es) es exn exe (mkBfs [n1] [n1] targets)) = [].
Proof.
  apply (bfs_loop_finished_gen es exn exe n1 (bfs_fuel es) 0).
  - constructor; cbn [visited queue].
    + repeat constructor. intros [].
    + intros x [<- | []]. left. reflexivity.
    + reflexivity.
  - rewrite bfs_universe_length. unfold bfs_fuel. lia.
Qed.

(** A search that answers [True] has reached every target. *)
Lemma nodes_connected_sound (s : Shape) (n1 : Z) (targets exn exe : list Z) :
  (forall e, In e (edges s) -> fst e <> -1 /\ snd e <> -1) ->
  _nodes_connected s n1 targets exn exe = Some true ->
  forall t, In t targets -> t <> -1 ->
            connected (bfs_link (edges s) exn exe) n1 t.
Proof.
  intros Hneg Hr t Hin Hne. unfold _nodes_connected in Hr.
  destruct (length (discard_target n1 targets) =? 0)%nat; [discriminate |].
  inversion Hr as [Hlen]. clear Hr. apply Nat.eqb_eq in Hlen.
  apply length_zero_iff_nil in Hlen.
  destruct (Z.eq_dec t n1) as [-> | Htn]; [apply rt_refl |].
  assert (H0 : bfs_inv (edges s) exn exe n1 (discard_target n1 targets)
                 (mkBfs [n1] [n1] (discard_target n1 targets))).
  { constructor; cbn [visited queue target_nodes].
    - intros v [<- | []]. right. apply rt_refl.
    - auto.
    - intros x Hx. left. exact Hx. }
  pose proof (bfs_loop_inv (edges s) exn exe n1 _ Hneg (bfs_fuel (edges s)) _ H0) as H1.
  destruct (bfs_targets_left _ _ _ _ _ _ H1 t) as [H | [H | H]].
  - apply discard_target_keep; assumption.
  - rewrite Hlen in H. destruct H.
  - contradiction.
  - exact H.
Qed.

(** ** Removals that would disconnect the mesh *)

Lemma joins_sym (e : edge_t) (a b : Z) : joins e a b -> joins e b a.
Proof. unfold joins. tauto. Qed.

Lemma connected_sym (link : Z -> Z -> Prop) :
  (forall a b, link a b -> link b a) ->
  forall a b, connected link a b -> connected link b a.
Proof.
  intros Hsym a b H. induction H as [x y H | x | x y z _ IH1 _ IH2].
  - apply rt_step. apply Hsym. exact H.
  - apply rt_refl.
  - eapply rt_trans; eauto.
Qed.

Lemma connected_mono (link link' : Z -> Z -> Prop) :
  (forall a b, link a b -> link' a b) ->
  forall a b, connected link a b -> connected link' a b.
Proof.
  intros Hsub a b H. induction H as [x y H | x | x y z _ IH1 _ IH2].
  - apply rt_step. apply Hsub. exact H.
  - apply rt_refl.
  - eapply rt_trans; eauto.
Qed.

Lemma collect_edges_complete (i : Z) (es : list edge_t) (j0 j : Z) (e : edge_t) :
  In (j, e) (enumerate_from j0 es) -> in_edge i e = true ->
  In j (fst (collect_edges i es j0)).
Proof.
  revert j0. induction es as [|h es IH]; intros j0 Hin Hinc; simpl in *.
  - destruct Hin.
  - destruct (collect_edges i es (j0 + 1)) as [js nbrs] eqn:Ec.
    destruct Hin as [Hin | Hin].
    + inversion Hin; subst. rewrite Hinc. left. reflexivity.
    + specialize (IH (j0 + 1) Hin Hinc). rewrite Ec in IH. simpl in IH.
      destruct (in_edge i h); simpl; auto.
Qed.

Lemma collect_edges_neighbours (i : Z) (es : list edge_t) (j0 x : Z) :
  In x (snd (collect_edges i es j0)) ->
  exists e, In e es /\ (x = fst e \/ x = snd e).
Proof.
  revert j0. induction es as [|h es IH]; intros j0 Hin; simpl in *.
  - destruct Hin.
  - destruct (collect_edges i es (j0 + 1)) as [js nbrs] eqn:Ec.
    assert (Hrec : In x nbrs -> exists e, In e (h :: es) /\ (x = fst e \/ x = snd e)).
    { intros Hx. destruct (IH (j0 + 1)) as [e [He Hxe]]; [rewrite Ec; exact Hx |].
      exists e. split; [right; exact He | exact Hxe]. }
    destruct (in_edge i h); simpl in Hin; [| auto].
    destruct Hin as [Hx | Hx]; [| auto].
    exists h. split; [left; reflexivity |].
    destruct (i =? fst h); auto.
Qed.

Lemma edges_no_sentinel (s : Shape) :
  mesh_inv s -> forall e, In e (edges s) -> fst e <> -1 /\ snd e <> -1.
Proof.
  intros Hs e He. destruct (inv_edges_valid s Hs e He) as [V1 V2].
  unfold valid_index in *. lia.
Qed.

Lemma hd_tl_In (l : list Z) (x : Z) : In x l -> x = hd 0 l \/ In x (tl l).
Proof. destruct l; simpl; [tauto | intuition]. Qed.

(** C3: a removal that would disconnect the mesh is not carried out.  For
    every mesh satisfying the data-model invariant: when two neighbours of a
    node are not connected in the mesh without that node and its incident
    edges, [remove_node] returns the mesh as it was; when the end points of
    an edge are not connected in the mesh without that edge, [remove_edge]
    returns the mesh as it was.  Position, nodes, edges and faces are all
    unchanged. *)
Theorem removal_aborts_when_disconnecting (s : Shape) :
  mesh_inv s ->
  (forall node,
     let i := index_from (to_local s node) (nodes s) 0 in
     (exists a b, In a (neighbours s i) /\ In b (neighbours s i) /\
                  ~ connected (linked_without_node s i) a b) ->
     remove_node s node = Some s) /\
  (forall e,
     let j1 := find_node s (to_local s (fst e)) in
     let j2 := find_node s (to_local s (snd e)) in
     let k := edge_index_from j1 j2 (edges s) 0 in
     ~ connected (linked_without_edge s k) j1 j2 ->
     remove_edge s e = Some s).
Proof.
  intros Hs. pose proof (edges_no_sentinel s Hs) as Hneg. split.
  - intros node i [a [b [Ha [Hb Hnc]]]]. unfold remove_node. cbv zeta. fold i.
    destruct (i =? -1); [reflexivity |].
    destruct (point_eqb (to_local s node) (0, 0)); [reflexivity |].
    unfold neighbours in Ha, Hb.
    pose proof (collect_edges_complete i (edges s) 0) as Hcomplete.
    pose proof (collect_edges_neighbours i (edges s) 0) as Hends.
    destruct (collect_edges i (edges s) 0) as [edge_ids nbrs]. simpl in *.
    assert (Hreach : truthy (_nodes_connected s (hd 0 nbrs) (tl nbrs) [i] edge_ids) = true ->
                     forall t, In t nbrs ->
                               connected (linked_without_node s i) (hd 0 nbrs) t).
    { intros Ht t Hin.
      destruct (_nodes_connected s (hd 0 nbrs) (tl nbrs) [i] edge_ids) as [[|]|] eqn:Er;
        try discriminate.
      destruct (hd_tl_In nbrs t Hin) as [-> | Htl]; [apply rt_refl |].
      apply (connected_mono (bfs_link (edges s) [i] edge_ids)).
      - intros x y [j [e [Hje [Hex [Hj _]]]]]. exists e. repeat split.
        + eapply enumerate_In_edge. exact Hje.
        + destruct (in_edge i e) eqn:Ei; [| reflexivity].
          exfalso. apply Hex. apply (Hcomplete j e); assumption.
        + exact Hj.
      - apply (nodes_connected_sound s _ _ _ _ Hneg Er t Htl).
        destruct (Hends t Hin) as [e [He Hte]]. destruct (Hneg e He).
        destruct Hte; congruence. }
    destruct ((1 <? length nbrs)%nat) eqn:Elen.
    + destruct (truthy (_nodes_connected s (hd 0 nbrs) (tl nbrs) [i] edge_ids)) eqn:Et;
        [| reflexivity].
      exfalso. apply Hnc.
      assert (Hsym : forall x y, linked_without_node s i x y -> linked_without_node s i y x).
      { intros x y [e [He [Hi Hj]]]. exists e. repeat split; auto. apply joins_sym. exact Hj. }
      eapply rt_trans.
      * apply connected_sym; [exact Hsym |]. apply (Hreach eq_refl a Ha).
      * apply (Hreach eq_refl b Hb).
    + exfalso. apply Hnc. apply Nat.ltb_ge in Elen.
      destruct nbrs as [|x [|y nbrs]]; simpl in *; try lia; try tauto.
      destruct Ha as [<- | []]. destruct Hb as [<- | []]. apply rt_refl.
  - intros e j1 j2 k Hnc. unfold remove_edge. cbv zeta. fold j1. fold j2. fold k.
    destruct ((j1 =? -1) || (j2 =? -1)) eqn:Ej; [reflexivity |].
    destruct (k =? -1); [reflexivity |].
    destruct (truthy (_nodes_connected s j1 [j2] [] [k])) eqn:Et; [| reflexivity].
    exfalso. apply Hnc.
    destruct (_nodes_connected s j1 [j2] [] [k]) as [[|]|] eqn:Er; try discriminate.
    apply (connected_mono (bfs_link (edges s) [] [k])).
    + intros x y [j [e0 [Hje [Hex [Hj _]]]]].
      unfold enumerate in Hje. apply enumerate_from_In in Hje.
      destruct Hje as [Hj0 Hnth]. rewrite Z.sub_0_r in Hnth.
      exists (Z.to_nat j), e0. repeat split; auto.
      rewrite Z2Nat.id by lia. intros ->. apply Hex. left. reflexivity.
    + apply (nodes_connected_sound s _ _ _ _ Hneg Er j2); [left; reflexivity |].
      apply orb_false_iff in Ej. destruct Ej as [_ Ej]. apply Z.eqb_neq in Ej. exact Ej.
Qed.

Lemma removal_aborts_when_disconnecting_witness :
  remove_node (mkShape (0, 0) [(0, 0); (1, 0); (2, 0)] [(0, 1); (1, 2)] []) (1, 0) =
    Some (mkShape (0, 0) [(0, 0); (1, 0); (2, 0)] [(0, 1); (1, 2)] []) /\
  remove_edge (mkShape (0, 0) [(0, 0); (1, 0); (2, 0)] [(0, 1); (1, 2)] []) ((0, 0), (1, 0)) =
    Some (mkShape (0, 0) [(0, 0); (1, 0); (2, 0)] [(0, 1); (1, 2)] []).
Proof.
  assert (Hinv : mesh_inv (mkShape (0, 0) [(0, 0); (1, 0); (2, 0)] [(0, 1); (1, 2)] [])).
  { constructor; simpl.
    - repeat constructor; simpl; intuition discriminate.
    - reflexivity.
    - intros e [<- | [<- | []]]; unfold valid_index; simpl; lia.
    - repeat split; try tauto. intros y [<- | []]. reflexivity.
    - exact I.
    - intros a b c []. }
  split.
  - apply (proj1 (removal_aborts_when_disconnecting _ Hinv) (1, 0)).
    exists 0, 2. simpl. repeat split; auto.
    intros Hc.
    assert (Hall : forall x y,
              connected (linked_without_node
                           (mkShape (0, 0) [(0, 0); (1, 0); (2, 0)] [(0, 1); (1, 2)] []) 1) x y ->
              x = y).
    { intros x y H. induction H as [x y H | x | x y z _ IH1 _ IH2].
      - destruct H as [e [He [Hi _]]]. simpl in He.
        destruct He as [<- | [<- | []]]; discriminate.
      - reflexivity.
      - congruence. }
    apply Hall in Hc. discriminate.
  - apply (proj2 (removal_aborts_when_disconnecting _ Hinv) ((0, 0), (1, 0))).
    simpl. intros Hc.
    assert (Hall : forall x y,
              connected (linked_without_edge
                           (mkShape (0, 0) [(0, 0); (1, 0); (2, 0)] [(0, 1); (1, 2)] []) 0) x y ->
              x = 0 -> y = 0).
    { intros x y H. induction H as [x y H | x | x y z _ IH1 _ IH2].
      - intros ->. destruct H as [j [e [Hn [Hj Hjo]]]].
        destruct j as [|[|j]]; simpl in Hn; try discriminate.
        + exfalso. apply Hj. reflexivity.
        + inversion Hn; subst e. destruct Hjo as [[H1 _] | [H1 _]]; discriminate.
        + destruct j; discriminate.
      - auto.
      - auto. }
    specialize (Hall _ _ Hc eq_refl). discriminate.
Defined.

(** ** Star-convex growth away from the origin *)

(** C7: [add_node_convex] turns the picked coordinate into a local one and
    then hands local coordinates to [add_edge] and [add_face], which subtract
    the position once more.  For the star-convex shape at position [(1, 0)]
    that holds its origin only, picking the global point [(2, 0)] (local
    [(1, 0)]) adds the local nodes [(1, 0)] and [(-1, 0)] and an edge from
    the origin to [(-1, 0)], while the same shape at the origin with the pick
    [(1, 0)] gets the node [(1, 0)] and the edge from the origin to it. *)
Theorem add_node_convex_rebases_twice :
  star_convex (mkShape (1, 0) [(0, 0)] [] []) = true /\
  add_node_convex (mkShape (1, 0) [(0, 0)] [] []) (2, 0) =
    Some (mkShape (1, 0) [(0, 0); (1, 0); (-1, 0)] [(0, 2)] []) /\
  add_node_convex (mkShape (0, 0) [(0, 0)] [] []) (1, 0) =
    Some (mkShape (0, 0) [(0, 0); (1, 0)] [(0, 1)] []).
Proof. repeat split; reflexivity. Qed.

(** C4: on a star-convex shape that is not at the origin [add_node_convex]
    does not fill the parallelogram of the node it adds.  For the shape at
    position [(1, 0)] that holds its origin only and the pick [(2, 0)], the
    added node [(1, 0)] has no edge to the origin afterwards, so its
    parallelogram is not in the mesh and the shape is not star-convex. *)
Theorem add_node_convex_off_origin_leaves_parallelogram_open :
  star_convex (mkShape (1, 0) [(0, 0)] [] []) = true /\
  exists s',
    add_node_convex (mkShape (1, 0) [(0, 0)] [] []) (2, 0) = Some s' /\
    has_node s' (1, 0) = true /\
    has_edge_at s' (0, 0) (1, 0) = false /\
    parallelogram_filled s' (1, 0) = false /\
    star_convex s' = false.
Proof.
  split; [reflexivity |].
  eexists. split; [reflexivity |]. repeat split; reflexivity.
Qed.

(** ** Sets of snowflakes *)

Lemma sf_mem_true (x : sfid) (l : list sfid) : sf_mem x l = true <-> In x l.
Proof.
  unfold sf_mem. destruct (in_dec Nat.eq_dec x l); split; intros; auto; discriminate.
Qed.

Lemma sf_mem_false (x : sfid) (l : list sfid) : sf_mem x l = false <-> ~ In x l.
Proof.
  unfold sf_mem. destruct (in_dec Nat.eq_dec x l); split; intros; auto;
    try discriminate; contradiction.
Qed.

Lemma sf_add_In (x : sfid) (l : list sfid) (y : sfid) :
  In y (sf_add x l) <-> y = x \/ In y l.
Proof.
  unfold sf_add. destruct (sf_mem x l) eqn:E.
  - apply sf_mem_true in E. split; [auto|]. intros [->|H]; auto.
  - rewrite in_app_iff. simpl. split.
    + intros [H|[H|[]]]; auto.
    + intros [H|H]; auto.
Qed.

Lemma sf_add_NoDup (x : sfid) (l : list sfid) : NoDup l -> NoDup (sf_add x l).
Proof.
  intros H. unfold sf_add. destruct (sf_mem x l) eqn:E; [exact H|].
  apply sf_mem_false in E. apply NoDup_snoc; assumption.
Qed.

Lemma sf_union_In (l' l : list sfid) (y : sfid) :
  In y (sf_union l l') <-> In y l \/ In y l'.
Proof.
  revert l. induction l' as [|x l' IH]; intros l.
  - simpl. tauto.
  - change (sf_union l (x :: l')) with (sf_union (sf_add x l) l').
    rewrite IH, sf_add_In. simpl. split.
    + intros [[->|H]|H]; auto.
    + intros [H|[->|H]]; auto.
Qed.

Lemma sf_union_NoDup (l' l : list sfid) : NoDup l -> NoDup (sf_union l l').
Proof.
  revert l. induction l' as [|x l' IH]; intros l H; [exact H|].
  change (sf_union l (x :: l')) with (sf_union (sf_add x l) l').
  apply IH, sf_add_NoDup, H.
Qed.

Lemma sf_remove_In (x : sfid) (l : list sfid) (y : sfid) :
  In y (sf_remove x l) <-> In y l /\ y <> x.
Proof.
  unfold sf_remove. rewrite filter_In.
  destruct (Nat.eqb_spec y x); simpl; split; intros [H1 H2]; split; auto; try discriminate;
    try contradiction.
Qed.

Lemma sf_remove_NoDup (x : sfid) (l : list sfid) : NoDup l -> NoDup (sf_remove x l).
Proof. apply NoDup_filter. Qed.

Lemma sf_remove_length (x : sfid) (l : list sfid) :
  In x l -> (length (sf_remove x l) < length l)%nat.
Proof.
  induction l as [|y l IH]; intros H; [destruct H|].
  unfold sf_remove in *. simpl. destruct (Nat.eqb_spec y x); simpl.
  - apply Nat.lt_succ_r, filter_length_le.
  - destruct H as [H|H]; [contradiction|]. apply -> Nat.succ_lt_mono. apply IH, H.
Qed.

Lemma get_children_NoDup (sf : Snowflake) : NoDup (get_children sf).
Proof.
  unfold get_children.
  assert (Hin : forall (atts : list attachment) acc,
             NoDup acc ->
             NoDup (fold_left (fun acc (c : attachment) => sf_add (snd c) acc) atts acc)).
  { induction atts as [|c atts IH]; intros acc H; [exact H|].
    simpl. apply IH, sf_add_NoDup, H. }
  assert (Hout : forall (dirs : list (list attachment)) acc,
             NoDup acc ->
             NoDup (fold_left (fun acc (atts : list attachment) =>
                                 fold_left (fun acc (c : attachment) => sf_add (snd c) acc)
                                           atts acc) dirs acc)).
  { induction dirs as [|atts dirs IH]; intros acc H; [exact H|].
    simpl. apply IH, Hin, H. }
  apply Hout. constructor.
Qed.

(** ** Transitive children *)

Lemma gcr_unfold (n : nat) (a : arena) (x : sfid) :
  get_children_recursive (S n) a x =
  union_children n a (get_children (a x)) (Some (get_children (a x))).
Proof. reflexivity. Qed.

Lemma union_children_None (n : nat) (a : arena) (cs : list sfid) :
  union_children n a cs None = None.
Proof. induction cs as [|c cs IH]; [reflexivity|exact IH]. Qed.

Lemma union_children_cons (n : nat) (a : arena) (c : sfid) (cs s : list sfid) :
  union_children n a (c :: cs) (Some s) =
  match get_children_recursive n a c with
  | Some d => union_children n a cs (Some (sf_union s d))
  | None => None
  end.
Proof.
  unfold union_children at 1. cbn [fold_left].
  destruct (get_children_recursive n a c); [reflexivity|].
  apply (union_children_None n a cs).
Qed.

Lemma union_children_spec (n : nat) (a : arena) (cs s D : list sfid) :
  union_children n a cs (Some s) = Some D ->
  (forall c, In c cs -> exists Dc, get_children_recursive n a c = Some Dc) /\
  (forall y, In y D <->
             In y s \/ exists c Dc, In c cs /\ get_children_recursive n a c = Some Dc /\
                                    In y Dc).
Proof.
  revert s. induction cs as [|c cs IH]; intros s H.
  - injection H as <-. split; [intros c []|].
    intros y. split; [auto|]. intros [Hy|(c & Dc & [] & _)]. exact Hy.
  - rewrite union_children_cons in H.
    destruct (get_children_recursive n a c) as [Dc|] eqn:E; [|discriminate].
    destruct (IH _ H) as [IH1 IH2]. split.
    + intros c' [<-|Hc]; [eauto|auto].
    + intros y. rewrite IH2, sf_union_In. split.
      * intros [[Hy|Hy]|(c' & Dc' & Hc' & E' & Hy)].
        -- left. exact Hy.
        -- right. exists c, Dc. simpl. auto.
        -- right. exists c', Dc'. simpl. auto.
      * intros [Hy|(c' & Dc' & [<-|Hc'] & E' & Hy)].
        -- left. left. exact Hy.
        -- left. right. congruence.
        -- right. exists c', Dc'. auto.
Qed.

Lemma union_children_some (n : nat) (a : arena) (cs s : list sfid) :
  (forall c, In c cs -> exists Dc, get_children_recursive n a c = Some Dc) ->
  exists D, union_children n a cs (Some s) = Some D.
Proof.
  revert s. induction cs as [|c cs IH]; intros s H.
  - exists s. reflexivity.
  - rewrite union_children_cons. destruct (H c (or_introl eq_refl)) as [Dc ->].
    apply IH. intros c' Hc'. apply H. right. exact Hc'.
Qed.

Lemma union_children_NoDup (n : nat) (a : arena) (cs s D : list sfid) :
  NoDup s -> union_children n a cs (Some s) = Some D -> NoDup D.
Proof.
  revert s. induction cs as [|c cs IH]; intros s Hs H.
  - injection H as <-. exact Hs.
  - rewrite union_children_cons in H.
    destruct (get_children_recursive n a c) as [Dc|]; [|discriminate].
    apply (IH _ (sf_union_NoDup Dc s Hs) H).
Qed.

Lemma union_children_ext (n m : nat) (a : arena) (cs : list sfid) (acc : option (list sfid)) :
  (forall c, In c cs -> get_children_recursive n a c = get_children_recursive m a c) ->
  union_children n a cs acc = union_children m a cs acc.
Proof.
  revert acc. induction cs as [|c cs IH]; intros acc H; [reflexivity|].
  unfold union_children. cbn [fold_left]. rewrite (H c (or_introl eq_refl)).
  apply IH. intros c' Hc'. apply H. right. exact Hc'.
Qed.

Lemma gcr_NoDup (n : nat) (a : arena) (x : sfid) (D : list sfid) :
  get_children_recursive n a x = Some D -> NoDup D.
Proof.
  destruct n as [|n]; [discriminate|]. rewrite gcr_unfold.
  apply union_children_NoDup, get_children_NoDup.
Qed.

Lemma gcr_mono (n : nat) (a : arena) (x : sfid) (D : list sfid) :
  get_children_recursive n a x = Some D -> get_children_recursive (S n) a x = Some D.
Proof.
  revert x D. induction n as [|n IH]; intros x D H; [discriminate|].
  rewrite gcr_unfold in *. rewrite <- H. symmetry. apply union_children_ext.
  intros c Hc. destruct (union_children_spec _ _ _ _ _ H) as [H1 _].
  destruct (H1 c Hc) as [Dc E]. rewrite E. symmetry. apply IH, E.
Qed.

Lemma gcr_mono_le (n m : nat) (a : arena) (x : sfid) (D : list sfid) :
  (n <= m)%nat ->
  get_children_recursive n a x = Some D -> get_children_recursive m a x = Some D.
Proof.
  intros Hle H. induction Hle as [|m Hle IH]; [exact H|]. apply gcr_mono, IH.
Qed.

Lemma gcr_child (n : nat) (a : arena) (x c : sfid) (D : list sfid) :
  get_children_recursive (S n) a x = Some D -> child_of a x c ->
  exists Dc, get_children_recursive n a c = Some Dc.
Proof.
  rewrite gcr_unfold. intros H Hc.
  destruct (union_children_spec _ _ _ _ _ H) as [H1 _]. apply H1, Hc.
Qed.

Lemma gcr_spec (n : nat) (a : arena) (x : sfid) (D : list sfid) :
  get_children_recursive n a x = Some D -> forall y, In y D <-> descends a x y.
Proof.
  revert x D. induction n as [|n IH]; intros x D H y; [discriminate|].
  rewrite gcr_unfold in H. destruct (union_children_spec _ _ _ _ _ H) as [H1 H2].
  rewrite H2. split.
  - intros [Hy|(c & Dc & Hc & E & Hy)].
    + apply desc_child. exact Hy.
    + apply desc_step with c; [exact Hc|]. apply (IH _ _ E), Hy.
  - intros Hd. inversion Hd as [p c Hc|p c d Hc Hcd]; subst.
    + left. exact Hc.
    + right. destruct (H1 c Hc) as [Dc E]. exists c, Dc.
      split; [exact Hc|]. split; [exact E|]. apply (IH _ _ E), Hcd.
Qed.

Lemma gcr_descends (a : arena) (x d : sfid) :
  descends a x d ->
  forall n D, get_children_recursive (S n) a x = Some D ->
  exists Dd, get_children_recursive n a d = Some Dd.
Proof.
  induction 1 as [p c Hc|p c d Hc Hcd IH]; intros n D H.
  - apply (gcr_child _ _ _ _ _ H Hc).
  - destruct (gcr_child _ _ _ _ _ H Hc) as [Dc E].
    destruct n as [|n]; [discriminate|].
    destruct (IH _ _ E) as [Dd Ed]. exists Dd. apply gcr_mono, Ed.
Qed.

Lemma gcr_cycle (a : arena) (y : sfid) :
  descends a y y -> forall n, get_children_recursive n a y = None.
Proof.
  intros Hc. induction n as [|n IH]; [reflexivity|].
  destruct (get_children_recursive (S n) a y) as [D|] eqn:E; [|reflexivity].
  destruct (gcr_descends _ _ _ Hc _ _ E) as [Dd Ed]. congruence.
Qed.

Lemma gcr_cycle_below (a : arena) (x y : sfid) :
  descends a x y -> descends a y y -> forall n, get_children_recursive n a x = None.
Proof.
  intros Hxy Hc n.
  destruct (get_children_recursive n a x) as [D|] eqn:E; [|reflexivity].
  destruct n as [|n]; [discriminate|].
  destruct (gcr_descends _ _ _ Hxy _ _ E) as [Dd Ed].
  rewrite (gcr_cycle _ _ Hc) in Ed. discriminate.
Qed.

Lemma gcr_common_depth (a : arena) (cs : list sfid) :
  (forall c, In c cs -> exists n D, get_children_recursive n a c = Some D) ->
  exists N, forall c, In c cs -> exists D, get_children_recursive N a c = Some D.
Proof.
  induction cs as [|c cs IH]; intros H.
  - exists O. intros c [].
  - destruct IH as [N HN]; [intros c' Hc'; apply H; right; exact Hc'|].
    destruct (H c (or_introl eq_refl)) as (n & D & E).
    exists (Nat.max n N). intros c' [<-|Hc'].
    + exists D. apply (gcr_mono_le n); [lia|exact E].
    + destruct (HN c' Hc') as [D' E']. exists D'. apply (gcr_mono_le N); [lia|exact E'].
Qed.

Lemma gcr_acyclic (a : arena) (x : sfid) :
  acyclic_below a x -> exists n D, get_children_recursive n a x = Some D.
Proof.
  induction 1 as [x _ IH].
  destruct (gcr_common_depth a (get_children (a x))) as [N HN].
  { intros c Hc. apply IH. exact Hc. }
  destruct (union_children_some N a (get_children (a x)) (get_children (a x)) HN) as [D E].
  exists (S N), D. rewrite gcr_unfold. exact E.
Qed.

Lemma descends_trans (a : arena) (x y z : sfid) :
  descends a x y -> descends a y z -> descends a x z.
Proof.
  induction 1 as [p c Hc|p c d Hc Hcd IH]; intros Hz.
  - apply desc_step with c; assumption.
  - apply desc_step with c; [exact Hc|]. apply IH, Hz.
Qed.

(** ** The topological sort of [gen_dependency_tree] *)

Lemma forallb_false_witness {A : Type} (f : A -> bool) (l : list A) :
  forallb f l = false -> exists x, In x l /\ f x = false.
Proof.
  induction l as [|x l IH]; [discriminate|]. simpl.
  destruct (f x) eqn:E; simpl.
  - intros H. destruct (IH H) as (y & Hy & Ey). exists y. auto.
  - intros _. exists x. auto.
Qed.

Lemma ready_forallb (n : nat) (a : arena) (top : list sfid) (c : sfid) (D : list sfid) :
  get_children_recursive n a c = Some D ->
  forallb (fun x => sf_mem x top) D = true <-> ready a top c.
Proof.
  intros E. rewrite forallb_forall. unfold ready. split.
  - intros H d Hd. apply sf_mem_true, H, (gcr_spec _ _ _ _ E), Hd.
  - intros H d Hd. apply sf_mem_true, H, (gcr_spec _ _ _ _ E), Hd.
Qed.

Lemma find_ready_found (depth : nat) (a : arena) (top cands : list sfid) :
  (forall c, In c cands -> exists D, get_children_recursive depth a c = Some D) ->
  (exists m, In m cands /\ ready a top m) ->
  exists c, find_ready depth a top cands = Returned (Some c) /\ In c cands /\ ready a top c.
Proof.
  induction cands as [|c cands IH]; intros Hall (m & Hm & Hr); [destruct Hm|].
  cbn [find_ready]. destruct (Hall c (or_introl eq_refl)) as [D E]. rewrite E.
  destruct (forallb (fun x => sf_mem x top) D) eqn:F.
  - exists c. split; [reflexivity|]. split; [left; reflexivity|].
    apply (ready_forallb _ _ _ _ _ E), F.
  - destruct Hm as [<-|Hm].
    + apply (ready_forallb _ _ _ _ _ E) in Hr. congruence.
    + destruct IH as (c' & E' & Hc' & Hr').
      * intros c' Hc'. apply Hall. right. exact Hc'.
      * exists m. auto.
      * exists c'. split; [exact E'|]. split; [right; exact Hc'|exact Hr'].
Qed.

Lemma children_first_snoc (a : arena) (top : list sfid) (c : sfid) :
  children_first a top -> ready a top c -> children_first a (top ++ [c]).
Proof.
  intros Hcf Hr i p d Hi Hd.
  destruct (Nat.lt_ge_cases i (length top)) as [Hlt|Hge].
  - rewrite nth_error_app1 in Hi by exact Hlt.
    destruct (Hcf i p d Hi Hd) as (j & Hj & Ej). exists j. split; [exact Hj|].
    rewrite nth_error_app1; [exact Ej|lia].
  - rewrite nth_error_app2 in Hi by exact Hge.
    destruct (i - length top)%nat as [|k] eqn:Ek.
    + injection Hi as <-. destruct (In_nth_error _ _ (Hr d Hd)) as [j Ej].
      assert (Hj : (j < length top)%nat).
      { apply nth_error_Some. rewrite Ej. discriminate. }
      exists j. split; [lia|]. rewrite nth_error_app1; [exact Ej|exact Hj].
    + destruct k; discriminate.
Qed.

Section Sorting.

Variable iter_order : list sfid -> list sfid.
Hypothesis iter_perm : forall l, Permutation (iter_order l) l.

Variable depth : nat.
Variable a : arena.
Variable all : list sfid.
Hypothesis all_depth : forall y, In y all -> exists D, get_children_recursive depth a y = Some D.
Hypothesis all_closed : forall y d, In y all -> descends a y d -> In d all.

Lemma exists_ready (remaining top : list sfid) :
  sort_inv a all remaining top ->
  forall n r D, get_children_recursive n a r = Some D -> In r remaining ->
  exists m, In m remaining /\ ready a top m.
Proof.
  intros I. induction n as [|n IH]; intros r D E Hr; [discriminate|].
  destruct (forallb (fun x => sf_mem x top) D) eqn:F.
  - exists r. split; [exact Hr|]. apply (ready_forallb _ _ _ _ _ E), F.
  - destruct (forallb_false_witness _ _ F) as (d & Hd & Ed).
    apply sf_mem_false in Ed. apply (gcr_spec _ _ _ _ E) in Hd.
    assert (Hall : In d all).
    { apply all_closed with r; [|exact Hd]. apply (si_all _ _ _ _ I). left. exact Hr. }
    apply (si_all _ _ _ _ I) in Hall. destruct Hall as [Hrem|Htop]; [|contradiction].
    destruct (gcr_descends _ _ _ Hd _ _ E) as [Dd E']. apply (IH d Dd E' Hrem).
Qed.

Lemma sort_step (remaining top : list sfid) (c : sfid) :
  sort_inv a all remaining top -> In c remaining -> ready a top c ->
  sort_inv a all (sf_remove c remaining) (top ++ [c]).
Proof.
  intros I Hc Hr. constructor.
  - apply sf_remove_NoDup, (si_remaining _ _ _ _ I).
  - apply NoDup_snoc; [exact (si_top _ _ _ _ I)|]. apply (si_apart _ _ _ _ I), Hc.
  - intros y Hy. apply sf_remove_In in Hy. destruct Hy as [Hy Hne].
    rewrite in_snoc. intros [Hin|Heq]; [|contradiction].
    apply (si_apart _ _ _ _ I y Hy Hin).
  - intros y. rewrite (si_all _ _ _ _ I), sf_remove_In, in_snoc.
    destruct (Nat.eq_dec y c) as [->|Hne]; split.
    + intros _. right. right. reflexivity.
    + intros _. left. exact Hc.
    + intros [H|H]; auto.
    + intros [[H _]|[H|H]]; auto. contradiction.
  - apply children_first_snoc; [exact (si_order _ _ _ _ I)|exact Hr].
Qed.

Lemma top_sort_total (rounds : nat) :
  forall remaining top,
  sort_inv a all remaining top -> (length remaining <= rounds)%nat ->
  exists top', top_sort iter_order rounds depth a remaining top = Returned (Some top') /\
               sort_inv a all [] top'.
Proof.
  induction rounds as [|rounds IH]; intros remaining top I Hlen.
  - destruct remaining; [|simpl in Hlen; lia]. exists top. split; [reflexivity|exact I].
  - destruct remaining as [|r rs] eqn:Erem.
    + exists top. split; [reflexivity|exact I].
    + rewrite <- Erem in *. 
      assert (Hin : forall y, In y (iter_order remaining) <-> In y remaining).
      { intros y. split; apply Permutation_in; [|apply Permutation_sym]; apply iter_perm. }
      assert (Hr : In r remaining) by (rewrite Erem; left; reflexivity).
      destruct (all_depth r) as [D E].
      { apply (si_all _ _ _ _ I). left. exact Hr. }
      destruct (exists_ready _ _ I _ _ _ E Hr) as (m & Hm & Hrm).
      destruct (find_ready_found depth a top (iter_order remaining)) as (c & Ec & Hc & Hrc).
      { intros c Hc. apply all_depth, (si_all _ _ _ _ I). left. apply Hin, Hc. }
      { exists m. split; [apply Hin, Hm|exact Hrm]. }
      apply Hin in Hc.
      destruct (IH (sf_remove c remaining) (top ++ [c])) as (top' & Et & It).
      { apply sort_step; assumption. }
      { pose proof (sf_remove_length c remaining Hc). lia. }
      exists top'. split; [|exact It].
      rewrite Erem at 1. cbn [top_sort]. rewrite <- Erem, Ec. exact Et.
Qed.

End Sorting.

(** ** The entries of the dependency tree *)

Lemma sf_index_spec (c : sfid) (l : list sfid) (i : Z) :
  In c l ->
  exists k : nat, sf_index c l i = Some (i + Z.of_nat k) /\ nth_error l k = Some c.
Proof.
  revert i. induction l as [|x l IH]; intros i H; [destruct H|].
  cbn [sf_index]. destruct (Nat.eqb_spec x c) as [->|Hne].
  - exists O. split; [f_equal; lia|reflexivity].
  - destruct H as [H|H]; [contradiction|].
    destruct (IH (i + 1) H) as (k & E & Hk). exists (S k).
    split; [rewrite E; f_equal; lia|exact Hk].
Qed.

Lemma child_refs_spec (top : list sfid) (i : Z) (atts : list attachment) :
  (forall att, In att atts -> In (snd att) top) ->
  exists refs, child_refs top i atts = Some refs /\
               Forall2 (ref_ok top) (map (pair i) atts) refs.
Proof.
  induction atts as [|[[dist rot] c] atts IH]; intros H.
  - exists []. split; [reflexivity|constructor].
  - destruct IH as (rest & E & HF); [intros att Hatt; apply H; right; exact Hatt|].
    destruct (sf_index_spec c top 0 (H (dist, rot, c) (or_introl eq_refl))) as (k & Ek & Hk).
    exists (mkDtChild (0 + Z.of_nat k) i dist rot :: rest).
    cbn [child_refs map]. rewrite Ek, E. split; [reflexivity|].
    constructor; [|exact HF].
    repeat split; cbn. exists k. split; [lia|exact Hk].
Qed.

Lemma child_refs_all_spec (top : list sfid) (dirs : list (list attachment)) :
  (forall atts att, In atts dirs -> In att atts -> In (snd att) top) ->
  forall i, exists refs, child_refs_all top i dirs = Some refs /\
                         Forall2 (ref_ok top) (attachments_from i dirs) refs.
Proof.
  induction dirs as [|atts dirs IH]; intros H i.
  - exists []. split; [reflexivity|constructor].
  - destruct (IH (fun atts' att Ha => H atts' att (or_intror Ha)) (i + 1)) as (rest & E & HF).
    destruct (child_refs_spec top i atts (fun att => H atts att (or_introl eq_refl)))
      as (here & Eh & HFh).
    exists (here ++ rest). cbn [child_refs_all attachments_from]. rewrite Eh, E.
    split; [reflexivity|]. apply Forall2_app; assumption.
Qed.

Lemma get_children_In (sf : Snowflake) (atts : list attachment) (att : attachment) :
  In atts (six_list (children sf)) -> In att atts -> In (snd att) (get_children sf).
Proof.
  unfold get_children.
  assert (Hin : forall (l : list attachment) acc y,
             In y acc \/ (exists t, In t l /\ snd t = y) ->
             In y (fold_left (fun acc (c : attachment) => sf_add (snd c) acc) l acc)).
  { induction l as [|t l IH]; intros acc y H.
    - destruct H as [H|(t & [] & _)]. exact H.
    - cbn [fold_left]. apply IH. destruct H as [H|(t' & [<-|Ht'] & <-)].
      + left. apply sf_add_In. right. exact H.
      + left. apply sf_add_In. left. reflexivity.
      + right. exists t'. auto. }
  assert (Hout : forall (dirs : list (list attachment)) acc y,
             In y acc \/ (exists l t, In l dirs /\ In t l /\ snd t = y) ->
             In y (fold_left (fun acc (l : list attachment) =>
                                fold_left (fun acc (c : attachment) => sf_add (snd c) acc)
                                          l acc) dirs acc)).
  { induction dirs as [|l dirs IH]; intros acc y H.
    - destruct H as [H|(l & t & [] & _)]. exact H.
    - cbn [fold_left]. apply IH. destruct H as [H|(l' & t & [<-|Hl'] & Ht & <-)].
      + left. apply Hin. left. exact H.
      + left. apply Hin. right. exists t. auto.
      + right. exists l', t. auto. }
  intros H1 H2. apply Hout. right. exists atts, att. auto.
Qed.

Lemma dt_entries_spec (a : arena) (top rest : list sfid) :
  (forall p c, In p rest -> child_of a p c -> In c top) ->
  exists dt, dt_entries a top rest = Some dt /\ Forall2 (entry_ok a top) rest dt.
Proof.
  induction rest as [|p rest IH]; intros H.
  - exists []. split; [reflexivity|constructor].
  - destruct IH as (es & E & HF); [intros q c Hq; apply H; right; exact Hq|].
    destruct (child_refs_all_spec top (six_list (children (a p)))) with (i := 0)
      as (refs & Er & HFr).
    { intros atts att H1 H2. apply (H p); [left; reflexivity|].
      apply (get_children_In _ atts att H1 H2). }
    exists (mkDtEntry (arms (a p)) refs :: es).
    cbn [dt_entries]. unfold dt_entry_of. rewrite Er, E. split; [reflexivity|].
    constructor; [|exact HF]. split; [reflexivity|exact HFr].
Qed.

(** ** [gen_dependency_tree] on a snowflake whose transitive children can be
    collected *)

Section DependencyTree.

Variable iter_order : list sfid -> list sfid.
Hypothesis iter_perm : forall l, Permutation (iter_order l) l.

Lemma top_order_of_total (depth : nat) (a : arena) (x : sfid) (D : list sfid) :
  get_children_recursive depth a x = Some D ->
  exists top, top_order_of iter_order depth a x = Returned (Some top) /\
              NoDup top /\
              (forall y, In y top <-> y = x \/ descends a x y) /\
              children_first a top.
Proof.
  intros E. unfold top_order_of. rewrite E.
  assert (Hall : forall y, In y (sf_add x D) <-> y = x \/ descends a x y).
  { intros y. rewrite sf_add_In, (gcr_spec _ _ _ _ E). tauto. }
  destruct (top_sort_total iter_order iter_perm depth a (sf_add x D))
    with (rounds := length (sf_add x D)) (remaining := sf_add x D) (top := @nil sfid)
    as (top & Et & It).
  - intros y Hy. apply Hall in Hy. destruct Hy as [->|Hy]; [eauto|].
    destruct depth as [|n]; [discriminate|].
    destruct (gcr_descends _ _ _ Hy _ _ E) as [Dy Ey]. exists Dy. apply gcr_mono, Ey.
  - intros y d Hy Hd. apply Hall. right. apply Hall in Hy. destruct Hy as [->|Hy].
    + exact Hd.
    + apply descends_trans with y; assumption.
  - constructor.
    + apply sf_add_NoDup, (gcr_NoDup _ _ _ _ E).
    + constructor.
    + intros y _ [].
    + intros y. split; [auto|]. intros [H|[]]. exact H.
    + intros i p c Hi. destruct i; discriminate.
  - apply Nat.le_refl.
  - exists top. split; [exact Et|]. split; [exact (si_top _ _ _ _ It)|]. split.
    + intros y. rewrite <- Hall, (si_all _ _ _ _ It). simpl. tauto.
    + exact (si_order _ _ _ _ It).
Qed.

Lemma gen_dependency_tree_total (depth : nat) (a : arena) (x : sfid) (D : list sfid) :
  get_children_recursive depth a x = Some D ->
  exists top dt,
    top_order_of iter_order depth a x = Returned (Some top) /\
    gen_dependency_tree iter_order depth a x = Returned (Some dt) /\
    NoDup top /\
    (forall y, In y top <-> y = x \/ descends a x y) /\
    children_first a top /\
    Forall2 (entry_ok a top) top dt.
Proof.
  intros E. destruct (top_order_of_total _ _ _ _ E) as (top & Et & Hnd & Hin & Hcf).
  destruct (dt_entries_spec a top top) as (dt & Ed & HF).
  { intros p c Hp Hc. apply Hin. right. apply Hin in Hp. destruct Hp as [->|Hp].
    - apply desc_child, Hc.
    - apply descends_trans with p; [exact Hp|apply desc_child, Hc]. }
  exists top, dt. unfold gen_dependency_tree. rewrite Et, Ed. auto 10.
Qed.

End DependencyTree.

(** ** The start of the boundary traversal of [gen_constituents] *)

Lemma vadd_scale_succ (k : Z) (v : point) : vadd (scale k v) v = scale (k + 1) v.
Proof. destruct v as [x y]. unfold vadd, scale. cbn [fst snd]. f_equal; ring. Qed.

Lemma vadd_shift (p v w : point) : vadd (vadd p w) v = vadd (vadd p v) w.
Proof.
  destruct p as [px py], v as [vx vy], w as [wx wy].
  unfold vadd. cbn [fst snd]. f_equal; ring.
Qed.

Lemma vadd_vsub (p v w : point) : vadd (vadd p v) (vsub w v) = vadd p w.
Proof.
  destruct p as [px py], v as [vx vy], w as [wx wy].
  unfold vadd, vsub. cbn [fst snd]. f_equal; ring.
Qed.

Lemma scale_zero (v : point) : scale 0 v = (0, 0).
Proof. destruct v as [x y]. reflexivity. Qed.

Lemma vadd_zero (v : point) : vadd (0, 0) v = v.
Proof. destruct v as [x y]. reflexivity. Qed.

Lemma scale_one (v : point) : scale 1 v = v.
Proof. destruct v as [x y]. unfold scale. cbn [fst snd]. f_equal; ring. Qed.

Lemma axis_inv_init (s : Shape) (vec1 vec2 vec3 : point) :
  axis_inv s vec1 vec2 vec3 (mkAxis (0, 0) 0 0 false vec2 (vadd vec1 vec2)).
Proof.
  constructor; cbn.
  - symmetry. apply scale_zero.
  - rewrite scale_zero, vadd_zero. reflexivity.
  - rewrite scale_one. reflexivity.
  - left. reflexivity.
Qed.

Lemma axis_walk_inv (s : Shape) (vec1 vec2 vec3 : point) :
  vec3 = vsub vec2 vec1 ->
  forall fuel st ax,
  axis_inv s vec1 vec2 vec3 st -> axis_walk fuel s vec1 st = Returned ax ->
  axis_inv s vec1 vec2 vec3 ax.
Proof.
  intros Hv. induction fuel as [|fuel IH]; intros st ax I H; [discriminate|].
  cbn [axis_walk] in H.
  destruct (_get_node_idx s (vadd (ax_node st) vec1) =? -1) eqn:Enode.
  - injection H as <-. exact I.
  - destruct I as [In1 It1 It2 Is].
    assert (Hnode : vadd (ax_node st) vec1 = scale (ax_idx st + 1) vec1).
    { rewrite In1. apply vadd_scale_succ. }
    assert (Htop1 : ax_top1 st = vadd (scale (ax_idx st + 1) vec1) vec3).
    { rewrite It1, Hv, <- vadd_scale_succ, vadd_vsub. reflexivity. }
    revert H.
    set (pick := if negb (ax_last_edge_found st) then _ else _).
    assert (Hpick : fst pick = 0 \/
                    initial_direction s (scale (fst pick) vec1) vec2 vec3 <> None).
    { subst pick. destruct (negb (ax_last_edge_found st)); [|exact Is].
      destruct (negb (_get_node_idx s (ax_top1 st) =? -1) &&
                contains_edge s (_get_node_idx s (vadd (ax_node st) vec1),
                                 _get_node_idx s (ax_top1 st))) eqn:E1.
      - right. cbn [fst]. unfold initial_direction.
        rewrite <- Htop1, <- It2, <- Hnode.
        destruct (negb (_get_node_idx s (ax_top2 st) =? -1) &&
                  contains_edge s (_get_node_idx s (vadd (ax_node st) vec1),
                                   _get_node_idx s (ax_top2 st))); [discriminate|].
        rewrite E1. discriminate.
      - destruct (negb (_get_node_idx s (ax_top2 st) =? -1) &&
                  contains_edge s (_get_node_idx s (vadd (ax_node st) vec1),
                                   _get_node_idx s (ax_top2 st))) eqn:E2; [|exact Is].
        right. cbn [fst]. unfold initial_direction.
        rewrite <- It2, <- Hnode, E2. discriminate. }
    destruct pick as [last_idx found]. intros H. refine (IH _ _ _ H).
    constructor; cbn.
    + exact Hnode.
    + exact It2.
    + rewrite It2. rewrite <- (vadd_scale_succ (ax_idx st + 1)). apply vadd_shift.
    + exact Hpick.
Qed.

(** ** Computations that only touch fresh objects *)

Lemma set_nth_length {A : Type} (k : nat) (x : A) (l : list A) :
  length (set_nth k x l) = length l.
Proof.
  revert k. induction l as [|y l IH]; intros k; [reflexivity|].
  destruct k; simpl; [reflexivity|]. f_equal. apply IH.
Qed.

Lemma set_nth_firstn {A : Type} (n k : nat) (x : A) (l : list A) :
  (n <= k)%nat -> firstn n (set_nth k x l) = firstn n l.
Proof.
  revert n k. induction l as [|y l IH]; intros n k H; [reflexivity|].
  destruct k; simpl.
  - assert (n = O) by lia. subst n. reflexivity.
  - destruct n; [reflexivity|]. simpl. f_equal. apply IH. lia.
Qed.

Lemma preserves_weaken {A : Type} (n0 : nat) (c : M A) (Q Q' : A -> Prop) :
  (forall a, Q a -> Q' a) -> preserves n0 c Q -> preserves n0 c Q'.
Proof.
  intros HQ Hc h Hh. destruct (Hc h Hh) as (H1 & H2 & H3).
  split; [exact H1|]. split; [exact H2|]. intros a Ha. apply HQ, H3, Ha.
Qed.

Lemma preserves_ret {A : Type} (n0 : nat) (a : A) (Q : A -> Prop) :
  Q a -> preserves n0 (ret a) Q.
Proof.
  intros HQ h Hh. cbn. split; [reflexivity|]. split; [lia|].
  intros a' Ha'. injection Ha' as <-. exact HQ.
Qed.

Lemma preserves_raise {A : Type} (n0 : nat) (Q : A -> Prop) :
  preserves n0 (@raise A) Q.
Proof.
  intros h Hh. cbn. split; [reflexivity|]. split; [lia|]. intros a Ha. discriminate.
Qed.

Lemma preserves_lift {A : Type} (n0 : nat) (o : option A) :
  preserves n0 (lift o) (fun a => o = Some a).
Proof.
  destruct o as [a|]; [apply preserves_ret; reflexivity|apply preserves_raise].
Qed.

Lemma preserves_lift_any {A : Type} (n0 : nat) (o : option A) :
  preserves n0 (lift o) (fun _ => True).
Proof.
  destruct o as [a|]; [apply preserves_ret; exact I|apply preserves_raise].
Qed.

Lemma preserves_bind {A B : Type} (n0 : nat) (c : M A) (k : A -> M B)
    (Q : A -> Prop) (R : B -> Prop) :
  preserves n0 c Q -> (forall a, Q a -> preserves n0 (k a) R) ->
  preserves n0 (bind c k) R.
Proof.
  intros Hc Hk h Hh. destruct (Hc h Hh) as (H1 & H2 & H3).
  unfold bind. destruct (c h) as [h' [a|]]; cbn [fst snd] in *.
  - destruct (Hk a (H3 a eq_refl) h') as (K1 & K2 & K3); [lia|].
    split; [congruence|]. split; [lia|exact K3].
  - split; [exact H1|]. split; [exact H2|]. intros b Hb. discriminate.
Qed.

Lemma preserves_alloc (n0 : nat) (o : obj) :
  preserves n0 (alloc o) (fun r => (n0 <= r)%nat).
Proof.
  intros h Hh. unfold alloc. cbn [fst snd]. split.
  - rewrite firstn_app. replace (n0 - length h)%nat with O by lia.
    cbn [firstn]. rewrite app_nil_r. reflexivity.
  - split; [rewrite length_app; lia|]. intros a Ha. injection Ha as <-. exact Hh.
Qed.

Lemma preserves_read (n0 : nat) (r : ref) :
  preserves n0 (read r) (fun _ => True).
Proof.
  intros h Hh. unfold read. destruct (nth_error h r); cbn [fst snd]; auto.
Qed.

Lemma preserves_write (n0 : nat) (r : ref) (o : obj) :
  (n0 <= r)%nat -> preserves n0 (write r o) (fun _ => True).
Proof.
  intros Hr h Hh. unfold write. destruct (r <? length h)%nat; cbn [fst snd].
  - split; [apply set_nth_firstn, Hr|]. split; [rewrite set_nth_length; lia|auto].
  - auto.
Qed.

Lemma preserves_read_points (n0 : nat) (r : ref) :
  preserves n0 (read_points r) (fun _ => True).
Proof.
  apply preserves_bind with (Q := fun _ => True); [apply preserves_read|].
  intros [] _; try apply preserves_raise. apply preserves_ret. exact I.
Qed.

Lemma preserves_read_edges (n0 : nat) (r : ref) :
  preserves n0 (read_edges r) (fun _ => True).
Proof.
  apply preserves_bind with (Q := fun _ => True); [apply preserves_read|].
  intros [] _; try apply preserves_raise. apply preserves_ret. exact I.
Qed.

Lemma preserves_read_faces (n0 : nat) (r : ref) :
  preserves n0 (read_faces r) (fun _ => True).
Proof.
  apply preserves_bind with (Q := fun _ => True); [apply preserves_read|].
  intros [] _; try apply preserves_raise. apply preserves_ret. exact I.
Qed.

Lemma preserves_read_ints (n0 : nat) (r : ref) :
  preserves n0 (read_ints r) (fun _ => True).
Proof.
  apply preserves_bind with (Q := fun _ => True); [apply preserves_read|].
  intros [] _; try apply preserves_raise. apply preserves_ret. exact I.
Qed.

Lemma preserves_attr_nodes (n0 : nat) (self : ref) :
  preserves n0 (attr_nodes self) (fun _ => True).
Proof.
  apply preserves_bind with (Q := fun _ => True); [apply preserves_read|].
  intros [] _; try apply preserves_raise; apply preserves_ret; exact I.
Qed.

Lemma preserves_attr_edges (n0 : nat) (self : ref) :
  preserves n0 (attr_edges self) (fun _ => True).
Proof.
  apply preserves_bind with (Q := fun _ => True); [apply preserves_read|].
  intros [] _; try apply preserves_raise; apply preserves_ret; exact I.
Qed.

Lemma preserves_attr_faces (n0 : nat) (self : ref) :
  preserves n0 (attr_faces self) (fun _ => True).
Proof.
  apply preserves_bind with (Q := fun _ => True); [apply preserves_read|].
  intros [] _; try apply preserves_raise; apply preserves_ret; exact I.
Qed.

Lemma preserves_copy_points (n0 : nat) (r : ref) :
  preserves n0 (copy_points r) (fun r' => (n0 <= r')%nat).
Proof.
  apply preserves_bind with (Q := fun _ => True); [apply preserves_read_points|].
  intros l _. apply preserves_alloc.
Qed.

Lemma preserves_copy_edges (n0 : nat) (r : ref) :
  preserves n0 (copy_edges r) (fun r' => (n0 <= r')%nat).
Proof.
  apply preserves_bind with (Q := fun _ => True); [apply preserves_read_edges|].
  intros l _. apply preserves_alloc.
Qed.

Lemma preserves_copy_faces (n0 : nat) (r : ref) :
  preserves n0 (copy_faces r) (fun r' => (n0 <= r')%nat).
Proof.
  apply preserves_bind with (Q := fun _ => True); [apply preserves_read_faces|].
  intros l _. apply preserves_alloc.
Qed.

Lemma preserves_append_point (n0 : nat) (r : ref) (p : point) :
  (n0 <= r)%nat -> preserves n0 (append_point r p) (fun _ => True).
Proof.
  intros Hr. apply preserves_bind with (Q := fun _ => True); [apply preserves_read_points|].
  intros l _. apply preserves_write, Hr.
Qed.

Lemma preserves_append_edge (n0 : nat) (r : ref) (e : edge_t) :
  (n0 <= r)%nat -> preserves n0 (append_edge r e) (fun _ => True).
Proof.
  intros Hr. apply preserves_bind with (Q := fun _ => True); [apply preserves_read_edges|].
  intros l _. apply preserves_write, Hr.
Qed.

Lemma preserves_append_face (n0 : nat) (r : ref) (f : face_t) :
  (n0 <= r)%nat -> preserves n0 (append_face r f) (fun _ => True).
Proof.
  intros Hr. apply preserves_bind with (Q := fun _ => True); [apply preserves_read_faces|].
  intros l _. apply preserves_write, Hr.
Qed.

Lemma preserves_append_int (n0 : nat) (r : ref) (i : Z) :
  (n0 <= r)%nat -> preserves n0 (append_int r i) (fun _ => True).
Proof.
  intros Hr. apply preserves_bind with (Q := fun _ => True); [apply preserves_read_ints|].
  intros l _. apply preserves_write, Hr.
Qed.

Lemma preserves_setitem_point (n0 : nat) (r : ref) (i : Z) (p : point) :
  (n0 <= r)%nat -> preserves n0 (setitem_point r i p) (fun _ => True).
Proof.
  intros Hr. apply preserves_bind with (Q := fun _ => True); [apply preserves_read_points|].
  intros l _. destruct ((0 <=? i) && (i <? Z.of_nat (length l))).
  - apply preserves_write, Hr.
  - apply preserves_raise.
Qed.

Lemma preserves_for_each {A S : Type} (n0 : nat) (body : S -> A -> M S) (xs : list A) :
  (forall acc x, preserves n0 (body acc x) (fun _ => True)) ->
  forall acc, preserves n0 (for_each xs body acc) (fun _ => True).
Proof.
  intros Hbody. induction xs as [|x xs IH]; intros acc.
  - apply preserves_ret. exact I.
  - cbn [for_each]. apply preserves_bind with (Q := fun _ => True); [apply Hbody|].
    intros acc' _. apply IH.
Qed.

Ltac frame_step :=
  first
    [ apply preserves_ret; exact I
    | apply preserves_raise
    | apply preserves_read_points
    | apply preserves_read_edges
    | apply preserves_read_faces
    | apply preserves_read_ints
    | apply preserves_attr_nodes
    | apply preserves_attr_edges
    | apply preserves_attr_faces
    | apply preserves_append_point; assumption
    | apply preserves_append_edge; assumption
    | apply preserves_append_face; assumption
    | apply preserves_append_int; assumption
    | apply preserves_setitem_point; assumption
    | apply preserves_lift_any ].

Ltac frame_bind :=
  apply preserves_bind with (Q := fun _ => True); [frame_step|intros ? _].

Lemma preserves_rotate_node (n0 : nat) (nodes : ref) (rot : Z) (u : unit) (i : Z) :
  (n0 <= nodes)%nat -> preserves n0 (rotate_node nodes rot u i) (fun _ => True).
Proof.
  intros Hn. unfold rotate_node. do 3 frame_bind. frame_step.
Qed.

Lemma preserves_shift_node (n0 : nat) (self nodes shift_nodes shifted_nodes shifted_edges : ref)
    (vec : point) (n i : Z) :
  (n0 <= shift_nodes)%nat -> (n0 <= shifted_nodes)%nat -> (n0 <= shifted_edges)%nat ->
  preserves n0 (shift_node self nodes shift_nodes shifted_nodes shifted_edges vec n i)
            (fun _ => True).
Proof.
  intros H1 H2 H3. unfold shift_node. do 2 frame_bind.
  destruct (index_from _ _ 0 =? -1).
  - do 3 frame_bind. frame_step.
  - do 2 frame_bind. destruct (contains_edge_in _ _); [frame_step|].
    frame_bind. frame_step.
Qed.

Lemma preserves_span_edge (n0 : nat)
    (nodes all_nodes edges shifted_edges add_edges faces add_faces : ref)
    (vec : point) (shift_dir : Z) (u : unit) (edge : edge_t) :
  (n0 <= add_edges)%nat -> (n0 <= add_faces)%nat ->
  preserves n0 (span_edge nodes all_nodes edges shifted_edges add_edges faces add_faces
                          vec shift_dir u edge) (fun _ => True).
Proof.
  intros H1 H2. unfold span_edge. do 4 frame_bind.
  destruct (_ || _); [frame_step|].
  do 4 frame_bind.
  apply preserves_bind with (Q := fun _ => True).
  { destruct (_ && _); frame_step. }
  intros _ _.
  destruct (if Py.mem point_eqb _ DIR_VECS then _ else _) as [[diag f1] f2].
  frame_bind.
  apply preserves_bind with (Q := fun _ => True).
  { destruct (existsb _ _); frame_step. }
  intros _ _. do 2 frame_bind.
  apply preserves_bind with (Q := fun _ => True).
  { destruct (_ && _); frame_step. }
  intros _ _. destruct (_ && _); frame_step.
Qed.

Lemma preserves_gen_shifted_shape (n0 : nat) (self : ref) (p : point) (rot shift_dir : Z) :
  preserves n0 (gen_shifted_shape_h self p rot shift_dir) (fun r => (n0 <= r)%nat).
Proof.
  unfold gen_shifted_shape_h.
  frame_bind.
  apply preserves_bind with (Q := fun r => (n0 <= r)%nat); [apply preserves_copy_points|].
  intros nodes Hnodes. frame_bind.
  apply preserves_bind with (Q := fun r => (n0 <= r)%nat); [apply preserves_copy_edges|].
  intros edges Hedges. frame_bind.
  apply preserves_bind with (Q := fun r => (n0 <= r)%nat); [apply preserves_copy_faces|].
  intros faces Hfaces.
  apply preserves_bind with (Q := fun _ => True).
  { destruct (rot >? 0); [|frame_step]. frame_bind.
    apply preserves_for_each. intros acc x. apply preserves_rotate_node, Hnodes. }
  intros _ _. frame_bind.
  apply preserves_bind with (Q := fun r => (n0 <= r)%nat); [apply preserves_alloc|].
  intros shift_nodes Hsn.
  apply preserves_bind with (Q := fun r => (n0 <= r)%nat); [apply preserves_alloc|].
  intros shifted_nodes Hshn.
  apply preserves_bind with (Q := fun r => (n0 <= r)%nat); [apply preserves_alloc|].
  intros shifted_edges Hshe. frame_bind.
  apply preserves_bind with (Q := fun _ => True).
  { apply preserves_for_each. intros acc x. apply preserves_shift_node; assumption. }
  intros _ _. do 2 frame_bind.
  apply preserves_bind with (Q := fun r => (n0 <= r)%nat); [apply preserves_alloc|].
  intros all_nodes Han.
  apply preserves_bind with (Q := fun r => (n0 <= r)%nat); [apply preserves_alloc|].
  intros add_edges Hae.
  apply preserves_bind with (Q := fun r => (n0 <= r)%nat); [apply preserves_alloc|].
  intros add_faces Haf. frame_bind.
  apply preserves_bind with (Q := fun _ => True).
  { apply preserves_for_each. intros acc x. apply preserves_span_edge; assumption. }
  intros _ _. do 3 frame_bind.
  apply preserves_bind with (Q := fun r => (n0 <= r)%nat); [apply preserves_alloc|].
  intros new_edges Hne. do 2 frame_bind.
  apply preserves_bind with (Q := fun r => (n0 <= r)%nat); [apply preserves_alloc|].
  intros new_faces Hnf. apply preserves_alloc.
Qed.

Lemma firstn_all_app {A : Type} (h h' : list A) :
  firstn (length h) h' = h -> exists ext, h' = h ++ ext.
Proof.
  intros H. exists (skipn (length h) h'). rewrite <- H at 1. symmetry. apply firstn_skipn.
Qed.

Lemma gen_shifted_shape_extends (h : heap) (self : ref) (p : point) (rot shift_dir : Z) :
  exists ext, fst (gen_shifted_shape_h self p rot shift_dir h) = h ++ ext.
Proof.
  destruct (preserves_gen_shifted_shape (length h) self p rot shift_dir h (Nat.le_refl _))
    as (H1 & _ & _).
  apply firstn_all_app. rewrite H1. apply firstn_all.
Qed.

(** ** Running [gen_shifted_shape] on a well-formed snowflake *)

Lemma bind_run {A B : Type} (c : M A) (k : A -> M B) (h h' : heap) (a : A) :
  c h = (h', Some a) -> bind c k h = k a h'.
Proof. intros H. unfold bind. rewrite H. reflexivity. Qed.

Lemma set_nth_app {A : Type} (pre : list A) (x y : A) (rest : list A) :
  set_nth (length pre) y (pre ++ x :: rest) = pre ++ y :: rest.
Proof. induction pre as [|z pre IH]; simpl; [reflexivity|]. f_equal. exact IH. Qed.

Lemma set_nth_app_r {A : Type} (h0 blk : list A) (k : nat) (x : A) :
  (k < length blk)%nat ->
  set_nth (length h0 + k)%nat x (h0 ++ blk) = h0 ++ set_nth k x blk.
Proof.
  intros Hk. induction h0 as [|y h0 IH]; simpl; [reflexivity|].
  destruct blk as [|b blk]; [simpl in Hk; lia|].
  f_equal. destruct h0; exact IH.
Qed.

Section Offsets.

Variable h0 : heap.

Lemma read_new (blk : heap) (k : nat) (o : obj) :
  nth_error blk k = Some o -> read (length h0 + k)%nat (h0 ++ blk) = (h0 ++ blk, Some o).
Proof.
  intros H. unfold read. rewrite nth_error_app2 by lia.
  replace (length h0 + k - length h0)%nat with k by lia. rewrite H. reflexivity.
Qed.

Lemma read_old (blk : heap) (r : ref) (o : obj) :
  nth_error h0 r = Some o -> read r (h0 ++ blk) = (h0 ++ blk, Some o).
Proof.
  intros H. unfold read. rewrite nth_error_app1.
  - rewrite H. reflexivity.
  - apply nth_error_Some. rewrite H. discriminate.
Qed.

Lemma write_new (blk : heap) (k : nat) (o : obj) :
  (k < length blk)%nat ->
  write (length h0 + k)%nat o (h0 ++ blk) = (h0 ++ set_nth k o blk, Some tt).
Proof.
  intros H. unfold write. rewrite length_app.
  replace (length h0 + k <? length h0 + length blk)%nat with true.
  - rewrite set_nth_app_r by exact H. reflexivity.
  - symmetry. apply Nat.ltb_lt. lia.
Qed.

Lemma alloc_new (blk : heap) (o : obj) :
  alloc o (h0 ++ blk) = (h0 ++ (blk ++ [o]), Some (length h0 + length blk)%nat).
Proof. unfold alloc. rewrite length_app, app_assoc. reflexivity. Qed.

Lemma nth_error_lt {A : Type} (l : list A) (k : nat) (x : A) :
  nth_error l k = Some x -> (k < length l)%nat.
Proof. intros H. apply nth_error_Some. rewrite H. discriminate. Qed.

Lemma read_points_new (blk : heap) (k : nat) (l : list point) :
  nth_error blk k = Some (OPoints l) ->
  read_points (length h0 + k)%nat (h0 ++ blk) = (h0 ++ blk, Some l).
Proof.
  intros H. unfold read_points. rewrite (bind_run _ _ _ _ _ (read_new _ _ _ H)). reflexivity.
Qed.

Lemma read_edges_new (blk : heap) (k : nat) (l : list edge_t) :
  nth_error blk k = Some (OEdges l) ->
  read_edges (length h0 + k)%nat (h0 ++ blk) = (h0 ++ blk, Some l).
Proof.
  intros H. unfold read_edges. rewrite (bind_run _ _ _ _ _ (read_new _ _ _ H)). reflexivity.
Qed.

Lemma read_faces_new (blk : heap) (k : nat) (l : list face_t) :
  nth_error blk k = Some (OFaces l) ->
  read_faces (length h0 + k)%nat (h0 ++ blk) = (h0 ++ blk, Some l).
Proof.
  intros H. unfold read_faces. rewrite (bind_run _ _ _ _ _ (read_new _ _ _ H)). reflexivity.
Qed.

Lemma read_points_old (blk : heap) (r : ref) (l : list point) :
  nth_error h0 r = Some (OPoints l) -> read_points r (h0 ++ blk) = (h0 ++ blk, Some l).
Proof.
  intros H. unfold read_points. rewrite (bind_run _ _ _ _ _ (read_old _ _ _ H)). reflexivity.
Qed.

Lemma read_edges_old (blk : heap) (r : ref) (l : list edge_t) :
  nth_error h0 r = Some (OEdges l) -> read_edges r (h0 ++ blk) = (h0 ++ blk, Some l).
Proof.
  intros H. unfold read_edges. rewrite (bind_run _ _ _ _ _ (read_old _ _ _ H)). reflexivity.
Qed.

Lemma read_faces_old (blk : heap) (r : ref) (l : list face_t) :
  nth_error h0 r = Some (OFaces l) -> read_faces r (h0 ++ blk) = (h0 ++ blk, Some l).
Proof.
  intros H. unfold read_faces. rewrite (bind_run _ _ _ _ _ (read_old _ _ _ H)). reflexivity.
Qed.

Lemma append_point_new (blk : heap) (k : nat) (l : list point) (p : point) :
  nth_error blk k = Some (OPoints l) ->
  append_point (length h0 + k)%nat p (h0 ++ blk)
  = (h0 ++ set_nth k (OPoints (l ++ [p])) blk, Some tt).
Proof.
  intros H. unfold append_point. rewrite (bind_run _ _ _ _ _ (read_points_new _ _ _ H)).
  apply write_new. apply (nth_error_lt _ _ _ H).
Qed.

Lemma append_edge_new (blk : heap) (k : nat) (l : list edge_t) (e : edge_t) :
  nth_error blk k = Some (OEdges l) ->
  append_edge (length h0 + k)%nat e (h0 ++ blk)
  = (h0 ++ set_nth k (OEdges (l ++ [e])) blk, Some tt).
Proof.
  intros H. unfold append_edge. rewrite (bind_run _ _ _ _ _ (read_edges_new _ _ _ H)).
  apply write_new. apply (nth_error_lt _ _ _ H).
Qed.

Lemma append_face_new (blk : heap) (k : nat) (l : list face_t) (f : face_t) :
  nth_error blk k = Some (OFaces l) ->
  append_face (length h0 + k)%nat f (h0 ++ blk)
  = (h0 ++ set_nth k (OFaces (l ++ [f])) blk, Some tt).
Proof.
  intros H. unfold append_face. rewrite (bind_run _ _ _ _ _ (read_faces_new _ _ _ H)).
  apply write_new. apply (nth_error_lt _ _ _ H).
Qed.

Lemma append_int_new (blk : heap) (k : nat) (l : list Z) (i : Z) :
  nth_error blk k = Some (OInts l) ->
  append_int (length h0 + k)%nat i (h0 ++ blk)
  = (h0 ++ set_nth k (OInts (l ++ [i])) blk, Some tt).
Proof.
  intros H. unfold append_int, read_ints.
  rewrite (bind_run _ _ _ _ _ (bind_run _ _ _ _ _ (read_new _ _ _ H))).
  apply write_new. apply (nth_error_lt _ _ _ H).
Qed.

Lemma setitem_point_new (blk : heap) (k : nat) (l : list point) (i : nat) (p : point) :
  nth_error blk k = Some (OPoints l) -> (i < length l)%nat ->
  setitem_point (length h0 + k)%nat (Z.of_nat i) p (h0 ++ blk)
  = (h0 ++ set_nth k (OPoints (set_nth i p l)) blk, Some tt).
Proof.
  intros H Hi. unfold setitem_point. rewrite (bind_run _ _ _ _ _ (read_points_new _ _ _ H)).
  replace ((0 <=? Z.of_nat i) && (Z.of_nat i <? Z.of_nat (length l))) with true.
  - rewrite Nat2Z.id. apply write_new. apply (nth_error_lt _ _ _ H).
  - symmetry. apply andb_true_iff. split; [apply Z.leb_le|apply Z.ltb_lt]; lia.
Qed.

End Offsets.

(** *** Rotation *)

Lemma rotate_defined (rot : Z) (p : point) :
  0 <= rot <= 5 ->
  rotate_grid_point (fst p) (snd p) rot = Some (rotate_point rot p).
Proof.
  intros H. unfold rotate_point.
  assert (Hc : rot = 0 \/ rot = 1 \/ rot = 2 \/ rot = 3 \/ rot = 4 \/ rot = 5) by lia.
  destruct Hc as [->|[->|[->|[->|[->| ->]]]]]; reflexivity.
Qed.

Lemma rotate_point_formula (rot : Z) :
  0 <= rot <= 5 ->
  exists vx vy : point, forall p,
    rotate_point rot p = (fst vx * fst p + fst vy * snd p, snd vx * fst p + snd vy * snd p).
Proof.
  intros H.
  assert (Hc : rot = 0 \/ rot = 1 \/ rot = 2 \/ rot = 3 \/ rot = 4 \/ rot = 5) by lia.
  destruct Hc as [->|[->|[->|[->|[->| ->]]]]].
  - exists (1, 0), (0, 1). intros p. reflexivity.
  - exists (0, 1), (-1, 1). intros p. reflexivity.
  - exists (-1, 1), (-1, 0). intros p. reflexivity.
  - exists (-1, 0), (0, -1). intros p. reflexivity.
  - exists (0, -1), (1, -1). intros p. reflexivity.
  - exists (1, -1), (1, 0). intros p. reflexivity.
Qed.

Lemma rotate_point_linear (rot : Z) (p q : point) :
  0 <= rot <= 5 ->
  vsub (rotate_point rot p) (rotate_point rot q) = rotate_point rot (vsub p q).
Proof.
  intros H. destruct (rotate_point_formula rot H) as (vx & vy & E).
  rewrite !E. unfold vsub. cbn [fst snd]. f_equal; ring.
Qed.

Lemma rotate_point_dir (rot : Z) (v : point) :
  0 <= rot <= 5 -> In v DIR_VECS -> In (rotate_point rot v) DIR_VECS.
Proof.
  intros H Hv.
  assert (Hc : rot = 0 \/ rot = 1 \/ rot = 2 \/ rot = 3 \/ rot = 4 \/ rot = 5) by lia.
  simpl in Hv.
  destruct Hc as [->|[->|[->|[->|[->| ->]]]]];
    repeat (destruct Hv as [<-|Hv]; [vm_compute; tauto|]); destruct Hv.
Qed.

Lemma dir_index_in (v : point) : In v DIR_VECS -> exists d, dir_index v = Some d.
Proof.
  intros H. unfold dir_index.
  destruct (index_from_in v DIR_VECS 0 H) as (k & _ & E & _). rewrite E.
  destruct (0 + Z.of_nat k =? -1) eqn:F; [apply Z.eqb_eq in F; lia|eauto].
Qed.

Lemma rotate_fold (rot : Z) (rest pre : list point) :
  fold_left (fun l k => set_nth (Z.to_nat k) (rotate_point rot (nth (Z.to_nat k) l (0, 0))) l)
            (map Z.of_nat (seq (length pre) (length rest))) (pre ++ rest)
  = pre ++ map (rotate_point rot) rest.
Proof.
  revert pre. induction rest as [|x rest IH]; intros pre; [reflexivity|].
  cbn [length seq map fold_left]. rewrite Nat2Z.id, nth_middle, set_nth_app.
  change (pre ++ rotate_point rot x :: rest) with (pre ++ [rotate_point rot x] ++ rest).
  rewrite app_assoc.
  replace (S (length pre)) with (length (pre ++ [rotate_point rot x]))
    by (rewrite length_app; simpl; lia).
  rewrite IH, <- app_assoc. reflexivity.
Qed.

Lemma getitem_valid {A : Type} (l : list A) (i : Z) :
  0 <= i < Z.of_nat (length l) -> Py.getitem l i = nth_error l (Z.to_nat i).
Proof.
  intros H. rewrite <- (Z2Nat.id i) at 1 by lia. apply getitem_nat. lia.
Qed.

Lemma getitem_nth (l : list point) (i : Z) :
  0 <= i < Z.of_nat (length l) -> Py.getitem l i = Some (nth (Z.to_nat i) l (0, 0)).
Proof.
  intros H. rewrite getitem_valid by exact H. apply nth_error_nth'. lia.
Qed.

Lemma range_of_length_In (m : nat) (k : Z) :
  In k (range (Z.of_nat m)) -> 0 <= k < Z.of_nat m.
Proof.
  unfold range. rewrite Nat2Z.id. intros H. apply in_map_iff in H.
  destruct H as (j & <- & Hj). apply in_seq in Hj. lia.
Qed.

Lemma set_nth_same {A : Type} (k : nat) (x : A) (l : list A) :
  nth_error l k = Some x -> set_nth k x l = l.
Proof.
  revert k. induction l as [|y l IH]; intros k H; [reflexivity|].
  destruct k; simpl in *.
  - injection H as ->. reflexivity.
  - f_equal. apply IH, H.
Qed.

Section Loops.

Variable h0 : heap.

Lemma setitem_point_at (blk : heap) (k : nat) (l : list point) (i : Z) (p : point) :
  nth_error blk k = Some (OPoints l) -> 0 <= i < Z.of_nat (length l) ->
  setitem_point (length h0 + k)%nat i p (h0 ++ blk)
  = (h0 ++ set_nth k (OPoints (set_nth (Z.to_nat i) p l)) blk, Some tt).
Proof.
  intros H Hi. rewrite <- (Z2Nat.id i) at 1 by lia.
  apply setitem_point_new; [exact H|lia].
Qed.

Lemma cond_append_edge (blk : heap) (k : nat) (l : list edge_t) (b : bool) (e : edge_t) :
  nth_error blk k = Some (OEdges l) ->
  (if b then ret tt else append_edge (length h0 + k)%nat e) (h0 ++ blk)
  = (h0 ++ set_nth k (OEdges (if b then l else l ++ [e])) blk, Some tt).
Proof.
  intros H. destruct b.
  - rewrite (set_nth_same _ _ _ H). reflexivity.
  - apply append_edge_new, H.
Qed.

Lemma cond_append_face (blk : heap) (k : nat) (l : list face_t) (b : bool) (f : face_t) :
  nth_error blk k = Some (OFaces l) ->
  (if b then ret tt else append_face (length h0 + k)%nat f) (h0 ++ blk)
  = (h0 ++ set_nth k (OFaces (if b then l else l ++ [f])) blk, Some tt).
Proof.
  intros H. destruct b.
  - rewrite (set_nth_same _ _ _ H). reflexivity.
  - apply append_face_new, H.
Qed.

Lemma rotate_loop (rot : Z) (es : list edge_t) (fs : list face_t) :
  0 <= rot <= 5 ->
  forall ks cur,
  (forall k, In k ks -> 0 <= k < Z.of_nat (length cur)) ->
  for_each ks (rotate_node (length h0 + 0)%nat rot) tt
           (h0 ++ [OPoints cur; OEdges es; OFaces fs])
  = (h0 ++ [OPoints (fold_left (fun l k => set_nth (Z.to_nat k)
                                   (rotate_point rot (nth (Z.to_nat k) l (0, 0))) l) ks cur);
            OEdges es; OFaces fs], Some tt).
Proof.
  intros Hrot. induction ks as [|k ks IH]; intros cur Hk; [reflexivity|].
  cbn [for_each fold_left].
  assert (Hk0 := Hk k (or_introl eq_refl)).
  assert (Hbody : rotate_node (length h0 + 0)%nat rot tt k
                    (h0 ++ [OPoints cur; OEdges es; OFaces fs])
                  = (h0 ++ [OPoints (set_nth (Z.to_nat k)
                                       (rotate_point rot (nth (Z.to_nat k) cur (0, 0))) cur);
                            OEdges es; OFaces fs], Some tt)).
  { unfold rotate_node.
    erewrite bind_run by (apply read_points_new; reflexivity).
    rewrite (getitem_nth _ _ Hk0). cbn [lift].
    erewrite bind_run by reflexivity.
    rewrite (rotate_defined rot _ Hrot). cbn [lift].
    erewrite bind_run by reflexivity.
    erewrite setitem_point_at; [reflexivity|reflexivity|exact Hk0]. }
  rewrite (bind_run _ _ _ _ _ Hbody). apply IH.
  intros k' Hk'. rewrite set_nth_length. apply Hk. right. exact Hk'.
Qed.

Lemma shift_loop (self er nr fr ar cr pr : ref) (p : point) (es0 : list edge_t)
    (ns : list point) (es : list edge_t) (fs : list face_t) (vec : point) :
  nth_error h0 self = Some (OSnowflake p nr er fr ar cr pr) ->
  nth_error h0 er = Some (OEdges es0) ->
  forall ks n sn shn she,
  (forall k, In k ks -> 0 <= k < Z.of_nat (length ns)) ->
  exists n' sn' shn' she',
    for_each ks (shift_node self (length h0 + 0)%nat (length h0 + 3)%nat
                            (length h0 + 4)%nat (length h0 + 5)%nat vec) n
             (h0 ++ [OPoints ns; OEdges es; OFaces fs; OInts sn; OPoints shn; OEdges she])
    = (h0 ++ [OPoints ns; OEdges es; OFaces fs; OInts sn'; OPoints shn'; OEdges she'],
       Some n').
Proof.
  intros Hself Her. induction ks as [|k ks IH]; intros n sn shn she Hk.
  - exists n, sn, shn, she. reflexivity.
  - cbn [for_each].
    assert (Hk0 := Hk k (or_introl eq_refl)).
    assert (Hbody : exists n1 sn1 shn1 she1,
               shift_node self (length h0 + 0)%nat (length h0 + 3)%nat
                          (length h0 + 4)%nat (length h0 + 5)%nat vec n k
                 (h0 ++ [OPoints ns; OEdges es; OFaces fs; OInts sn; OPoints shn; OEdges she])
               = (h0 ++ [OPoints ns; OEdges es; OFaces fs; OInts sn1; OPoints shn1;
                         OEdges she1], Some n1)).
    { unfold shift_node.
      erewrite bind_run by (apply read_points_new; reflexivity).
      rewrite (getitem_nth _ _ Hk0). cbn [lift].
      erewrite bind_run by reflexivity.
      destruct (index_from _ ns 0 =? -1).
      - erewrite bind_run by (apply append_int_new; reflexivity). cbn [set_nth].
        erewrite bind_run by (apply append_point_new; reflexivity). cbn [set_nth].
        erewrite bind_run by (apply append_edge_new; reflexivity). cbn [set_nth].
        do 4 eexists. reflexivity.
      - unfold attr_edges.
        erewrite bind_run by (erewrite bind_run by (apply read_old; exact Hself); reflexivity).
        erewrite bind_run by (apply read_edges_old; exact Her).
        destruct (contains_edge_in es0 _).
        + do 4 eexists. reflexivity.
        + erewrite bind_run by (apply append_edge_new; reflexivity). cbn [set_nth].
          do 4 eexists. reflexivity. }
    destruct Hbody as (n1 & sn1 & shn1 & she1 & Hbody).
    rewrite (bind_run _ _ _ _ _ Hbody). apply IH.
    intros k' Hk'. apply Hk. right. exact Hk'.
Qed.

End Loops.

Section SpanLoop.

Variable h0 : heap.

Lemma span_loop (ns : list point) (es : list edge_t) (fs : list face_t) (sn : list Z)
    (shn : list point) (she : list edge_t) (an : list point) (vec : point) (sd : Z) :
  forall es' ae af,
  (forall e, In e es' ->
     exists n1 n2 d, Py.getitem ns (fst e) = Some n1 /\ Py.getitem ns (snd e) = Some n2 /\
                     dir_index (vsub n2 n1) = Some d) ->
  exists ae' af',
    for_each es' (span_edge (length h0 + 0)%nat (length h0 + 6)%nat (length h0 + 1)%nat
                            (length h0 + 5)%nat (length h0 + 7)%nat (length h0 + 2)%nat
                            (length h0 + 8)%nat vec sd) tt
             (h0 ++ [OPoints ns; OEdges es; OFaces fs; OInts sn; OPoints shn; OEdges she;
                     OPoints an; OEdges ae; OFaces af])
    = (h0 ++ [OPoints ns; OEdges es; OFaces fs; OInts sn; OPoints shn; OEdges she;
              OPoints an; OEdges ae'; OFaces af'], Some tt).
Proof.
  induction es' as [|e es' IH]; intros ae af He.
  - exists ae, af. reflexivity.
  - cbn [for_each].
    destruct (He e (or_introl eq_refl)) as (n1 & n2 & d & E1 & E2 & Ed).
    assert (Hbody : exists ae1 af1,
               span_edge (length h0 + 0)%nat (length h0 + 6)%nat (length h0 + 1)%nat
                         (length h0 + 5)%nat (length h0 + 7)%nat (length h0 + 2)%nat
                         (length h0 + 8)%nat vec sd tt e
                 (h0 ++ [OPoints ns; OEdges es; OFaces fs; OInts sn; OPoints shn; OEdges she;
                         OPoints an; OEdges ae; OFaces af])
               = (h0 ++ [OPoints ns; OEdges es; OFaces fs; OInts sn; OPoints shn; OEdges she;
                         OPoints an; OEdges ae1; OFaces af1], Some tt)).
    { unfold span_edge.
      erewrite bind_run by (apply read_points_new; reflexivity).
      rewrite E1. cbn [lift]. erewrite bind_run by reflexivity.
      rewrite E2. cbn [lift]. erewrite bind_run by reflexivity.
      rewrite Ed. cbn [lift]. erewrite bind_run by reflexivity.
      destruct (_ || _).
      - do 2 eexists. reflexivity.
      - erewrite bind_run by (apply read_points_new; reflexivity).
        erewrite bind_run by (apply read_edges_new; reflexivity).
        erewrite bind_run by (apply read_edges_new; reflexivity).
        erewrite bind_run by (apply read_edges_new; reflexivity).
        erewrite bind_run by (apply cond_append_edge; reflexivity). cbn [set_nth].
        destruct (Py.mem point_eqb _ DIR_VECS).
        + erewrite bind_run by (apply read_edges_new; reflexivity).
          erewrite bind_run by (apply cond_append_edge; reflexivity). cbn [set_nth].
          erewrite bind_run by (apply read_faces_new; reflexivity).
          erewrite bind_run by (apply read_faces_new; reflexivity).
          erewrite bind_run by (apply cond_append_face; reflexivity). cbn [set_nth].
          erewrite cond_append_face by reflexivity. cbn [set_nth].
          do 2 eexists. reflexivity.
        + erewrite bind_run by (apply read_edges_new; reflexivity).
          erewrite bind_run by (apply cond_append_edge; reflexivity). cbn [set_nth].
          erewrite bind_run by (apply read_faces_new; reflexivity).
          erewrite bind_run by (apply read_faces_new; reflexivity).
          erewrite bind_run by (apply cond_append_face; reflexivity). cbn [set_nth].
          erewrite cond_append_face by reflexivity. cbn [set_nth].
          do 2 eexists. reflexivity. }
    destruct Hbody as (ae1 & af1 & Hbody).
    rewrite (bind_run _ _ _ _ _ Hbody). apply IH.
    intros e' He'. apply He. right. exact He'.
Qed.

End SpanLoop.
Section MainRun.

Variable h0 : heap.

Lemma attr_nodes_old (blk : heap) (self nr er fr ar cr pr : ref) (p : point) :
  nth_error h0 self = Some (OSnowflake p nr er fr ar cr pr) ->
  attr_nodes self (h0 ++ blk) = (h0 ++ blk, Some nr).
Proof.
  intros H. unfold attr_nodes. rewrite (bind_run _ _ _ _ _ (read_old _ _ _ _ H)). reflexivity.
Qed.

Lemma attr_edges_old (blk : heap) (self nr er fr ar cr pr : ref) (p : point) :
  nth_error h0 self = Some (OSnowflake p nr er fr ar cr pr) ->
  attr_edges self (h0 ++ blk) = (h0 ++ blk, Some er).
Proof.
  intros H. unfold attr_edges. rewrite (bind_run _ _ _ _ _ (read_old _ _ _ _ H)). reflexivity.
Qed.

Lemma attr_faces_old (blk : heap) (self nr er fr ar cr pr : ref) (p : point) :
  nth_error h0 self = Some (OSnowflake p nr er fr ar cr pr) ->
  attr_faces self (h0 ++ blk) = (h0 ++ blk, Some fr).
Proof.
  intros H. unfold attr_faces. rewrite (bind_run _ _ _ _ _ (read_old _ _ _ _ H)). reflexivity.
Qed.

Lemma copy_points_old (blk : heap) (r : ref) (l : list point) :
  nth_error h0 r = Some (OPoints l) ->
  copy_points r (h0 ++ blk) = (h0 ++ (blk ++ [OPoints l]), Some (length h0 + length blk)%nat).
Proof.
  intros H. unfold copy_points. rewrite (bind_run _ _ _ _ _ (read_points_old _ _ _ _ H)).
  apply alloc_new.
Qed.

Lemma copy_edges_old (blk : heap) (r : ref) (l : list edge_t) :
  nth_error h0 r = Some (OEdges l) ->
  copy_edges r (h0 ++ blk) = (h0 ++ (blk ++ [OEdges l]), Some (length h0 + length blk)%nat).
Proof.
  intros H. unfold copy_edges. rewrite (bind_run _ _ _ _ _ (read_edges_old _ _ _ _ H)).
  apply alloc_new.
Qed.

Lemma copy_faces_old (blk : heap) (r : ref) (l : list face_t) :
  nth_error h0 r = Some (OFaces l) ->
  copy_faces r (h0 ++ blk) = (h0 ++ (blk ++ [OFaces l]), Some (length h0 + length blk)%nat).
Proof.
  intros H. unfold copy_faces. rewrite (bind_run _ _ _ _ _ (read_faces_old _ _ _ _ H)).
  apply alloc_new.
Qed.

Lemma rotated_edges_walkable (rot : Z) (ns : list point) (es : list edge_t) :
  0 <= rot <= 5 -> unit_edges ns es ->
  forall e, In e es ->
  exists n1 n2 d,
    Py.getitem (if rot >? 0 then map (rotate_point rot) ns else ns) (fst e) = Some n1 /\
    Py.getitem (if rot >? 0 then map (rotate_point rot) ns else ns) (snd e) = Some n2 /\
    dir_index (vsub n2 n1) = Some d.
Proof.
  intros Hrot Hu e He. destruct (Hu e He) as (n1 & n2 & H1 & H2 & E1 & E2 & Hd).
  destruct (rot >? 0).
  - destruct (dir_index_in (vsub (rotate_point rot n2) (rotate_point rot n1))) as [d Ed].
    { rewrite rotate_point_linear by exact Hrot. apply rotate_point_dir; assumption. }
    exists (rotate_point rot n1), (rotate_point rot n2), d.
    rewrite !getitem_valid by (rewrite length_map; assumption).
    rewrite !nth_error_map, E1, E2. auto.
  - destruct (dir_index_in _ Hd) as [d Ed]. exists n1, n2, d.
    rewrite !getitem_valid by assumption. auto.
Qed.

Lemma gen_shifted_shape_runs (self : ref) (s : Shape) (p : point) (rot shift_dir : Z) :
  holds_snowflake h0 self s -> unit_edges (nodes s) (edges s) ->
  0 <= rot <= 5 -> 0 <= shift_dir <= 5 ->
  exists ns sn shn she ae af,
    gen_shifted_shape_h self p rot shift_dir (h0 ++ [])
    = (h0 ++ [OPoints ns; OEdges (edges s); OFaces (faces s);
              OInts sn; OPoints shn; OEdges she;
              OPoints (ns ++ shn); OEdges ae; OFaces af;
              OEdges (edges s ++ she ++ ae); OFaces (faces s ++ af);
              OShape p (length h0 + 6)%nat (length h0 + 9)%nat (length h0 + 10)%nat],
       Some (length h0 + 11)%nat).
Proof.
  intros (nr & er & fr & ar & cr & pr & Hself & Hnr & Her & Hfr) Hu Hrot Hsd.
  unfold gen_shifted_shape_h.
  rewrite (bind_run _ _ _ _ _ (attr_nodes_old _ _ _ _ _ _ _ _ _ Hself)).
  rewrite (bind_run _ _ _ _ _ (copy_points_old _ _ _ Hnr)). cbn [app length].
  rewrite (bind_run _ _ _ _ _ (attr_edges_old _ _ _ _ _ _ _ _ _ Hself)).
  rewrite (bind_run _ _ _ _ _ (copy_edges_old _ _ _ Her)). cbn [app length].
  rewrite (bind_run _ _ _ _ _ (attr_faces_old _ _ _ _ _ _ _ _ _ Hself)).
  rewrite (bind_run _ _ _ _ _ (copy_faces_old _ _ _ Hfr)). cbn [app length].
  set (ns := if rot >? 0 then map (rotate_point rot) (nodes s) else nodes s).
  assert (Hrotate :
            (if rot >? 0
             then l <- read_points (length h0 + 0)%nat ;;
                  for_each (range (Z.of_nat (length l)))
                           (rotate_node (length h0 + 0)%nat rot) tt
             else ret tt)
              (h0 ++ [OPoints (nodes s); OEdges (edges s); OFaces (faces s)])
            = (h0 ++ [OPoints ns; OEdges (edges s); OFaces (faces s)], Some tt)).
  { subst ns. destruct (rot >? 0); [|reflexivity].
    erewrite bind_run by (apply read_points_new; reflexivity).
    rewrite rotate_loop; [|exact Hrot|intros k; apply range_of_length_In].
    unfold range. rewrite Nat2Z.id.
    pose proof (rotate_fold rot (nodes s) []) as Hf. cbn [app length] in Hf.
    rewrite Hf. reflexivity. }
  rewrite (bind_run _ _ _ _ _ Hrotate).
  assert (Hvec : exists vec, Py.getitem DIR_VECS shift_dir = Some vec).
  { assert (Hc : shift_dir = 0 \/ shift_dir = 1 \/ shift_dir = 2 \/ shift_dir = 3 \/
                 shift_dir = 4 \/ shift_dir = 5) by lia.
    destruct Hc as [->|[->|[->|[->|[->| ->]]]]]; eexists; reflexivity. }
  destruct Hvec as [vec Hvec]. rewrite Hvec. cbn [lift].
  erewrite bind_run by reflexivity.
  erewrite bind_run by apply alloc_new. cbn [app length].
  erewrite bind_run by apply alloc_new. cbn [app length].
  erewrite bind_run by apply alloc_new. cbn [app length].
  erewrite bind_run by (apply read_points_new; reflexivity).
  destruct (shift_loop h0 self er nr fr ar cr pr (pos s) (edges s) ns (edges s) (faces s)
              vec Hself Her (range (Z.of_nat (length ns))) (Z.of_nat (length ns)) [] [] [])
    as (n' & sn & shn & she & Hshift).
  { intros k. apply range_of_length_In. }
  rewrite (bind_run _ _ _ _ _ Hshift).
  erewrite bind_run by (apply read_points_new; reflexivity).
  erewrite bind_run by (apply read_points_new; reflexivity).
  erewrite bind_run by apply alloc_new. cbn [app length].
  erewrite bind_run by apply alloc_new. cbn [app length].
  erewrite bind_run by apply alloc_new. cbn [app length].
  erewrite bind_run by (apply read_edges_new; reflexivity).
  destruct (span_loop h0 ns (edges s) (faces s) sn shn she (ns ++ shn) vec shift_dir
              (edges s) [] []) as (ae & af & Hspan).
  { apply rotated_edges_walkable; assumption. }
  rewrite (bind_run _ _ _ _ _ Hspan).
  erewrite bind_run by (apply read_edges_new; reflexivity).
  erewrite bind_run by (apply read_edges_new; reflexivity).
  erewrite bind_run by (apply read_edges_new; reflexivity).
  erewrite bind_run by apply alloc_new. cbn [app length].
  erewrite bind_run by (apply read_faces_new; reflexivity).
  erewrite bind_run by (apply read_faces_new; reflexivity).
  erewrite bind_run by apply alloc_new. cbn [app length].
  rewrite alloc_new. cbn [app length].
  exists ns, sn, shn, she, ae, af. reflexivity.
Qed.

End MainRun.
(** ** Attachments that pass the cycle check *)

Lemma same_children_refl (a : arena) : same_children a a.
Proof. intros y. reflexivity. Qed.

Lemma same_children_trans (a b c : arena) :
  same_children a b -> same_children b c -> same_children a c.
Proof. intros H1 H2 y. rewrite H2. apply H1. Qed.

Lemma same_children_upd (a : arena) (x : sfid) (sf : Snowflake) :
  children sf = children (a x) -> same_children a (upd a x sf).
Proof.
  intros H y. unfold upd. destruct (Nat.eqb_spec y x) as [->|_]; [exact H|reflexivity].
Qed.

Lemma same_children_child (a a' : arena) (p c : sfid) :
  same_children a a' -> child_of a' p c -> child_of a p c.
Proof. unfold child_of, get_children. intros H. rewrite (H p). auto. Qed.

Lemma descends_incl (a a' : arena) :
  (forall p c, child_of a' p c -> child_of a p c) ->
  forall p c, descends a' p c -> descends a p c.
Proof.
  intros H p c Hd. induction Hd as [p c Hc|p c d Hc Hcd IH].
  - apply desc_child, H, Hc.
  - apply desc_step with c; [apply H, Hc|exact IH].
Qed.

Lemma no_cycle_incl (a a' : arena) :
  (forall p c, child_of a' p c -> child_of a p c) -> no_cycle a -> no_cycle a'.
Proof. intros H Hn y Hy. apply (Hn y), (descends_incl a a' H), Hy. Qed.

Lemma descends_new_edge (a a' : arena) (Y X : sfid) :
  X <> Y -> ~ descends a X Y ->
  (forall p c, child_of a' p c -> child_of a p c \/ (p = Y /\ c = X)) ->
  forall u v, descends a' u v ->
    descends a u v \/ ((u = Y \/ descends a u Y) /\ (v = X \/ descends a X v)).
Proof.
  intros Hne Hnd Hch u v Hd. induction Hd as [u v Hc|u c v Hc Hcv IH].
  - destruct (Hch _ _ Hc) as [Ho|[-> ->]].
    + left. apply desc_child, Ho.
    + right. auto.
  - destruct (Hch _ _ Hc) as [Ho|[-> ->]].
    + destruct IH as [IH|[[->|Hcy] Hv]].
      * left. apply desc_step with c; assumption.
      * right. split; [right; apply desc_child, Ho|exact Hv].
      * right. split; [right; apply desc_step with c; assumption|exact Hv].
    + destruct IH as [IH|[[Heq|Hxy] _]].
      * right. auto.
      * contradiction.
      * contradiction.
Qed.

Lemma no_cycle_new_edge (a a' : arena) (Y X : sfid) :
  no_cycle a -> X <> Y -> ~ descends a X Y ->
  (forall p c, child_of a' p c -> child_of a p c \/ (p = Y /\ c = X)) ->
  no_cycle a'.
Proof.
  intros Hn Hne Hnd Hch y Hy.
  destruct (descends_new_edge a a' Y X Hne Hnd Hch y y Hy) as [H|[[->|HyY] [Heq|HXy]]].
  - apply (Hn y H).
  - apply Hne. symmetry. exact Heq.
  - apply Hnd, HXy.
  - subst y. apply Hnd, HyY.
  - apply Hnd. apply descends_trans with y; assumption.
Qed.

(** *** The engine leaves attachments alone *)

Lemma obind_returned {A B : Type} (o : outcome A) (k : A -> outcome B) (b : B) :
  obind o k = Returned b -> exists x, o = Returned x /\ k x = Returned b.
Proof. destruct o as [x| |]; try discriminate. intros H. exists x. auto. Qed.

Lemma of_option_returned {A : Type} (o : option A) (x : A) :
  of_option o = Returned x -> o = Some x.
Proof. destruct o; [intros H; injection H as ->; reflexivity|discriminate]. Qed.

Lemma update_arms_children (sf sf' : Snowflake) :
  _update_arms sf = Returned sf' ->
  children sf' = children sf /\ child_candidate sf' = child_candidate sf.
Proof.
  unfold _update_arms. intros H.
  repeat (apply obind_returned in H; destruct H as (? & _ & H)).
  injection H as <-. split; reflexivity.
Qed.

Lemma merge_child_children (self : sfid) (d : Z) (acc : outcome arena) (att : attachment)
    (a' : arena) :
  merge_child self d acc att = Returned a' ->
  exists a, acc = Returned a /\ same_children a a'.
Proof.
  unfold merge_child. intros H. apply obind_returned in H. destruct H as (a & Ha & H).
  exists a. split; [exact Ha|]. destruct att as [[dist rot] child].
  do 3 (apply obind_returned in H; destruct H as (? & _ & H)).
  apply obind_returned in H. destruct H as (sf' & Hsf' & H). injection H as <-.
  apply same_children_upd. apply update_arms_children in Hsf'. apply Hsf'.
Qed.

Lemma merge_children_fold (self : sfid) (d : Z) (atts : list attachment) :
  forall acc a',
  fold_left (merge_child self d) atts acc = Returned a' ->
  exists a, acc = Returned a /\ same_children a a'.
Proof.
  induction atts as [|att atts IH]; intros acc a' H.
  - exists a'. split; [exact H|apply same_children_refl].
  - cbn [fold_left] in H. destruct (IH _ _ H) as (a1 & H1 & S1).
    destruct (merge_child_children _ _ _ _ _ H1) as (a0 & H0 & S0).
    exists a0. split; [exact H0|]. apply same_children_trans with a1; assumption.
Qed.

Lemma merge_directions_fold (self : sfid) (dirs : list (Z * list attachment)) :
  forall acc a',
  fold_left (fun acc (d_atts : Z * list attachment) =>
               fold_left (merge_child self (fst d_atts)) (snd d_atts) acc) dirs acc
  = Returned a' ->
  exists a, acc = Returned a /\ same_children a a'.
Proof.
  induction dirs as [|[d atts] dirs IH]; intros acc a' H.
  - exists a'. split; [exact H|apply same_children_refl].
  - cbn [fold_left] in H. destruct (IH _ _ H) as (a1 & H1 & S1).
    destruct (merge_children_fold _ _ _ _ _ H1) as (a0 & H0 & S0).
    exists a0. split; [exact H0|]. apply same_children_trans with a1; assumption.
Qed.

Lemma recalculate_shape_children (a a' : arena) (self : sfid) :
  recalculate_shape a self = Returned a' -> same_children a a'.
Proof.
  unfold recalculate_shape. intros H.
  apply obind_returned in H. destruct H as (s0 & _ & H).
  destruct (merge_directions_fold _ _ _ _ H) as (a0 & H0 & S0).
  injection H0 as <-.
  apply same_children_trans with (upd a self (with_shape (a self) s0)); [|exact S0].
  apply same_children_upd. reflexivity.
Qed.

Lemma recalculate_parents_loop_children (iter_order : list sfid -> list sfid)
    (rounds depth : nat) :
  forall a ps a',
  recalculate_parents_loop iter_order rounds depth a ps = Returned a' ->
  same_children a a'.
Proof.
  induction rounds as [|rounds IH]; intros a ps a' H.
  - destruct ps; [|discriminate]. injection H as <-. apply same_children_refl.
  - destruct ps as [|p0 ps0]; [injection H as <-; apply same_children_refl|].
    cbn [recalculate_parents_loop] in H.
    apply obind_returned in H. destruct H as (picked & _ & H).
    destruct picked as [p|]; [|discriminate].
    apply obind_returned in H. destruct H as (a1 & H1 & H).
    apply same_children_trans with a1.
    + apply (recalculate_shape_children _ _ _ H1).
    + apply (IH _ _ _ H).
Qed.

Lemma recalculate_parent_shapes_children (iter_order : list sfid -> list sfid)
    (depth : nat) (a a' : arena) (self : sfid) :
  recalculate_parent_shapes iter_order depth a self = Returned a' -> same_children a a'.
Proof.
  unfold recalculate_parent_shapes. intros H.
  apply obind_returned in H. destruct H as (ps & _ & H).
  apply (recalculate_parents_loop_children _ _ _ _ _ _ H).
Qed.

(** *** The children a confirmation can add *)

Lemma getitem_In {A : Type} (l : list A) (i : Z) (x : A) :
  Py.getitem l i = Some x -> In x l.
Proof.
  unfold Py.getitem.
  destruct ((0 <=? i) && (i <? Z.of_nat (length l))); [apply nth_error_In|].
  destruct ((- Z.of_nat (length l) <=? i) && (i <? 0)); [apply nth_error_In|discriminate].
Qed.

Lemma get_children_elim (sf : Snowflake) (c : sfid) :
  In c (get_children sf) ->
  exists atts att, In atts (six_list (children sf)) /\ In att atts /\ snd att = c.
Proof.
  unfold get_children.
  assert (Hin : forall (l : list attachment) acc y,
             In y (fold_left (fun acc (c : attachment) => sf_add (snd c) acc) l acc) ->
             In y acc \/ exists t, In t l /\ snd t = y).
  { induction l as [|t l IH]; intros acc y H; [left; exact H|].
    cbn [fold_left] in H. destruct (IH _ _ H) as [Hy|(t' & Ht' & E)].
    - apply sf_add_In in Hy. destruct Hy as [->|Hy]; [right|left; exact Hy].
      exists t. split; [left; reflexivity|reflexivity].
    - right. exists t'. split; [right; exact Ht'|exact E]. }
  assert (Hout : forall (dirs : list (list attachment)) acc y,
             In y (fold_left (fun acc (l : list attachment) =>
                                fold_left (fun acc (c : attachment) => sf_add (snd c) acc)
                                          l acc) dirs acc) ->
             In y acc \/ exists l t, In l dirs /\ In t l /\ snd t = y).
  { induction dirs as [|l dirs IH]; intros acc y H; [left; exact H|].
    cbn [fold_left] in H. destruct (IH _ _ H) as [Hy|(l' & t & Hl' & Ht & E)].
    - destruct (Hin _ _ _ Hy) as [Hacc|(t & Ht & E)]; [left; exact Hacc|].
      right. exists l, t. split; [left; reflexivity|auto].
    - right. exists l', t. split; [right; exact Hl'|auto]. }
  intros H. destruct (Hout _ _ _ H) as [[]|(l & t & Hl & Ht & E)].
  exists l, t. auto.
Qed.

Lemma six_set_list {A : Type} (s s' : six A) (d : Z) (x : A) :
  six_set s d x = Some s' ->
  forall l, In l (six_list s') -> l = x \/ In l (six_list s).
Proof.
  unfold six_set. intros H l Hl.
  repeat match type of H with
         | (if ?b then _ else _) = _ => destruct b
         end;
    try discriminate; injection H as <-; unfold six_list in *; cbn in *;
    intuition auto.
Qed.

Lemma register_child_children (a a' : arena) (self : sfid) (dir : Z) (child : attachment) :
  register_child a self dir child = Returned a' ->
  forall p c, child_of a' p c -> child_of a p c \/ (p = self /\ c = snd child).
Proof.
  unfold register_child. intros H p c Hc.
  apply obind_returned in H. destruct H as (atts & Hatts & H).
  apply of_option_returned in Hatts.
  destruct (existsb _ atts); [injection H as <-; left; exact Hc|].
  apply obind_returned in H. destruct H as (ch & Hch & H).
  apply of_option_returned in Hch. injection H as <-.
  set (a1 := upd a self (with_children (a self) ch)) in *.
  assert (Hc1 : child_of a1 p c).
  { refine (same_children_child a1 _ p c _ Hc).
    apply same_children_upd. reflexivity. }
  unfold child_of, a1, upd in Hc1. destruct (Nat.eqb_spec p self) as [->|Hne].
  - destruct (get_children_elim _ _ Hc1) as (l & t & Hl & Ht & E).
    cbn [children with_children] in Hl.
    destruct (six_set_list _ _ _ _ Hch l Hl) as [->|Hold].
    + apply in_app_iff in Ht. destruct Ht as [Ht|[<-|[]]].
      * left. rewrite <- E. apply (get_children_In _ atts t); [|exact Ht].
        apply (getitem_In _ _ _ Hatts).
      * right. auto.
    + left. rewrite <- E. apply (get_children_In _ l t); assumption.
  - left. exact Hc1.
Qed.

Lemma handle_confirm_children (iter_order : list sfid -> list sfid) (depth : nat)
    (a a2 : arena) (self X : sfid) :
  child_candidate (a self) = Some X ->
  handle_confirm iter_order depth a self = Returned a2 ->
  forall p c, child_of a2 p c -> child_of a p c \/ (p = self /\ c = X).
Proof.
  unfold handle_confirm. intros Hcand H p c Hc. rewrite Hcand in H.
  destruct (selected (a self)); [|injection H as <-; left; exact Hc].
  destruct (selected_edge (a self)) as [e|]; [|injection H as <-; left; exact Hc].
  do 5 (apply obind_returned in H; destruct H as (? & _ & H)).
  destruct (_test_node_arm (a self) _ false) as [dir dist].
  apply obind_returned in H. destruct H as (a2' & Hreg & H).
  apply obind_returned in H. destruct H as (sf' & Hsf' & H).
  apply recalculate_parent_shapes_children in H.
  apply update_arms_children in Hsf'. destruct Hsf' as [Hsf' _].
  assert (Hc2 : child_of a2' p c).
  { apply (same_children_child a2' a2 p c); [|exact Hc].
    eapply same_children_trans; [|exact H].
    eapply same_children_trans; [|apply same_children_upd; exact Hsf'].
    apply same_children_upd. reflexivity. }
  destruct (register_child_children _ _ _ _ _ Hreg p c Hc2) as [Hc1|Hnew].
  - left. refine (same_children_child a _ p c _ Hc1).
    apply same_children_upd. reflexivity.
  - right. exact Hnew.
Qed.

(** *** Clicks that set a child candidate *)

Lemma gen_child_preview_facts (a a' : arena) (self : sfid) :
  _gen_child_preview a self = Returned a' ->
  same_children a a' /\ child_candidate (a' self) = child_candidate (a self).
Proof.
  unfold _gen_child_preview. intros H.
  destruct (selected_edge (a self)) as [e|]; [|discriminate].
  destruct (child_candidate (a self)) as [cand|] eqn:Ec; [|discriminate].
  do 4 (apply obind_returned in H; destruct H as (? & _ & H)).
  injection H as <-. split.
  - apply same_children_upd. reflexivity.
  - unfold upd. rewrite Nat.eqb_refl. reflexivity.
Qed.

Lemma click_snowflakes_accepted (depth : nat) (a a1 : arena) (self : sfid) (node : point)
    (sfs : list sfid) :
  click_snowflakes depth a self node sfs = Returned (a1, true) ->
  exists X D, X <> self /\ get_children_recursive depth a X = Some D /\ ~ In self D /\
              same_children a a1 /\ child_candidate (a1 self) = Some X.
Proof.
  induction sfs as [|sf sfs IH]; intros H; [discriminate|].
  cbn [click_snowflakes] in H.
  destruct (Nat.eqb_spec sf self) as [Heq|Hne]; [apply IH, H|].
  destruct (point_eqb node (pos (sf_shape (a sf)))); [|apply IH, H].
  destruct (get_children_recursive depth a sf) as [D|] eqn:E; [|discriminate].
  destruct (sf_mem self D) eqn:Em; [discriminate|].
  apply obind_returned in H. destruct H as (a' & Hp & H). injection H as <-.
  apply gen_child_preview_facts in Hp. destruct Hp as [Hs Hcand].
  exists sf, D. split; [exact Hne|]. split; [exact E|].
  split; [apply sf_mem_false, Em|]. split.
  - eapply same_children_trans; [|exact Hs]. apply same_children_upd. reflexivity.
  - rewrite Hcand. unfold upd. rewrite Nat.eqb_refl. reflexivity.
Qed.

(** A click that is no arm extension and sets a child candidate, followed by
    the confirmation, leaves the child relation without a cycle when it had
    none: the one attachment the confirmation can add leads to a snowflake
    that passed the check of [_node_click]. *)
Theorem accepted_attachment_keeps_acyclic (iter_order : list sfid -> list sfid)
    (depth : nat) (a a1 a2 : arena) (Y : sfid) (node : point) (snowflakes : list sfid) :
  no_cycle a ->
  extends_arm (a Y) node = Some false ->
  _node_click iter_order depth a Y node snowflakes = Returned (a1, true) ->
  handle_confirm iter_order depth a1 Y = Returned a2 ->
  no_cycle a2.
Proof.
  intros Hn Hext Hclick Hconf. unfold _node_click in Hclick.
  destruct (_test_node_arm (a Y) node true) as [dir dist]. rewrite Hext in Hclick.
  destruct (selected_edge (a Y)); [|discriminate].
  destruct (click_snowflakes_accepted _ _ _ _ _ _ Hclick)
    as (X & D & Hne & E & Hnot & Hs & Hcand).
  apply (no_cycle_new_edge a a2 Y X Hn Hne).
  - intros Hd. apply Hnot. apply (gcr_spec _ _ _ _ E), Hd.
  - intros p c Hc.
    destruct (handle_confirm_children _ _ _ _ _ _ Hcand Hconf p c Hc) as [Hc1|Hnew].
    + left. apply (same_children_child a a1 p c Hs Hc1).
    + right. exact Hnew.
Qed.

Example accepted_attachment_example :
  exists a1 a2,
    _node_click (fun l => l) 5 selection_arena 0%nat (5, 5) [0%nat; 1%nat]
    = Returned (a1, true) /\
    handle_confirm (fun l => l) 5 a1 0%nat = Returned a2 /\
    children (a2 0%nat) = mkSix [(0, 0, 1%nat)] [] [] [] [] [] /\
    no_cycle a2.
Proof.
  eexists. eexists. split; [reflexivity|]. split; [reflexivity|].
  split; [reflexivity|].
  eapply (accepted_attachment_keeps_acyclic (fun l => l) 5 selection_arena _ _ 0%nat
            (5, 5) [0%nat; 1%nat]); [|reflexivity|reflexivity|reflexivity].
  intros y Hy.
  assert (Hno : forall p c, ~ child_of selection_arena p c).
  { intros p c Hc. destruct p as [|[|p]]; exact Hc. }
  inversion Hy as [p c Hc|p c d Hc _]; subst; apply (Hno _ _ Hc).
Qed.

(** ** [add_node_convex] on a shape at the origin *)

Lemma extends_refl (s : Shape) : extends s s.
Proof.
  split; [reflexivity|]. split; [exists []; symmetry; apply app_nil_r|].
  split; apply incl_refl.
Qed.

Lemma extends_trans (s1 s2 s3 : Shape) : extends s1 s2 -> extends s2 s3 -> extends s1 s3.
Proof.
  intros (P1 & (m1 & N1) & E1 & F1) (P2 & (m2 & N2) & E2 & F2).
  split; [congruence|]. split.
  - exists (m1 ++ m2). rewrite N2, N1, app_assoc. reflexivity.
  - split; eapply incl_tran; eassumption.
Qed.

Lemma has_node_In (s : Shape) (p : point) : has_node s p = true <-> In p (nodes s).
Proof.
  unfold has_node, Py.mem. rewrite existsb_exists. split.
  - intros (q & Hq & E). apply point_eqb_eq in E. subst. exact Hq.
  - intros H. exists p. split; [exact H|apply point_eqb_refl].
Qed.

Lemma get_node_idx_In (s : Shape) (p : point) :
  In p (nodes s) <-> (_get_node_idx s p =? -1) = false.
Proof.
  unfold _get_node_idx. destruct (index_from_cases p (nodes s)) as [[Hn E]|(k & Hk & E & _)].
  - rewrite E. split; [contradiction|discriminate].
  - rewrite E. split.
    + intros _. apply Z.eqb_neq. lia.
    + intros _. apply (nth_error_In _ _ Hk).
Qed.

Lemma get_node_idx_extends (s s' : Shape) (p : point) :
  extends s s' -> In p (nodes s) -> _get_node_idx s' p = _get_node_idx s p.
Proof.
  intros (_ & (more & N) & _) H. unfold _get_node_idx. rewrite N.
  apply index_from_app_l, H.
Qed.

Lemma find_node_get_node_idx (s : Shape) (p : point) :
  NoDup (nodes s) -> find_node s p = _get_node_idx s p.
Proof.
  intros Hnd. unfold _get_node_idx.
  destruct (find_node_cases s p) as [[Hn E]|(k & Hk & E)].
  - rewrite E. symmetry. apply index_from_notin, Hn.
  - destruct (index_from_cases p (nodes s)) as [[Hn _]|(k' & Hk' & E' & _)].
    + exfalso. apply Hn. apply (nth_error_In _ _ Hk).
    + rewrite E, E'. f_equal.
      apply (proj1 (NoDup_nth_error (nodes s)) Hnd k k');
        [apply nth_error_Some; rewrite Hk; discriminate|congruence].
Qed.

Lemma to_local_origin (s : Shape) (p : point) : pos s = (0, 0) -> to_local s p = p.
Proof.
  intros H. unfold to_local. rewrite H. destruct p as [x y]. cbn [fst snd].
  f_equal; lia.
Qed.

Lemma has_edge_at_mono (s s' : Shape) (p q : point) :
  extends s s' -> has_edge_at s p q = true -> has_edge_at s' p q = true.
Proof.
  intros Hx H. unfold has_edge_at in *.
  apply andb_true_iff in H. destruct H as [H Hc].
  apply andb_true_iff in H. destruct H as [Hp Hq].
  apply negb_true_iff in Hp, Hq.
  apply get_node_idx_In in Hp, Hq.
  rewrite (get_node_idx_extends s s' p Hx Hp), (get_node_idx_extends s s' q Hx Hq).
  apply get_node_idx_In in Hp, Hq. rewrite Hp, Hq. cbn [negb andb].
  destruct Hx as (_ & _ & He & _). apply (contains_edge_in_incl _ _ _ He Hc).
Qed.

Lemma has_face_at_mono (s s' : Shape) (p q r : point) :
  extends s s' -> has_face_at s p q r = true -> has_face_at s' p q r = true.
Proof.
  intros Hx H. unfold has_face_at in *.
  apply andb_true_iff in H. destruct H as [H Hc].
  apply andb_true_iff in H. destruct H as [H Hr].
  apply andb_true_iff in H. destruct H as [Hp Hq].
  apply negb_true_iff in Hp, Hq, Hr.
  apply get_node_idx_In in Hp, Hq, Hr.
  rewrite (get_node_idx_extends s s' p Hx Hp), (get_node_idx_extends s s' q Hx Hq),
    (get_node_idx_extends s s' r Hx Hr).
  apply get_node_idx_In in Hp, Hq, Hr. rewrite Hp, Hq, Hr. cbn [negb andb].
  destruct Hx as (_ & _ & _ & Hf).
  apply contains_face_in_true in Hc. destruct Hc as (y & Hy & E).
  apply contains_face_in_true. exists y. split; [apply Hf, Hy|exact E].
Qed.

Lemma has_node_mono (s s' : Shape) (p : point) :
  extends s s' -> has_node s p = true -> has_node s' p = true.
Proof.
  intros (_ & (more & N) & _) H. apply has_node_In. apply has_node_In in H.
  rewrite N. apply in_or_app. left. exact H.
Qed.

Lemma cell_filled_mono (s s' : Shape) (dir1 dir2 : point) (d1 d2 ix iy : Z) :
  extends s s' ->
  cell_filled s dir1 dir2 d1 d2 ix iy = true -> cell_filled s' dir1 dir2 d1 d2 ix iy = true.
Proof.
  intros Hx H. unfold cell_filled in *.
  repeat (apply andb_true_iff in H; destruct H as [H ?]).
  repeat (apply andb_true_iff; split).
  - apply (has_node_mono _ _ _ Hx H).
  - destruct (iy >? 0); [apply (has_edge_at_mono _ _ _ _ Hx)|]; assumption.
  - destruct (ix >? 0); [apply (has_edge_at_mono _ _ _ _ Hx)|]; assumption.
  - destruct ((ix >? 0) && (iy <? d2)); [|assumption].
    match goal with
    | Hc : _ && _ = true |- _ => apply andb_true_iff in Hc; destruct Hc as [Hc1 Hc2]
    end.
    apply andb_true_iff. split;
      [apply (has_edge_at_mono _ _ _ _ Hx)|apply (has_face_at_mono _ _ _ _ _ Hx)];
      assumption.
  - destruct ((ix >? 0) && (iy >? 0)); [apply (has_face_at_mono _ _ _ _ _ Hx)|]; assumption.
Qed.

Lemma parallelogram_filled_mono (s s' : Shape) (p : point) :
  extends s s' -> parallelogram_filled s p = true -> parallelogram_filled s' p = true.
Proof.
  intros Hx. unfold parallelogram_filled.
  destruct (rotate_grid_point _ _ _) as [[d1 d2]|]; [|auto].
  destruct (Py.getitem DIR_VECS (sector_of (fst p) (snd p))) as [dir1|]; [|auto].
  destruct (Py.getitem DIR_VECS _) as [dir2|]; [|auto].
  rewrite !forallb_forall. intros H ix Hix. specialize (H ix Hix).
  rewrite forallb_forall in *. intros iy Hiy.
  apply (cell_filled_mono _ _ _ _ _ _ _ _ Hx), H, Hiy.
Qed.

Lemma add_edge_if_new_incl (es : list edge_t) (e : edge_t) :
  incl es (add_edge_if_new es e).
Proof.
  unfold add_edge_if_new. destruct (contains_edge_in es e);
    [apply incl_refl|apply incl_appl, incl_refl].
Qed.

Lemma get_node_idx_present (s : Shape) (p : point) :
  In p (nodes s) -> (_get_node_idx s p =? -1) = false.
Proof. apply get_node_idx_In. Qed.

Lemma add_edge_present (s : Shape) (p q : point) :
  pos s = (0, 0) -> NoDup (nodes s) -> In p (nodes s) -> In q (nodes s) ->
  pos (add_edge s (p, q)) = (0, 0) /\
  nodes (add_edge s (p, q)) = nodes s /\
  extends s (add_edge s (p, q)) /\
  has_edge_at (add_edge s (p, q)) p q = true.
Proof.
  intros Hpos Hnd Hp Hq. unfold add_edge. cbn [fst snd].
  rewrite !(to_local_origin s _ Hpos), !(find_node_get_node_idx s _ Hnd).
  pose proof (get_node_idx_present s p Hp) as Ep.
  pose proof (get_node_idx_present s q Hq) as Eq.
  rewrite Ep, Eq. cbn [andb negb].
  destruct (contains_edge s (_get_node_idx s p, _get_node_idx s q)) eqn:Ec.
  - split; [exact Hpos|]. split; [reflexivity|]. split; [apply extends_refl|].
    unfold has_edge_at. rewrite Ep, Eq, Ec. reflexivity.
  - split; [exact Hpos|]. split; [reflexivity|]. split.
    + split; [reflexivity|]. split; [exists []; symmetry; apply app_nil_r|].
      split; [apply incl_appl, incl_refl|apply incl_refl].
    + unfold has_edge_at, _get_node_idx in *. cbn [nodes]. rewrite Ep, Eq. cbn [negb andb].
      apply contains_edge_in_true. eexists. split.
      * cbn [edges]. apply in_or_app. right. left. reflexivity.
      * apply same_edge_refl.
Qed.

Lemma add_face_present (s : Shape) (p q r : point) :
  pos s = (0, 0) -> NoDup (nodes s) ->
  In p (nodes s) -> In q (nodes s) -> In r (nodes s) ->
  pos (add_face s (p, q, r)) = (0, 0) /\
  nodes (add_face s (p, q, r)) = nodes s /\
  extends s (add_face s (p, q, r)) /\
  has_face_at (add_face s (p, q, r)) p q r = true.
Proof.
  intros Hpos Hnd Hp Hq Hr. unfold add_face.
  rewrite !(to_local_origin s _ Hpos), !(find_node_get_node_idx s _ Hnd).
  pose proof (get_node_idx_present s p Hp) as Ep.
  pose proof (get_node_idx_present s q Hq) as Eq.
  pose proof (get_node_idx_present s r Hr) as Er.
  cbn [filter]. rewrite Ep, Eq, Er. cbn [negb length Nat.eqb Nat.ltb Nat.leb].
  split; [exact Hpos|]. split; [reflexivity|]. split.
  - split; [reflexivity|]. split; [exists []; symmetry; apply app_nil_r|]. split.
    + cbn [edges fold_left].
      eapply incl_tran; [|apply add_edge_if_new_incl].
      eapply incl_tran; [|apply add_edge_if_new_incl].
      apply add_edge_if_new_incl.
    + cbn [faces]. destruct (contains_face s _); [apply incl_refl|apply incl_appl, incl_refl].
  - unfold has_face_at, _get_node_idx in *. cbn [nodes]. rewrite Ep, Eq, Er.
    cbn [negb andb]. unfold contains_face. cbn [faces].
    destruct (contains_face_in (faces s) _) eqn:Ec; [exact Ec|].
    apply contains_face_in_true. eexists. split.
    + apply in_or_app. right. left. reflexivity.
    + apply same_face_refl.
Qed.

Lemma cond_add_edge (b : bool) (s : Shape) (p q : point) :
  pos s = (0, 0) -> NoDup (nodes s) ->
  (b = true -> In p (nodes s) /\ In q (nodes s)) ->
  pos (if b then add_edge s (p, q) else s) = (0, 0) /\
  nodes (if b then add_edge s (p, q) else s) = nodes s /\
  extends s (if b then add_edge s (p, q) else s) /\
  (b = true -> has_edge_at (if b then add_edge s (p, q) else s) p q = true).
Proof.
  intros Hpos Hnd Hb. destruct b.
  - destruct (Hb eq_refl) as [Hp Hq].
    destruct (add_edge_present s p q Hpos Hnd Hp Hq) as (H1 & H2 & H3 & H4). auto.
  - split; [exact Hpos|]. split; [reflexivity|]. split; [apply extends_refl|discriminate].
Qed.

Lemma cond_add_face (b : bool) (s : Shape) (p q r : point) :
  pos s = (0, 0) -> NoDup (nodes s) ->
  (b = true -> In p (nodes s) /\ In q (nodes s) /\ In r (nodes s)) ->
  pos (if b then add_face s (p, q, r) else s) = (0, 0) /\
  nodes (if b then add_face s (p, q, r) else s) = nodes s /\
  extends s (if b then add_face s (p, q, r) else s) /\
  (b = true -> has_face_at (if b then add_face s (p, q, r) else s) p q r = true).
Proof.
  intros Hpos Hnd Hb. destruct b.
  - destruct (Hb eq_refl) as (Hp & Hq & Hr).
    destruct (add_face_present s p q r Hpos Hnd Hp Hq Hr) as (H1 & H2 & H3 & H4). auto.
  - split; [exact Hpos|]. split; [reflexivity|]. split; [apply extends_refl|discriminate].
Qed.

Lemma cell_point_down (dir1 dir2 : point) (ix iy : Z) :
  vsub (cell_point dir1 dir2 ix iy) dir2 = cell_point dir1 dir2 ix (iy - 1).
Proof.
  destruct dir1 as [a b], dir2 as [c d]. unfold cell_point, vsub, vadd, scale.
  cbn [fst snd]. f_equal; ring.
Qed.

Lemma cell_point_left (dir1 dir2 : point) (ix iy : Z) :
  vsub (cell_point dir1 dir2 ix iy) dir1 = cell_point dir1 dir2 (ix - 1) iy.
Proof.
  destruct dir1 as [a b], dir2 as [c d]. unfold cell_point, vsub, vadd, scale.
  cbn [fst snd]. f_equal; ring.
Qed.

Lemma cell_point_up (dir1 dir2 : point) (ix iy : Z) :
  vadd (vsub (cell_point dir1 dir2 ix iy) dir1) dir2 = cell_point dir1 dir2 (ix - 1) (iy + 1).
Proof.
  destruct dir1 as [a b], dir2 as [c d]. unfold cell_point, vsub, vadd, scale.
  cbn [fst snd]. f_equal; ring.
Qed.

Lemma cell_filled_node (s : Shape) (dir1 dir2 : point) (d1 d2 ix iy : Z) :
  cell_filled s dir1 dir2 d1 d2 ix iy = true -> In (cell_point dir1 dir2 ix iy) (nodes s).
Proof.
  unfold cell_filled. intros H.
  repeat (apply andb_true_iff in H; destruct H as [H _]).
  apply has_node_In, H.
Qed.

Lemma get_node_idx_same (s s' : Shape) (p : point) :
  nodes s' = nodes s -> _get_node_idx s' p = _get_node_idx s p.
Proof. unfold _get_node_idx. intros ->. reflexivity. Qed.

Lemma convex_cell_fills (s0 s : Shape) (dir1 dir2 : point) (d1 d2 ix iy : Z) :
  0 <= ix -> 0 <= iy <= d2 ->
  fill_inv s0 s dir1 dir2 d1 d2 ix iy ->
  fill_inv s0 (convex_cell dir1 dir2 (d2 + 1) ix iy s (cell_point dir1 dir2 ix iy))
           dir1 dir2 d1 d2 ix (iy + 1).
Proof.
  intros Hix Hiy [Hpos Hnd Hx Hfill Hnew].
  set (node := cell_point dir1 dir2 ix iy).
  unfold convex_cell. cbv zeta.
  replace (d2 + 1 - 1) with d2 by lia.
  (* the node *)
  set (s1 := if _get_node_idx s node =? -1
             then mkShape (pos s) (nodes s ++ [node]) (edges s) (faces s) else s).
  assert (P1 : pos s1 = (0, 0)).
  { subst s1. destruct (_ =? -1); [exact Hpos|exact Hpos]. }
  assert (N1 : In node (nodes s1)).
  { subst s1. destruct (_get_node_idx s node =? -1) eqn:E.
    - cbn [nodes]. apply in_or_app. right. left. reflexivity.
    - apply get_node_idx_In, E. }
  assert (D1 : NoDup (nodes s1)).
  { subst s1. destruct (_get_node_idx s node =? -1) eqn:E; [|exact Hnd].
    cbn [nodes]. apply NoDup_snoc; [exact Hnd|].
    intros Hin. apply get_node_idx_In in Hin. congruence. }
  assert (X1 : extends s s1).
  { subst s1. destruct (_get_node_idx s node =? -1); [|apply extends_refl].
    split; [reflexivity|]. split; [exists [node]; reflexivity|].
    split; apply incl_refl. }
  assert (M1 : forall p, In p (nodes s1) -> In p (nodes s) \/ p = node).
  { subst s1. destruct (_get_node_idx s node =? -1); [|auto].
    cbn [nodes]. intros p Hp. apply in_app_iff in Hp.
    destruct Hp as [Hp|[<-|[]]]; auto. }
  assert (In1 : forall p, In p (nodes s) -> In p (nodes s1)).
  { intros p Hp. destruct X1 as (_ & (more & N) & _). rewrite N.
    apply in_or_app. left. exact Hp. }
  assert (Hdown : (iy >? 0) = true -> In (vsub node dir2) (nodes s1)).
  { intros H. apply Z.gtb_lt in H. apply In1. subst node. rewrite cell_point_down.
    apply (cell_filled_node s dir1 dir2 d1 d2). apply Hfill; lia. }
  assert (Hleft : (ix >? 0) = true -> In (vsub node dir1) (nodes s1)).
  { intros H. apply Z.gtb_lt in H. apply In1. subst node. rewrite cell_point_left.
    apply (cell_filled_node s dir1 dir2 d1 d2). apply Hfill; lia. }
  assert (Hup : (ix >? 0) && (iy <? d2) = true ->
                In (vadd (vsub node dir1) dir2) (nodes s1)).
  { intros H. apply andb_true_iff in H. destruct H as [H1 H2].
    apply Z.gtb_lt in H1. apply Z.ltb_lt in H2.
    apply In1. subst node. rewrite cell_point_up.
    apply (cell_filled_node s dir1 dir2 d1 d2). apply Hfill; lia. }
  (* the edge to the node below *)
  set (di := if iy >? 0 then _get_node_idx s1 (vsub node dir2) else -1).
  assert (Hdi : negb (di =? -1) = (iy >? 0)).
  { subst di. destruct (iy >? 0) eqn:E; [|reflexivity].
    rewrite (get_node_idx_present s1 _ (Hdown eq_refl)). reflexivity. }
  rewrite !Hdi.
  set (s2 := if (iy >? 0) && (iy >? 0) then add_edge s1 (vsub node dir2, node) else s1).
  destruct (cond_add_edge ((iy >? 0) && (iy >? 0)) s1 (vsub node dir2) node P1 D1)
    as (P2 & N2 & X2 & E2).
  { intros H. apply andb_true_iff in H. destruct H as [H _]. auto. }
  fold s2 in P2, N2, X2, E2.
  (* the edge to the node on the left *)
  set (li := if ix >? 0 then _get_node_idx s2 (vsub node dir1) else -1).
  assert (Hli : negb (li =? -1) = (ix >? 0)).
  { subst li. destruct (ix >? 0) eqn:E; [|reflexivity].
    rewrite (get_node_idx_same s1 s2 _ N2), (get_node_idx_present s1 _ (Hleft eq_refl)).
    reflexivity. }
  rewrite !Hli.
  set (s3 := if (ix >? 0) && (ix >? 0) then add_edge s2 (vsub node dir1, node) else s2).
  assert (D2 : NoDup (nodes s2)) by (rewrite N2; exact D1).
  destruct (cond_add_edge ((ix >? 0) && (ix >? 0)) s2 (vsub node dir1) node P2 D2)
    as (P3 & N3 & X3 & E3).
  { intros H. apply andb_true_iff in H. destruct H as [H _]. rewrite N2. auto. }
  fold s3 in P3, N3, X3, E3.
  (* the edge to the upper left node *)
  set (ui := if (ix >? 0) && (iy <? d2)
             then _get_node_idx s3 (vadd (vsub node dir1) dir2) else -1).
  assert (Hui : negb (ui =? -1) = (ix >? 0) && (iy <? d2)).
  { subst ui. destruct ((ix >? 0) && (iy <? d2)) eqn:E; [|reflexivity].
    rewrite (get_node_idx_same s2 s3 _ N3), (get_node_idx_same s1 s2 _ N2),
      (get_node_idx_present s1 _ (Hup eq_refl)). reflexivity. }
  rewrite !Hui.
  set (s4 := if (ix >? 0) && (iy <? d2) && ((ix >? 0) && (iy <? d2))
             then add_edge s3 (vadd (vsub node dir1) dir2, node) else s3).
  assert (D3 : NoDup (nodes s3)) by (rewrite N3; exact D2).
  destruct (cond_add_edge ((ix >? 0) && (iy <? d2) && ((ix >? 0) && (iy <? d2))) s3
              (vadd (vsub node dir1) dir2) node P3 D3) as (P4 & N4 & X4 & E4).
  { intros H. apply andb_true_iff in H. destruct H as [H _]. rewrite N3, N2. auto. }
  fold s4 in P4, N4, X4, E4.
  (* the faces *)
  set (s5 := if (iy >? 0) && (ix >? 0)
             then add_face s4 (vsub node dir1, vsub node dir2, node) else s4).
  assert (D4 : NoDup (nodes s4)) by (rewrite N4; exact D3).
  destruct (cond_add_face ((iy >? 0) && (ix >? 0)) s4 (vsub node dir1) (vsub node dir2) node
              P4 D4) as (P5 & N5 & X5 & F5).
  { intros H. apply andb_true_iff in H. destruct H as [H1 H2]. rewrite N4, N3, N2.
    repeat split; auto. }
  fold s5 in P5, N5, X5, F5.
  set (s6 := if (ix >? 0) && ((ix >? 0) && (iy <? d2))
             then add_face s5 (vsub node dir1, node, vadd (vsub node dir1) dir2) else s5).
  assert (D5 : NoDup (nodes s5)) by (rewrite N5; exact D4).
  destruct (cond_add_face ((ix >? 0) && ((ix >? 0) && (iy <? d2))) s5 (vsub node dir1) node
              (vadd (vsub node dir1) dir2) P5 D5) as (P6 & N6 & X6 & F6).
  { intros H. apply andb_true_iff in H. destruct H as [H1 H].
    rewrite N5, N4, N3, N2. repeat split; auto. }
  fold s6 in P6, N6, X6, F6.
  assert (X46 : extends s4 s6) by (apply extends_trans with s5; assumption).
  assert (X36 : extends s3 s6) by (apply extends_trans with s4; assumption).
  assert (X26 : extends s2 s6) by (apply extends_trans with s3; assumption).
  assert (X16 : extends s1 s6) by (apply extends_trans with s2; assumption).
  assert (X06 : extends s s6) by (apply extends_trans with s1; assumption).
  assert (N16 : nodes s6 = nodes s1) by (rewrite N6, N5, N4, N3, N2; reflexivity).
  constructor.
  - exact P6.
  - rewrite N16. exact D1.
  - apply extends_trans with s; assumption.
  - intros jx jy Hjx Hjy Hlt.
    assert (Hc : (jx = ix /\ jy = iy) \/ (jx < ix \/ (jx = ix /\ jy < iy))) by lia.
    destruct Hc as [[-> ->]|Hc];
      [|apply (cell_filled_mono s s6 _ _ _ _ _ _ X06), Hfill; assumption].
    unfold cell_filled. cbv zeta.
    change (vadd (scale ix dir1) (scale iy dir2)) with node.
    repeat (apply andb_true_iff; split).
    + apply has_node_In. rewrite N16. exact N1.
    + destruct (iy >? 0) eqn:By; [|reflexivity].
      apply (has_edge_at_mono s2 s6 _ _ X26), E2. reflexivity.
    + destruct (ix >? 0) eqn:Bx; [|reflexivity].
      apply (has_edge_at_mono s3 s6 _ _ X36), E3. reflexivity.
    + destruct ((ix >? 0) && (iy <? d2)) eqn:Bu; [|reflexivity].
      apply andb_true_iff. split.
      * apply (has_edge_at_mono s4 s6 _ _ X46), E4. reflexivity.
      * apply F6. apply andb_true_iff in Bu. destruct Bu as [Bx _].
        rewrite Bx. reflexivity.
    + destruct ((ix >? 0) && (iy >? 0)) eqn:Bf; [|reflexivity].
      apply (has_face_at_mono s5 s6 _ _ _ X6), F5.
      apply andb_true_iff in Bf. destruct Bf as [-> ->]. reflexivity.
  - intros p Hp. rewrite N16 in Hp. destruct (M1 p Hp) as [Hold| ->].
    + destruct (Hnew p Hold) as [H0|(jx & jy & Hjx & Hjy & Hlt & E)]; [left; exact H0|].
      right. exists jx, jy. repeat split; try assumption; try lia.
    + right. exists ix, iy. repeat split; try lia.
Qed.

Lemma fill_inv_shift (s0 s : Shape) (dir1 dir2 : point) (d1 d2 ix iy ix' iy' : Z) :
  (forall jx jy, 0 <= jx -> 0 <= jy <= d2 ->
     (jx < ix \/ (jx = ix /\ jy < iy)) <-> (jx < ix' \/ (jx = ix' /\ jy < iy'))) ->
  fill_inv s0 s dir1 dir2 d1 d2 ix iy -> fill_inv s0 s dir1 dir2 d1 d2 ix' iy'.
Proof.
  intros Heq [Hpos Hnd Hx Hfill Hnew]. constructor; try assumption.
  - intros jx jy Hjx Hjy Hlt. apply Hfill; try assumption. apply (Heq jx jy Hjx Hjy), Hlt.
  - intros p Hp. destruct (Hnew p Hp) as [H0|(jx & jy & Hjx & Hjy & Hlt & E)];
      [left; exact H0|].
    right. exists jx, jy. split; [exact Hjx|]. split; [exact Hjy|].
    split; [apply (Heq jx jy Hjx Hjy), Hlt|exact E].
Qed.

Lemma cell_point_next (dir1 dir2 : point) (ix iy : Z) :
  vadd (cell_point dir1 dir2 ix iy) dir2 = cell_point dir1 dir2 ix (iy + 1).
Proof.
  destruct dir1 as [a b], dir2 as [c d]. unfold cell_point, vadd, scale.
  cbn [fst snd]. f_equal; ring.
Qed.

Lemma cell_point_column (dir1 dir2 : point) (ix : Z) :
  (ix * fst dir1, ix * snd dir1) = cell_point dir1 dir2 ix 0.
Proof.
  destruct dir1 as [a b], dir2 as [c d]. unfold cell_point, vadd, scale.
  cbn [fst snd]. f_equal; ring.
Qed.

Lemma convex_column_fills (s0 : Shape) (dir1 dir2 : point) (d1 d2 ix : Z) :
  0 <= ix ->
  forall (m k : nat) (s : Shape),
  (k + m)%nat = Z.to_nat (d2 + 1) ->
  fill_inv s0 s dir1 dir2 d1 d2 ix (Z.of_nat k) ->
  fill_inv s0 (convex_column dir1 dir2 (d2 + 1) ix (map Z.of_nat (seq k m)) s
                             (cell_point dir1 dir2 ix (Z.of_nat k)))
           dir1 dir2 d1 d2 (ix + 1) 0.
Proof.
  intros Hix. induction m as [|m IH]; intros k s Hk I.
  - cbn [seq map convex_column]. revert I. apply fill_inv_shift. intros jx jy Hjx Hjy. lia.
  - cbn [seq map convex_column]. rewrite cell_point_next.
    replace (Z.of_nat k + 1) with (Z.of_nat (S k)) by lia.
    apply IH; [lia|].
    replace (Z.of_nat (S k)) with (Z.of_nat k + 1) by lia.
    apply convex_cell_fills; [exact Hix|lia|exact I].
Qed.

Lemma convex_fill_loop (s0 : Shape) (dir1 dir2 : point) (d1 d2 : Z) :
  forall (m k : nat) (s : Shape),
  fill_inv s0 s dir1 dir2 d1 d2 (Z.of_nat k) 0 ->
  fill_inv s0 (fold_left (fun s ix =>
                            convex_column dir1 dir2 (d2 + 1) ix (range (d2 + 1)) s
                              (ix * fst dir1, ix * snd dir1))
                         (map Z.of_nat (seq k m)) s)
           dir1 dir2 d1 d2 (Z.of_nat (k + m)) 0.
Proof.
  induction m as [|m IH]; intros k s I.
  - cbn [seq map fold_left]. replace (k + 0)%nat with k by lia. exact I.
  - cbn [seq map fold_left]. replace (k + S m)%nat with (S k + m)%nat by lia.
    apply IH. replace (Z.of_nat (S k)) with (Z.of_nat k + 1) by lia.
    rewrite (cell_point_column dir1 dir2). unfold range.
    apply (convex_column_fills s0 dir1 dir2 d1 d2 (Z.of_nat k)) with (k := O);
      [lia|reflexivity|exact I].
Qed.

Lemma convex_fill_fills (s : Shape) (dir1 dir2 : point) (d1 d2 : Z) :
  pos s = (0, 0) -> NoDup (nodes s) ->
  fill_inv s (convex_fill dir1 dir2 (d1 + 1) (d2 + 1) s) dir1 dir2 d1 d2 (d1 + 1) 0.
Proof.
  intros Hpos Hnd. unfold convex_fill, range.
  assert (I0 : fill_inv s s dir1 dir2 d1 d2 (Z.of_nat 0) 0).
  { constructor; try assumption.
    - apply extends_refl.
    - intros jx jy Hjx Hjy Hlt. cbn in Hlt. lia.
    - intros p Hp. left. exact Hp. }
  pose proof (convex_fill_loop s dir1 dir2 d1 d2 (Z.to_nat (d1 + 1)) O s I0) as I.
  revert I. apply fill_inv_shift. intros jx jy Hjx Hjy. lia.
Qed.

Lemma rotate_values (x y : Z) :
  rotate_grid_point x y 0 = Some (x, y) /\
  rotate_grid_point x y 1 = Some (- y, x + y) /\
  rotate_grid_point x y 2 = Some (- x - y, x) /\
  rotate_grid_point x y 3 = Some (- x, - y) /\
  rotate_grid_point x y 4 = Some (y, - x - y) /\
  rotate_grid_point x y 5 = Some (x + y, - x).
Proof.
  repeat split; unfold rotate_grid_point;
    repeat match goal with
           | |- context [Py.getitem DIR_VECS ?a] =>
               let v := eval vm_compute in (Py.getitem DIR_VECS a) in
               change (Py.getitem DIR_VECS a) with v
           end;
    cbn [fst snd]; f_equal; f_equal; ring.
Qed.

Lemma sector_of_range (x y : Z) : 0 <= sector_of x y <= 5.
Proof.
  unfold sector_of.
  repeat match goal with
         | |- context [if ?b then _ else _] => destruct b
         end; lia.
Qed.

Ltac split_tests :=
  repeat match goal with
         | |- context [?a >? ?b] => destruct (Z.gtb_spec a b)
         | |- context [?a >=? ?b] => destruct (Z.geb_spec a b)
         | |- context [?a <? ?b] => destruct (Z.ltb_spec a b)
         | |- context [?a <=? ?b] => destruct (Z.leb_spec a b)
         end.

(** A cell of the sector [k] with a positive first coordinate lies in the
    sector [k], at its coordinates. *)
Lemma sector_cell_inner (k jx jy : Z) (dir1 dir2 : point) :
  0 <= k <= 5 -> 0 < jx -> 0 <= jy ->
  Py.getitem DIR_VECS k = Some dir1 ->
  Py.getitem DIR_VECS ((k + 1) mod 6) = Some dir2 ->
  sector_of (fst (cell_point dir1 dir2 jx jy)) (snd (cell_point dir1 dir2 jx jy)) = k /\
  rotate_grid_point (fst (cell_point dir1 dir2 jx jy)) (snd (cell_point dir1 dir2 jx jy))
                    ((6 - k) mod 6) = Some (jx, jy).
Proof.
  intros Hk Hjx Hjy H1 H2.
  destruct (rotate_values (fst (cell_point dir1 dir2 jx jy))
                          (snd (cell_point dir1 dir2 jx jy)))
    as (R0 & R1 & R2 & R3 & R4 & R5).
  assert (Hc : k = 0 \/ k = 1 \/ k = 2 \/ k = 3 \/ k = 4 \/ k = 5) by lia.
  destruct Hc as [->|[->|[->|[->|[->| ->]]]]];
    vm_compute in H1, H2; injection H1 as <-; injection H2 as <-;
    change ((6 - 0) mod 6) with 0; change ((6 - 1) mod 6) with 5;
    change ((6 - 2) mod 6) with 4; change ((6 - 3) mod 6) with 3;
    change ((6 - 4) mod 6) with 2; change ((6 - 5) mod 6) with 1;
    rewrite ?R0, ?R1, ?R2, ?R3, ?R4, ?R5;
    unfold cell_point, vadd, scale, sector_of; cbn [fst snd];
    (split; [split_tests; cbn [andb]; lia|f_equal; f_equal; ring]).
Qed.

Lemma range_In (n z : Z) : In z (range n) <-> 0 <= z < n.
Proof.
  unfold range. rewrite in_map_iff. split.
  - intros (j & <- & Hj). apply in_seq in Hj. lia.
  - intros H. exists (Z.to_nat z). split; [lia|]. apply in_seq. lia.
Qed.

Lemma cell_filled_le (s : Shape) (dir1 dir2 : point) (d1 d2 e1 e2 ix iy : Z) :
  e2 <= d2 ->
  cell_filled s dir1 dir2 d1 d2 ix iy = true -> cell_filled s dir1 dir2 e1 e2 ix iy = true.
Proof.
  intros Hle H. unfold cell_filled in *.
  repeat (apply andb_true_iff in H; destruct H as [H ?]).
  repeat (apply andb_true_iff; split); try assumption.
  destruct ((ix >? 0) && (iy <? e2)) eqn:E; [|reflexivity].
  apply andb_true_iff in E. destruct E as [E1 E2]. apply Z.ltb_lt in E2.
  replace ((ix >? 0) && (iy <? d2)) with true in *; [assumption|].
  symmetry. apply andb_true_iff. split; [exact E1|apply Z.ltb_lt; lia].
Qed.

Lemma cell_filled_down (s : Shape) (dir1 dir2 : point) (d1 d2 ix iy : Z) :
  cell_filled s dir1 dir2 d1 d2 ix iy = true -> 0 < iy ->
  has_edge_at s (vsub (cell_point dir1 dir2 ix iy) dir2) (cell_point dir1 dir2 ix iy) = true.
Proof.
  unfold cell_filled. intros H Hiy.
  repeat (apply andb_true_iff in H; destruct H as [H ?]).
  replace (iy >? 0) with true in *; [assumption|]. symmetry. apply Z.gtb_lt. lia.
Qed.

Lemma cell_point_axis (dir1 dir2 dir3 : point) (j : Z) :
  cell_point dir1 dir2 0 j = cell_point dir2 dir3 j 0.
Proof.
  destruct dir1 as [a b], dir2 as [c d], dir3 as [e f]. unfold cell_point, vadd, scale.
  cbn [fst snd]. f_equal; ring.
Qed.

Lemma dir_vecs_next (k : Z) :
  0 <= k <= 5 -> exists v, Py.getitem DIR_VECS ((k + 1) mod 6) = Some v.
Proof.
  intros Hk. assert (Hc : k = 0 \/ k = 1 \/ k = 2 \/ k = 3 \/ k = 4 \/ k = 5) by lia.
  destruct Hc as [->|[->|[->|[->|[->| ->]]]]]; eexists; reflexivity.
Qed.

Lemma parallelogram_filled_inner (s : Shape) (k jx jy d1 d2 : Z) (dir1 dir2 : point) :
  0 <= k <= 5 -> 0 < jx -> 0 <= jy <= d2 ->
  Py.getitem DIR_VECS k = Some dir1 ->
  Py.getitem DIR_VECS ((k + 1) mod 6) = Some dir2 ->
  (forall ix iy, 0 <= ix <= jx -> 0 <= iy <= jy ->
     cell_filled s dir1 dir2 d1 d2 ix iy = true) ->
  parallelogram_filled s (cell_point dir1 dir2 jx jy) = true.
Proof.
  intros Hk Hjx Hjy H1 H2 Hcells. unfold parallelogram_filled.
  destruct (sector_cell_inner k jx jy dir1 dir2 Hk Hjx (proj1 Hjy) H1 H2) as [Es Er].
  rewrite Es, Er, H1, H2.
  apply forallb_forall. intros ix Hix. apply range_In in Hix.
  apply forallb_forall. intros iy Hiy. apply range_In in Hiy.
  apply (cell_filled_le s dir1 dir2 d1 d2); [lia|]. apply Hcells; lia.
Qed.

Lemma parallelogram_filled_axis (s : Shape) (k jy d1 d2 : Z) (dir1 dir2 : point) :
  0 <= k <= 5 -> 0 < jy ->
  Py.getitem DIR_VECS k = Some dir1 ->
  Py.getitem DIR_VECS ((k + 1) mod 6) = Some dir2 ->
  (forall iy, 0 <= iy <= jy -> cell_filled s dir1 dir2 d1 d2 0 iy = true) ->
  parallelogram_filled s (cell_point dir1 dir2 0 jy) = true.
Proof.
  intros Hk Hjy H1 H2 Hcells.
  assert (Hk' : 0 <= (k + 1) mod 6 <= 5) by (pose proof (Z.mod_pos_bound (k + 1) 6); lia).
  destruct (dir_vecs_next _ Hk') as [dir3 H3].
  rewrite (cell_point_axis dir1 dir2 dir3).
  apply (parallelogram_filled_inner s ((k + 1) mod 6) jy 0 0 0 dir2 dir3);
    try assumption; try lia.
  intros ix iy Hix Hiy. assert (iy = 0) by lia. subst iy.
  specialize (Hcells ix Hix).
  unfold cell_filled. cbv zeta.
  change (vadd (scale ix dir2) (scale 0 dir3)) with (cell_point dir2 dir3 ix 0).
  rewrite <- (cell_point_axis dir1 dir2 dir3 ix).
  change (0 >? 0) with false. change (0 <? 0) with false.
  rewrite ?andb_false_r, ?andb_true_r.
  apply andb_true_iff. split.
  - apply has_node_In, (cell_filled_node _ _ _ _ _ _ _ Hcells).
  - destruct (ix >? 0) eqn:E; [|reflexivity]. apply Z.gtb_lt in E.
    apply (cell_filled_down _ _ _ _ _ _ _ Hcells E).
Qed.

Lemma parallelogram_filled_origin (s : Shape) :
  In (0, 0) (nodes s) -> parallelogram_filled s (0, 0) = true.
Proof.
  intros H. apply has_node_In in H. unfold parallelogram_filled.
  cbn [fst snd]. change (sector_of 0 0) with 5.
  change (rotate_grid_point 0 0 ((6 - 5) mod 6)) with (Some (0, 0)).
  change (Py.getitem DIR_VECS 5) with (Some (1, -1)).
  change (Py.getitem DIR_VECS ((5 + 1) mod 6)) with (Some (1, 0)).
  apply forallb_forall. intros ix Hix. apply range_In in Hix.
  apply forallb_forall. intros iy Hiy. apply range_In in Hiy.
  assert (ix = 0) by lia. assert (iy = 0) by lia. subst ix iy.
  unfold cell_filled. cbv zeta.
  change (vadd (scale 0 (1, -1)) (scale 0 (1, 0))) with (0, 0).
  change (0 >? 0) with false. cbn [andb]. rewrite H. reflexivity.
Qed.

Lemma cell_point_origin (dir1 dir2 : point) : cell_point dir1 dir2 0 0 = (0, 0).
Proof. destruct dir1, dir2. reflexivity. Qed.

Lemma dir_vecs_at (k : Z) : 0 <= k <= 5 -> exists v, Py.getitem DIR_VECS k = Some v.
Proof.
  intros Hk. assert (Hc : k = 0 \/ k = 1 \/ k = 2 \/ k = 3 \/ k = 4 \/ k = 5) by lia.
  destruct Hc as [->|[->|[->|[->|[->| ->]]]]]; eexists; reflexivity.
Qed.

(** On a shape at the origin whose nodes are pairwise different,
    [add_node_convex] returns, keeps what the mesh holds, fills the
    parallelogram of the picked point and keeps the mesh star-convex. *)
Theorem add_node_convex_at_origin (s : Shape) (node : point) :
  pos s = (0, 0) -> NoDup (nodes s) -> star_convex s = true ->
  exists s',
    add_node_convex s node = Some s' /\
    pos s' = (0, 0) /\ NoDup (nodes s') /\ extends s s' /\
    parallelogram_filled s' node = true /\
    star_convex s' = true.
Proof.
  intros Hpos Hnd Hstar. unfold add_node_convex. rewrite Hpos. cbn [fst snd].
  rewrite !Z.sub_0_r.
  assert (Hstar' : forall p, In p (nodes s) -> parallelogram_filled s p = true).
  { unfold star_convex in Hstar. rewrite forallb_forall in Hstar. exact Hstar. }
  destruct (Py.mem point_eqb (fst node, snd node) (nodes s)) eqn:Emem.
  - exists s. split; [reflexivity|]. split; [exact Hpos|]. split; [exact Hnd|].
    split; [apply extends_refl|]. split; [|exact Hstar].
    apply Hstar'. apply has_node_In. unfold has_node. destruct node. exact Emem.
  - pose proof (sector_of_range (fst node) (snd node)) as Hk.
    set (k := sector_of (fst node) (snd node)) in *.
    assert (Hr : 0 <= (6 - k) mod 6 <= 5) by (pose proof (Z.mod_pos_bound (6 - k) 6); lia).
    pose proof (rotate_defined ((6 - k) mod 6) (fst node, snd node) Hr) as Er.
    cbn [fst snd] in Er. rewrite Er.
    destruct (rotate_point ((6 - k) mod 6) (fst node, snd node)) as [xr yr] eqn:Exy.
    destruct (dir_vecs_at k Hk) as [dir1 H1]. destruct (dir_vecs_next k Hk) as [dir2 H2].
    rewrite H1, H2.
    pose proof (convex_fill_fills s dir1 dir2 xr yr Hpos Hnd) as [P' D' X' F' M'].
    set (s' := convex_fill dir1 dir2 (xr + 1) (yr + 1) s) in *.
    assert (Hcells : forall ix iy, 0 <= ix <= xr -> 0 <= iy <= yr ->
                                   cell_filled s' dir1 dir2 xr yr ix iy = true).
    { intros ix iy Hix Hiy. apply F'; lia. }
    exists s'. split; [reflexivity|]. split; [exact P'|]. split; [exact D'|].
    split; [exact X'|]. split.
    + unfold parallelogram_filled. fold k. rewrite Er, H1, H2.
      apply forallb_forall. intros ix Hix. apply range_In in Hix.
      apply forallb_forall. intros iy Hiy. apply range_In in Hiy.
      apply Hcells; lia.
    + unfold star_convex. apply forallb_forall. intros p Hp.
      destruct (M' p Hp) as [Hold|(jx & jy & Hjx & Hjy & Hlt & ->)].
      * apply (parallelogram_filled_mono s s' p X'), Hstar', Hold.
      * assert (Hjx' : jx <= xr) by lia.
        assert (Hc : 0 < jx \/ (jx = 0 /\ 0 < jy) \/ (jx = 0 /\ jy = 0)) by lia.
        destruct Hc as [Hc|[[-> Hc]|[-> ->]]].
        -- apply (parallelogram_filled_inner s' k jx jy xr yr dir1 dir2); try assumption.
           intros ix iy Hix Hiy. apply Hcells; lia.
        -- apply (parallelogram_filled_axis s' k jy xr yr dir1 dir2); try assumption.
           intros iy Hiy. apply Hcells; lia.
        -- rewrite cell_point_origin in *. apply parallelogram_filled_origin, Hp.
Qed.

Example add_node_convex_at_origin_example :
  exists s',
    add_node_convex (mkShape (0, 0) [(0, 0)] [] []) (2, 1) = Some s' /\
    length (nodes s') = 6%nat /\
    parallelogram_filled s' (2, 1) = true /\
    star_convex s' = true.
Proof.
  destruct (add_node_convex_at_origin (mkShape (0, 0) [(0, 0)] [] []) (2, 1))
    as (s' & E & _ & _ & _ & Hp & Hs).
  - reflexivity.
  - repeat constructor. intros [].
  - reflexivity.
  - exists s'. split; [exact E|]. split; [|split; assumption].
    vm_compute in E. injection E as <-. reflexivity.
Qed.

(** ** Claims about snowflakes *)

Lemma click_snowflakes_rejects (depth : nat) (a : arena) (Y X : sfid) (node : point)
    (pre post D : list sfid) :
  node = pos (sf_shape (a X)) ->
  (forall z, In z pre -> z = Y \/ pos (sf_shape (a z)) <> node) ->
  get_children_recursive depth a X = Some D -> In Y D ->
  click_snowflakes depth a Y node (pre ++ X :: post) = Returned (a, false).
Proof.
  intros Hnode Hpre E HY.
  assert (Hne : X <> Y).
  { intros ->. apply (gcr_spec _ _ _ _ E) in HY.
    rewrite (gcr_cycle _ _ HY) in E. discriminate. }
  induction pre as [|z pre IH].
  - cbn [app click_snowflakes].
    destruct (Nat.eqb_spec X Y) as [Heq|_]; [contradiction|].
    rewrite Hnode, point_eqb_refl, E.
    apply sf_mem_true in HY. rewrite HY. reflexivity.
  - cbn [app click_snowflakes].
    assert (IH' := IH (fun z' Hz' => Hpre z' (or_intror Hz'))).
    destruct (Nat.eqb_spec z Y) as [Heq|Hzy]; [exact IH'|].
    destruct (Hpre z (or_introl eq_refl)) as [Heq|Hpos]; [contradiction|].
    destruct (point_eqb node (pos (sf_shape (a z)))) eqn:Ep; [|exact IH'].
    apply point_eqb_eq in Ep. congruence.
Qed.

(** C5. The user clicks the root of snowflake [X] to attach it to the
    snowflake [Y]: the click is not an extension of one of [Y]'s arms and [X]
    is the first snowflake of the list, apart from [Y], that sits at the
    clicked grid point.  When [Y] is in the set of transitive children that
    [get_children_recursive] computes for [X], [_node_click] returns [False]
    and the arena it leaves is the arena of before: no child candidate and no
    attachment is recorded, and arms, children, parents and meshes of every
    snowflake, [X] and [Y] among them, are unchanged, and with them the child
    relation. *)
Theorem node_click_rejects_cyclic_attachment
    (iter_order : list sfid -> list sfid) (depth : nat) (a : arena) (Y X : sfid)
    (node : point) (pre post D : list sfid) :
  extends_arm (a Y) node = Some false ->
  node = pos (sf_shape (a X)) ->
  (forall z, In z pre -> z = Y \/ pos (sf_shape (a z)) <> node) ->
  get_children_recursive depth a X = Some D -> In Y D ->
  _node_click iter_order depth a Y node (pre ++ X :: post) = Returned (a, false).
Proof.
  intros Hext Hnode Hpre E HY.
  unfold _node_click. destruct (_test_node_arm (a Y) node true) as [dir dist].
  rewrite Hext. destruct (selected_edge (a Y)); [|reflexivity].
  apply click_snowflakes_rejects with D; assumption.
Qed.

Lemma node_click_rejects_cyclic_attachment_witness :
  _node_click (fun l => l) 5 example_arena 1%nat (0, 0) ([] ++ 0%nat :: [1%nat])
  = Returned (example_arena, false).
Proof.
  apply (node_click_rejects_cyclic_attachment (fun l => l) 5 example_arena 1%nat 0%nat
           (0, 0) [] [1%nat] [1%nat]).
  - reflexivity.
  - reflexivity.
  - intros z [].
  - reflexivity.
  - left. reflexivity.
Defined.

(** C6. When no infinite chain of children starts at the snowflake [x],
    there is a recursion depth from which on [gen_dependency_tree] returns a
    list of entries for an ordering [top] of [x] and all its transitive
    children, each once, in which every snowflake comes after all of its own
    transitive children; the entry of a snowflake carries its arms and, per
    recorded attachment, one reference with the direction, the distance and
    the rotation of the attachment and, as [childIdx], the position of the
    attached child in [top].  This holds for every order in which the loop
    over the set of remaining snowflakes may walk it. *)
Theorem gen_dependency_tree_topological
    (iter_order : list sfid -> list sfid) (a : arena) (x : sfid) :
  (forall l, Permutation (iter_order l) l) ->
  acyclic_below a x ->
  exists depth0 : nat, forall depth : nat, (depth0 <= depth)%nat ->
  exists (top : list sfid) (dt : list dt_entry),
    top_order_of iter_order depth a x = Returned (Some top) /\
    gen_dependency_tree iter_order depth a x = Returned (Some dt) /\
    NoDup top /\
    (forall y, In y top <-> y = x \/ descends a x y) /\
    children_first a top /\
    Forall2 (entry_ok a top) top dt.
Proof.
  intros Hperm Hacc. destruct (gcr_acyclic a x Hacc) as (n & D & E).
  exists n. intros depth Hle.
  apply (gen_dependency_tree_total iter_order Hperm depth a x D).
  apply (gcr_mono_le n); assumption.
Qed.

Lemma gen_dependency_tree_topological_witness :
  exists depth0 : nat, forall depth : nat, (depth0 <= depth)%nat ->
  exists (top : list sfid) (dt : list dt_entry),
    top_order_of (fun l => l) depth example_arena 0%nat = Returned (Some top) /\
    gen_dependency_tree (fun l => l) depth example_arena 0%nat = Returned (Some dt) /\
    NoDup top /\
    (forall y, In y top <-> y = 0%nat \/ descends example_arena 0%nat y) /\
    children_first example_arena top /\
    Forall2 (entry_ok example_arena top) top dt.
Proof.
  apply (gen_dependency_tree_topological (fun l => l) example_arena 0%nat).
  - intros l. apply Permutation_refl.
  - constructor. intros c Hc. destruct Hc as [<-|[]].
    constructor. intros c' Hc'. destruct Hc'.
Defined.

Lemma dir_vecs_third (sector : Z) (vec1 vec2 vec3 : point) :
  In sector (range 6) ->
  Py.getitem DIR_VECS sector = Some vec1 ->
  Py.getitem DIR_VECS ((sector + 1) mod 6) = Some vec2 ->
  Py.getitem DIR_VECS ((sector + 2) mod 6) = Some vec3 ->
  vec3 = vsub vec2 vec1.
Proof.
  intros Hs H1 H2 H3. simpl in Hs.
  repeat (destruct Hs as [<-|Hs];
          [vm_compute in H1, H2, H3; injection H1 as <-; injection H2 as <-;
           injection H3 as <-; reflexivity|]).
  destruct Hs.
Qed.

(** C9. Serializing never passes an invariant violation on as a document.
    For a snowflake, [gen_dependency_tree] never returns [None]: the sort
    finds a next snowflake in every round, and [to_json] either raises or
    returns a document whose dependency tree is the list of entries of a
    topological ordering; when a snowflake among [x] and its transitive
    children is its own transitive child, [to_json] raises.  For a
    star-convex shape, [to_json] returns a document only with the
    constituents of a traversal that ran to its end, and the start point that
    the first loop of [gen_constituents] records always has an edge to follow,
    so the traversal finds its initial direction. *)
Theorem serialization_has_no_silent_failure
    (iter_order : list sfid -> list sfid) (depth : nat) (a : arena) (x : sfid)
    (rounds : nat) (s : Shape) :
  (forall l, Permutation (iter_order l) l) ->
  gen_dependency_tree iter_order depth a x <> Returned None /\
  (forall doc, Snowflake_to_json iter_order depth a x = Returned doc ->
     exists top dt,
       doc_dependencyTree doc = Some dt /\
       top_order_of iter_order depth a x = Returned (Some top) /\
       children_first a top /\
       Forall2 (entry_ok a top) top dt) /\
  ((exists y, (y = x \/ descends a x y) /\ descends a y y) ->
     Snowflake_to_json iter_order depth a x = Raised) /\
  (forall doc, StarConvex_to_json rounds s = Returned doc ->
     gen_constituents rounds s = Returned (doc_constituents doc)) /\
  (forall sector vec1 vec2 vec3 fuel ax,
     In sector (range 6) ->
     Py.getitem DIR_VECS sector = Some vec1 ->
     Py.getitem DIR_VECS ((sector + 1) mod 6) = Some vec2 ->
     Py.getitem DIR_VECS ((sector + 2) mod 6) = Some vec3 ->
     axis_walk fuel s vec1 (mkAxis (0, 0) 0 0 false vec2 (vadd vec1 vec2)) = Returned ax ->
     ax_last_edge_idx ax <> 0 ->
     exists da, initial_direction s (scale (ax_last_edge_idx ax) vec1) vec2 vec3 = Some da).
Proof.
  intros Hperm.
  assert (Hcases : get_children_recursive depth a x = None \/
                   exists top dt,
                     top_order_of iter_order depth a x = Returned (Some top) /\
                     gen_dependency_tree iter_order depth a x = Returned (Some dt) /\
                     children_first a top /\ Forall2 (entry_ok a top) top dt).
  { destruct (get_children_recursive depth a x) as [D|] eqn:E; [right|left; reflexivity].
    destruct (gen_dependency_tree_total iter_order Hperm depth a x D E)
      as (top & dt & H1 & H2 & _ & _ & H3 & H4).
    exists top, dt. auto. }
  assert (Hnone : get_children_recursive depth a x = None ->
                  gen_dependency_tree iter_order depth a x = Raised).
  { intros E. unfold gen_dependency_tree, top_order_of. rewrite E. reflexivity. }
  split; [|split; [|split; [|split]]].
  - destruct Hcases as [E|(top & dt & _ & E & _)].
    + rewrite (Hnone E). discriminate.
    + rewrite E. discriminate.
  - intros doc Hdoc. unfold Snowflake_to_json in Hdoc.
    destruct Hcases as [E|(top & dt & Et & E & Hcf & HF)].
    + rewrite (Hnone E) in Hdoc. discriminate.
    + rewrite E in Hdoc. cbn [obind] in Hdoc. injection Hdoc as <-.
      exists top, dt. auto.
  - intros (y & Hy & Hcyc). unfold Snowflake_to_json. rewrite Hnone; [reflexivity|].
    destruct Hy as [->|Hy].
    + apply gcr_cycle, Hcyc.
    + apply gcr_cycle_below with y; assumption.
  - intros doc Hdoc. unfold StarConvex_to_json in Hdoc.
    destruct (gen_constituents rounds s) as [cs| |]; try discriminate.
    cbn [obind] in Hdoc. injection Hdoc as <-. reflexivity.
  - intros sector vec1 vec2 vec3 fuel ax Hs H1 H2 H3 Hwalk Hne.
    pose proof (dir_vecs_third _ _ _ _ Hs H1 H2 H3) as Hv.
    destruct (axis_walk_inv s vec1 vec2 vec3 Hv fuel _ ax
                (axis_inv_init s vec1 vec2 vec3) Hwalk) as [_ _ _ [H0|Hd]];
      [contradiction|].
    destruct (initial_direction s (scale (ax_last_edge_idx ax) vec1) vec2 vec3) as [da|];
      [exists da; reflexivity|contradiction].
Qed.

Lemma serialization_has_no_silent_failure_witness :
  Snowflake_to_json (fun l => l) 5 cyclic_arena 0%nat = Raised /\
  gen_constituents 4 triangle_shape = Returned (doc_constituents
    (mkDocument (nodes triangle_shape) (edges triangle_shape) (faces triangle_shape)
       [mkConstituent 0 0 2 1 0 0 0 0] (Some []))) /\
  exists da, initial_direction triangle_shape
               (scale (ax_last_edge_idx (mkAxis (1, 0) 1 1 false (1, 1) (2, 1))) (1, 0))
               (0, 1) (-1, 1) = Some da.
Proof.
  destruct (serialization_has_no_silent_failure (fun l => l) 5 cyclic_arena 0%nat 4
              triangle_shape (fun l => Permutation_refl l)) as (_ & _ & H3 & H4 & H5).
  split; [|split].
  - apply H3. exists 0%nat. split; [left; reflexivity|].
    apply desc_step with 1%nat; [left; reflexivity|].
    apply desc_child. left. reflexivity.
  - apply H4. reflexivity.
  - apply (H5 0 (1, 0) (0, 1) (-1, 1) 4%nat).
    + left. reflexivity.
    + reflexivity.
    + reflexivity.
    + reflexivity.
    + reflexivity.
    + discriminate.
Defined.

(** ** [gen_shifted_shape] and its receiver *)

(** C10. [gen_shifted_shape] does not touch an object that exists when it is
    called: the store it leaves is the store of before with new objects at
    the end, also when the call raises.  On a snowflake whose edges join
    neighbouring nodes, with a rotation and a shift direction in 0..5, the
    call returns a new [Shape] object at the given position whose node, edge
    and face lists are three new list objects, different from each other; the
    receiver's position and its node, edge, face, arms, children and parents
    objects are those of before, and so is every other object. *)
Theorem gen_shifted_shape_never_mutates
    (h : heap) (self : ref) (s : Shape) (p : point) (rot shift_dir : Z) :
  (exists ext, fst (gen_shifted_shape_h self p rot shift_dir h) = h ++ ext) /\
  (holds_snowflake h self s -> unit_edges (nodes s) (edges s) ->
   0 <= rot <= 5 -> 0 <= shift_dir <= 5 ->
   exists ext r an ne nf ns es fs,
     gen_shifted_shape_h self p rot shift_dir h = (h ++ ext, Some r) /\
     nth_error (h ++ ext) r = Some (OShape p an ne nf) /\
     nth_error (h ++ ext) an = Some (OPoints ns) /\
     nth_error (h ++ ext) ne = Some (OEdges es) /\
     nth_error (h ++ ext) nf = Some (OFaces fs) /\
     (length h <= r)%nat /\ (length h <= an)%nat /\
     (length h <= ne)%nat /\ (length h <= nf)%nat /\
     NoDup [r; an; ne; nf] /\
     holds_snowflake (h ++ ext) self s /\
     (forall k o, nth_error h k = Some o -> nth_error (h ++ ext) k = Some o)).
Proof.
  split; [apply gen_shifted_shape_extends|].
  intros Hs Hu Hrot Hsd.
  destruct (gen_shifted_shape_runs h self s p rot shift_dir Hs Hu Hrot Hsd)
    as (ns & sn & shn & she & ae & af & Hrun).
  rewrite app_nil_r in Hrun.
  assert (Hold : forall k o, nth_error h k = Some o ->
                             forall ext, nth_error (h ++ ext) k = Some o).
  { intros k o Hk ext. rewrite nth_error_app1; [exact Hk|].
    apply nth_error_Some. rewrite Hk. discriminate. }
  assert (Hnew : forall (ext : heap) k, nth_error (h ++ ext) (length h + k) = nth_error ext k).
  { intros ext k. rewrite nth_error_app2 by lia. f_equal. lia. }
  eexists. exists (length h + 11)%nat, (length h + 6)%nat, (length h + 9)%nat,
             (length h + 10)%nat, (ns ++ shn), (edges s ++ she ++ ae), (faces s ++ af).
  split; [exact Hrun|].
  rewrite !Hnew. repeat (split; [reflexivity || lia|]).
  split.
  { repeat constructor; simpl; lia. }
  split; [|intros k o Hk; apply Hold, Hk].
  destruct Hs as (nr & er & fr & ar & cr & pr & H1 & H2 & H3 & H4).
  exists nr, er, fr, ar, cr, pr. repeat split; apply Hold; assumption.
Qed.

Lemma gen_shifted_shape_never_mutates_witness :
  exists ext r an ne nf ns es fs,
    gen_shifted_shape_h 6%nat (3, 3) 1 0
      (store_of (mkShape (0, 0) [(0, 0); (1, 0)] [(0, 1)] []))
    = (store_of (mkShape (0, 0) [(0, 0); (1, 0)] [(0, 1)] []) ++ ext, Some r) /\
    nth_error (store_of (mkShape (0, 0) [(0, 0); (1, 0)] [(0, 1)] []) ++ ext) r
    = Some (OShape (3, 3) an ne nf) /\
    nth_error (store_of (mkShape (0, 0) [(0, 0); (1, 0)] [(0, 1)] []) ++ ext) an
    = Some (OPoints ns) /\
    nth_error (store_of (mkShape (0, 0) [(0, 0); (1, 0)] [(0, 1)] []) ++ ext) ne
    = Some (OEdges es) /\
    nth_error (store_of (mkShape (0, 0) [(0, 0); (1, 0)] [(0, 1)] []) ++ ext) nf
    = Some (OFaces fs) /\
    (7 <= r)%nat /\ (7 <= an)%nat /\ (7 <= ne)%nat /\ (7 <= nf)%nat.
Proof.
  destruct (proj2 (gen_shifted_shape_never_mutates
                     (store_of (mkShape (0, 0) [(0, 0); (1, 0)] [(0, 1)] [])) 6%nat
                     (mkShape (0, 0) [(0, 0); (1, 0)] [(0, 1)] []) (3, 3) 1 0))
    as (ext & r & an & ne & nf & ns & es & fs & H1 & H2 & H3 & H4 & H5 & H6 & H7 & H8 & H9 & _).
  - exists 0%nat, 1%nat, 2%nat, 3%nat, 4%nat, 5%nat. repeat split.
  - intros e [<-|[]]. exists (0, 0), (1, 0). cbn. repeat split; try lia. left. reflexivity.
  - lia.
  - lia.
  - exists ext, r, an, ne, nf, ns, es, fs. repeat split; assumption.
Defined.

